(** * libconfig: populating a struct from a lookup function

    A shallow embedding of the Go package [libconfig] (parser.go, the tag
    parser and the value setters) together with the parts of the Go runtime
    the package relies on: [reflect] values over a heap, [strings.Split],
    [strconv.ParseInt], [strconv.ParseUint] and [strconv.ParseBool].

    Conventions of the embedding.
    - A Go [error] result is an [option error]; [None] is Go's [nil].
    - A Go panic is an outcome of its own ([Panic]); it is never an [error].
    - Memory is a list of allocated objects; a pointer is [nil] or the index
      of an object.  Struct fields live inside the object of their struct, so
      an addressable [reflect.Value] is an object index plus a path of field
      indices.
    - Struct types are finite trees: a struct type that mentions itself
      (through a pointer) is outside the embedding.
    - [encoding/base64], [encoding/json], [strconv.ParseFloat] and the
      float32 conversions are taken as parameters ([Extern]).
    - [int] and [uint] are 64 bits wide. *)

From Stdlib Require Import ZArith List String Ascii Bool Lia Permutation.
From Stdlib Require Import Strings.Byte.
From Stdlib Require Import Floats.SpecFloat.
From stdpp Require Import base list.
Import ListNotations.
Local Open Scope string_scope.
Local Open Scope list_scope.

Set Implicit Arguments.
Set Warnings "-register-all".

(* ===================================================================== *)
(** ** Package strings *)
(* ===================================================================== *)

Module strings.

(** [strings.Split(s, ",")]: the pieces of [s] between commas; always at
    least one piece. *)
Fixpoint Split (s : string) : list string :=
  match s with
  | EmptyString => [EmptyString]
  | String c rest =>
      if Ascii.eqb c "," then EmptyString :: Split rest
      else match Split rest with
           | tok :: toks => String c tok :: toks
           | [] => [String c EmptyString]
           end
  end.

(** [strings.Join(toks, ",")]; the package does not call it, annotations
    are written with it in the statements below. *)
Fixpoint Join (toks : list string) : string :=
  match toks with
  | [] => EmptyString
  | [tok] => tok
  | tok :: rest => tok ++ String "," (Join rest)
  end.

Fixpoint has_comma (s : string) : bool :=
  match s with
  | EmptyString => false
  | String c rest => Ascii.eqb c "," || has_comma rest
  end.

End strings.

(* ===================================================================== *)
(** ** Package strconv *)
(* ===================================================================== *)

Module strconv.

(** The [Err] of a [*strconv.NumError]. *)
Inductive NumError : Type := ErrSyntax | ErrRange.

Definition maxUint64 : Z := 2 ^ 64 - 1.

(** The value of a decimal digit; a letter is a digit of a base above 10
    and is refused like any other byte. *)
Definition digit (c : ascii) : option Z :=
  let n := Z.of_nat (nat_of_ascii c) in
  if (48 <=? n)%Z && (n <=? 57)%Z then Some (n - 48)%Z else None.

(** The loop of [ParseUint(s, 10, 64)] on the bytes of [s]; [n] is the
    uint64 accumulated so far. *)
Fixpoint ParseUint_loop (s : string) (n : Z) : Z + NumError :=
  match s with
  | EmptyString => inl n
  | String c rest =>
      match digit c with
      | None => inr ErrSyntax
      | Some d =>
          if (n >=? maxUint64 / 10 + 1)%Z then inr ErrRange
          else
            let n := (n * 10)%Z in
            let n1 := ((n + d) mod 2 ^ 64)%Z in
            if (n1 <? n)%Z || (n1 >? maxUint64)%Z then inr ErrRange
            else ParseUint_loop rest n1
      end
  end.

(** [strconv.ParseUint(s, 10, 64)] *)
Definition ParseUint (s : string) : Z + NumError :=
  match s with
  | EmptyString => inr ErrSyntax
  | _ => ParseUint_loop s 0
  end.

(** [strconv.ParseInt(s, 10, 64)] *)
Definition ParseInt (s : string) : Z + NumError :=
  match s with
  | EmptyString => inr ErrSyntax
  | String c rest =>
      let neg := Ascii.eqb c "-" in
      let s' := if Ascii.eqb c "+" || neg then rest else s in
      match ParseUint s' with
      | inr e => inr e
      | inl un =>
          let cutoff := (2 ^ 63)%Z in
          if negb neg && (un >=? cutoff)%Z then inr ErrRange
          else if neg && (un >? cutoff)%Z then inr ErrRange
          else inl (if neg then (- un)%Z else un)
      end
  end.

(** [strconv.ParseBool(str)] *)
Definition ParseBool (str : string) : bool + NumError :=
  if existsb (String.eqb str) ["1"; "t"; "T"; "true"; "TRUE"; "True"] then inl true
  else if existsb (String.eqb str) ["0"; "f"; "F"; "false"; "FALSE"; "False"] then inl false
  else inr ErrSyntax.

End strconv.

(* ===================================================================== *)
(** ** Memory and effects *)
(* ===================================================================== *)

(** A place in memory: an allocated object and a path of field indices
    into it.  A non-nil pointer holds a place. *)
Definition place : Type := nat * list nat.

Inductive value : Type :=
| VBool (b : bool)
| VInt (z : Z)
| VUint (z : Z)
| VFloat (f : spec_float)
| VString (s : string)
| VPtr (p : option place)
| VSlice (elems : list value)
| VStruct (fields : list value)
| VOpaque (tok : Z).

(** The value at the end of a path of field indices. *)
Fixpoint get_at (x : value) (path : list nat) : option value :=
  match path with
  | [] => Some x
  | i :: rest =>
      match x with
      | VStruct xs => match xs !! i with Some y => get_at y rest | None => None end
      | _ => None
      end
  end.

(** [x] with the value at the end of the path replaced. *)
Fixpoint set_at (x : value) (path : list nat) (new : value) : option value :=
  match path with
  | [] => Some new
  | i :: rest =>
      match x with
      | VStruct xs =>
          match xs !! i with
          | Some y =>
              match set_at y rest new with
              | Some y' => Some (VStruct (<[i := y']> xs))
              | None => None
              end
          | None => None
          end
      | _ => None
      end
  end.

(** What a run can observe and change: the allocated objects, and the
    names [LookupFn] was called with, oldest first. *)
Record state : Type := mkState {
  heap : list value;
  calls : list string
}.

Definition heap_get (h : list value) (pl : place) : option value :=
  match h !! fst pl with Some x => get_at x (snd pl) | None => None end.

Definition heap_set (h : list value) (pl : place) (new : value) : option (list value) :=
  match h !! fst pl with
  | Some x =>
      match set_at x (snd pl) new with
      | Some x' => Some (<[fst pl := x']> h)
      | None => None
      end
  | None => None
  end.

(** How a call ends: it returns, it panics, or ([Fault]) it met memory
    that does not hold a value of the expected type, which Go's typing
    excludes. *)
Inductive outcome (A : Type) : Type :=
| Ret (a : A)
| Panic (msg : string)
| Fault.
Arguments Panic {A} msg.
Arguments Fault {A}.

Definition M (A : Type) : Type := state -> state * outcome A.

Definition ret {A} (a : A) : M A := fun s => (s, Ret a).
Definition panic {A} (msg : string) : M A := fun s => (s, Panic msg).
Definition fault {A} : M A := fun s => (s, Fault).
Definition bind {A B} (m : M A) (k : A -> M B) : M B :=
  fun s =>
    match m s with
    | (s', Ret a) => k a s'
    | (s', Panic msg) => (s', Panic msg)
    | (s', Fault) => (s', Fault)
    end.

Notation "x <- m ;; k" := (bind m (fun x => k))
  (at level 100, m at next level, right associativity).
Notation "m ;;; k" := (bind m (fun _ => k))
  (at level 100, right associativity).

(* ===================================================================== *)
(** ** Package reflect *)
(* ===================================================================== *)

Module reflect.

(** [reflect.Kind], in the order of the Go declaration. *)
Inductive Kind : Type :=
| Invalid | Bool
| Int | Int8 | Int16 | Int32 | Int64
| Uint | Uint8 | Uint16 | Uint32 | Uint64 | Uintptr
| Float32 | Float64 | Complex64 | Complex128
| Array | Chan | Func | Interface | Map | Ptr | Slice | String | Struct
| UnsafePointer.

(** Widths of the integer types; [W0] is the platform width ([int], [uint]). *)
Inductive width : Type := W0 | W8 | W16 | W32 | W64.

Definition bits (w : width) : Z :=
  match w with W0 => 64 | W8 => 8 | W16 => 16 | W32 => 32 | W64 => 64 end.

(** Kinds whose values the package never looks inside. *)
Inductive opaque : Type :=
| OInterface | OMap | OChan | OFunc | OArray
| OComplex64 | OComplex128 | OUintptr | OUnsafePointer.

(** [reflect.StructTag]: the conventional [key:"value"] pairs of a field's
    annotation, in textual order. *)
Definition StructTag : Type := list (string * string).

(** [reflect.Type] for the types a configuration struct is made of, and
    [reflect.StructField]. *)
Inductive rtype : Type :=
| TBool
| TInt (w : width)
| TUint (w : width)
| TFloat32
| TFloat64
| TString
| TPtr (elem : rtype)
| TSlice (elem : rtype)
| TStruct (fields : list StructField)
| TOpaque (k : opaque)
with StructField : Type :=
| mkField (Name : string) (exported : bool) (Typ : rtype) (Tag : StructTag)
          (Anonymous : bool).

Definition Name (f : StructField) : string :=
  match f with mkField n _ _ _ _ => n end.
Definition exported (f : StructField) : bool :=
  match f with mkField _ e _ _ _ => e end.
Definition Typ (f : StructField) : rtype :=
  match f with mkField _ _ t _ _ => t end.
Definition Tag (f : StructField) : StructTag :=
  match f with mkField _ _ _ t _ => t end.
Definition Anonymous (f : StructField) : bool :=
  match f with mkField _ _ _ _ a => a end.

Definition kind_of_int (w : width) : Kind :=
  match w with W0 => Int | W8 => Int8 | W16 => Int16 | W32 => Int32 | W64 => Int64 end.
Definition kind_of_uint (w : width) : Kind :=
  match w with W0 => Uint | W8 => Uint8 | W16 => Uint16 | W32 => Uint32 | W64 => Uint64 end.
Definition kind_of_opaque (k : opaque) : Kind :=
  match k with
  | OInterface => Interface | OMap => Map | OChan => Chan | OFunc => Func
  | OArray => Array | OComplex64 => Complex64 | OComplex128 => Complex128
  | OUintptr => Uintptr | OUnsafePointer => UnsafePointer
  end.

(** [t.Kind()] *)
Definition kind (t : rtype) : Kind :=
  match t with
  | TBool => Bool
  | TInt w => kind_of_int w
  | TUint w => kind_of_uint w
  | TFloat32 => Float32
  | TFloat64 => Float64
  | TString => String
  | TPtr _ => Ptr
  | TSlice _ => Slice
  | TStruct _ => Struct
  | TOpaque k => kind_of_opaque k
  end.

(** The bit size of an integer kind ([v.typ.size * 8]). *)
Definition kind_bits (k : Kind) : option Z :=
  match k with
  | Int | Uint | Int64 | Uint64 | Uintptr => Some 64%Z
  | Int8 | Uint8 => Some 8%Z
  | Int16 | Uint16 => Some 16%Z
  | Int32 | Uint32 => Some 32%Z
  | _ => None
  end.

(** [tag.Lookup(key)]: the value of the first pair under [key]. *)
Fixpoint Lookup (tag : StructTag) (key : string) : option string :=
  match tag with
  | [] => None
  | (k, v) :: rest => if String.eqb k key then Some v else Lookup rest key
  end.

(** The zero value of a type. *)
Fixpoint Zero (t : rtype) : value :=
  match t with
  | TBool => VBool false
  | TInt _ => VInt 0
  | TUint _ => VUint 0
  | TFloat32 | TFloat64 => VFloat (S754_zero false)
  | TString => VString ""
  | TPtr _ => VPtr None
  | TSlice _ => VSlice []
  | TStruct fs =>
      VStruct (List.map (fun f => match f with mkField _ _ ty _ _ => Zero ty end) fs)
  | TOpaque _ => VOpaque 0
  end.

(** An addressable [reflect.Value]: its type, the place it designates and
    the two read-only flags [flagStickyRO] and [flagEmbedRO]. *)
Record Value : Type := mkValue {
  typ : rtype;
  ref : place;
  flagStickyRO : bool;
  flagEmbedRO : bool
}.

Definition flagRO (v : Value) : bool := flagStickyRO v || flagEmbedRO v.

(** [v.Field(i)], where [field] is [v.Type().Field(i)]: the permission
    bits are inherited but [flagEmbedRO] is cleared, and an unexported field
    forces one of the read-only flags. *)
Definition Field (v : Value) (i : nat) (field : StructField) : Value :=
  mkValue (Typ field) (fst (ref v), snd (ref v) ++ [i])
    (flagStickyRO v || (negb (exported field) && negb (Anonymous field)))
    (negb (exported field) && Anonymous field).

Definition load (v : Value) : M value :=
  fun s =>
    match heap_get (heap s) (ref v) with
    | Some x => (s, Ret x)
    | None => (s, Fault)
    end.

Definition store (v : Value) (x : value) : M unit :=
  fun s =>
    match heap_set (heap s) (ref v) x with
    | Some h => (mkState h (calls s), Ret tt)
    | None => (s, Fault)
    end.

(** [mustBeAssignable]: the panic of every setter on a value reached
    through an unexported field. *)
Definition mustBeAssignable (v : Value) : M unit :=
  if flagRO v
  then panic "reflect: reflect.Value.Set using value obtained using unexported field"
  else ret tt.

(** [v.IsNil()] of a pointer. *)
Definition IsNil (v : Value) : M bool :=
  x <- load v ;;
  match x with
  | VPtr None => ret true
  | VPtr (Some _) => ret false
  | _ => fault
  end.

(** [v.Elem()] of a pointer.  Of a nil pointer Go returns the zero
    [Value], on which the next call ([Type]) panics. *)
Definition Elem (v : Value) : M Value :=
  x <- load v ;;
  match typ v, x with
  | TPtr t, VPtr (Some pl) => ret (mkValue t pl (flagStickyRO v) (flagEmbedRO v))
  | TPtr _, VPtr None => panic "reflect: call of reflect.Value.Type on zero Value"
  | _, _ => fault
  end.

(** [reflect.New(t)]: a pointer to a new object holding the zero value. *)
Definition New (t : rtype) : M value :=
  fun s =>
    (mkState (heap s ++ [Zero t]) (calls s),
     Ret (VPtr (Some (length (heap s), [])))).

(** [v.Set(x)] *)
Definition Set_ (v : Value) (x : value) : M unit :=
  mustBeAssignable v ;;; store v x.

(** [v.Interface()]: the dynamic type and a copy of the value. *)
Definition Interface_ (v : Value) : M (rtype * value) :=
  if flagRO v
  then panic "reflect.Value.Interface: cannot return value obtained from unexported field or method"
  else x <- load v ;; ret (typ v, x).

(** [v.Addr().Interface()]: a pointer to the place of [v]; [Addr] keeps the
    read-only flags. *)
Definition AddrInterface (v : Value) : M (rtype * value) :=
  if flagRO v
  then panic "reflect.Value.Interface: cannot return value obtained from unexported field or method"
  else ret (TPtr (typ v), VPtr (Some (ref v))).

(** An int64 after wrap-around. *)
Definition wrap_int64 (z : Z) : Z := ((z + 2 ^ 63) mod 2 ^ 64 - 2 ^ 63)%Z.

(** [intN(x)] and [uintN(x)]: the conversions of [SetInt] and [SetUint]. *)
Definition trunc_int (n : Z) (x : Z) : Z :=
  ((x + 2 ^ (n - 1)) mod 2 ^ n - 2 ^ (n - 1))%Z.
Definition trunc_uint (n : Z) (x : Z) : Z := (x mod 2 ^ n)%Z.

(** [v.OverflowInt(x)]: [x != (x << (64 - bitSize)) >> (64 - bitSize)]
    on int64. *)
Definition OverflowInt (v : Value) (x : Z) : M bool :=
  match kind (typ v) with
  | Int | Int8 | Int16 | Int32 | Int64 =>
      match kind_bits (kind (typ v)) with
      | Some bitSize =>
          let trunc := Z.shiftr (wrap_int64 (Z.shiftl x (64 - bitSize))) (64 - bitSize) in
          ret (negb (x =? trunc)%Z)
      | None => fault
      end
  | _ => panic "reflect: call of reflect.Value.OverflowInt on non-int Value"
  end.

(** [v.OverflowUint(x)], on uint64. *)
Definition OverflowUint (v : Value) (x : Z) : M bool :=
  match kind (typ v) with
  | Uint | Uintptr | Uint8 | Uint16 | Uint32 | Uint64 =>
      match kind_bits (kind (typ v)) with
      | Some bitSize =>
          let trunc := Z.shiftr (Z.shiftl x (64 - bitSize) mod 2 ^ 64) (64 - bitSize) in
          ret (negb (x =? trunc)%Z)
      | None => fault
      end
  | _ => panic "reflect: call of reflect.Value.OverflowUint on non-uint Value"
  end.

(** [v.SetInt(x)] *)
Definition SetInt (v : Value) (x : Z) : M unit :=
  mustBeAssignable v ;;;
  match kind (typ v) with
  | Int | Int8 | Int16 | Int32 | Int64 =>
      match kind_bits (kind (typ v)) with
      | Some n => store v (VInt (trunc_int n x))
      | None => fault
      end
  | _ => panic "reflect: call of reflect.Value.SetInt on non-int Value"
  end.

(** [v.SetUint(x)] *)
Definition SetUint (v : Value) (x : Z) : M unit :=
  mustBeAssignable v ;;;
  match kind (typ v) with
  | Uint | Uintptr | Uint8 | Uint16 | Uint32 | Uint64 =>
      match kind_bits (kind (typ v)) with
      | Some n => store v (VUint (trunc_uint n x))
      | None => fault
      end
  | _ => panic "reflect: call of reflect.Value.SetUint on non-uint Value"
  end.

(** [v.SetBool(x)] *)
Definition SetBool (v : Value) (x : bool) : M unit :=
  mustBeAssignable v ;;;
  match kind (typ v) with
  | Bool => store v (VBool x)
  | _ => panic "reflect: call of reflect.Value.SetBool on non-bool Value"
  end.

(** [v.SetString(x)] *)
Definition SetString (v : Value) (x : string) : M unit :=
  mustBeAssignable v ;;;
  match kind (typ v) with
  | String => store v (VString x)
  | _ => panic "reflect: call of reflect.Value.SetString on non-string Value"
  end.

Definition value_of_byte (b : byte) : value := VUint (Z.of_N (Byte.to_N b)).

(** [v.SetBytes(x)] *)
Definition SetBytes (v : Value) (x : list byte) : M unit :=
  mustBeAssignable v ;;;
  match typ v with
  | TSlice (TUint W8) => store v (VSlice (List.map value_of_byte x))
  | TSlice _ => panic "reflect.Value.SetBytes of non-byte slice"
  | _ => panic "reflect: call of reflect.Value.SetBytes on non-slice Value"
  end.

End reflect.

Import reflect.

(* ===================================================================== *)
(** ** The libraries taken as parameters *)
(* ===================================================================== *)

(** The cause an error of the package wraps ([Because]). *)
Inductive cause : Type :=
| NumErr (e : strconv.NumError)   (* a *strconv.NumError *)
| LibError (msg : string).        (* an error of encoding/base64 or encoding/json *)

Record Extern : Type := mkExtern {
  (** [base64.StdEncoding.DecodeString] *)
  base64_DecodeString : string -> list byte + cause;
  (** [json.Unmarshal(data, v)], [v] an interface value (its dynamic type
      and the pointer it holds); it writes to memory and returns an error
      or nil. *)
  json_Unmarshal : list byte -> rtype * value -> list value -> list value * option cause;
  (** [strconv.ParseFloat(s, 64)] *)
  strconv_ParseFloat : string -> spec_float + strconv.NumError;
  (** [overflowFloat32] of package reflect *)
  overflowFloat32 : spec_float -> bool;
  (** the conversion [float32(x)], as a float64 *)
  float32_of : spec_float -> spec_float
}.

(** [v.OverflowFloat(x)] *)
Definition OverflowFloat (ext : Extern) (v : Value) (x : spec_float) : M bool :=
  match kind (typ v) with
  | Float32 => ret (overflowFloat32 ext x)
  | Float64 => ret false
  | _ => panic "reflect: call of reflect.Value.OverflowFloat on non-float Value"
  end.

(** [v.SetFloat(x)] *)
Definition SetFloat (ext : Extern) (v : Value) (x : spec_float) : M unit :=
  mustBeAssignable v ;;;
  match kind (typ v) with
  | Float32 => store v (VFloat (float32_of ext x))
  | Float64 => store v (VFloat x)
  | _ => panic "reflect: call of reflect.Value.SetFloat on non-float Value"
  end.

(** [json.Unmarshal] as an effect on the state. *)
Definition Unmarshal (ext : Extern) (data : list byte) (v : rtype * value) : M (option cause) :=
  fun s =>
    let '(h, err) := json_Unmarshal ext data v (heap s) in
    (mkState h (calls s), Ret err).

(* ===================================================================== *)
(** ** errors.go *)
(* ===================================================================== *)

Inductive error : Type :=
| ErrCannotParseEnv (Because : cause) (k : Kind) (Key Value : string)
| ErrCannotSetKind (k : Kind)
| ErrDecodeFailure (Because : cause) (Key Value Type_ : string)
| ErrInvalidConfigType (t : rtype)
| ErrInvalidTagOption (Tag BadOption : string)
| ErrMissingNameTag (Tag : string)
| ErrOverflow (k : Kind) (Key Value : string)
| ErrVarNotFound (Key : string)
| ErrNestedTags (Field Key : string).

(* ===================================================================== *)
(** ** The tag parser *)
(* ===================================================================== *)

Record tagData : Type := mkTagData {
  Tagged : bool;
  Name : string;
  Optional : bool;
  Base64 : bool;
  JSON : bool
}.

(** [tagData{}] *)
Definition tagData0 : tagData := mkTagData false "" false false false.

(** The loop of [parseTag] over [tagTokens[1:]]. *)
Fixpoint parseTag_options (tags : string) (tokens : list string)
    (result : tagData) : tagData * option error :=
  match tokens with
  | [] => (result, None)
  | tok :: rest =>
      if String.eqb tok "base64" then
        parseTag_options tags rest
          (mkTagData (Tagged result) (Name result) (Optional result) true (JSON result))
      else if String.eqb tok "json" then
        parseTag_options tags rest
          (mkTagData (Tagged result) (Name result) (Optional result) (Base64 result) true)
      else if String.eqb tok "optional" then
        parseTag_options tags rest
          (mkTagData (Tagged result) (Name result) true (Base64 result) (JSON result))
      else (tagData0, Some (ErrInvalidTagOption tags tok))
  end.

Definition parseTag (f : StructField) (tag : string) : tagData * option error :=
  match Lookup (Tag f) tag with
  | None => (tagData0, None)
  | Some tags =>
      let tagTokens := strings.Split tags in
      let name := hd "" tagTokens in
      let result := mkTagData true name false false false in
      if (String.length name =? 0)%nat then (result, Some (ErrMissingNameTag tags))
      else parseTag_options tags (tl tagTokens) result
  end.

(* ===================================================================== *)
(** ** The value setters *)
(* ===================================================================== *)

Section libconfig.

Variable ext : Extern.

Definition setValueToInt (v : Value) (k : Kind) (key value : string) : M (option error) :=
  match strconv.ParseInt value with
  | inr err => ret (Some (ErrCannotParseEnv (NumErr err) k key value))
  | inl intVal =>
      overflow <- OverflowInt v intVal ;;
      if overflow then ret (Some (ErrOverflow k key value))
      else SetInt v intVal ;;; ret None
  end.

Definition setValueToUint (v : Value) (k : Kind) (key value : string) : M (option error) :=
  match strconv.ParseUint value with
  | inr err => ret (Some (ErrCannotParseEnv (NumErr err) k key value))
  | inl uintVal =>
      overflow <- OverflowUint v uintVal ;;
      if overflow then ret (Some (ErrOverflow k key value))
      else SetUint v uintVal ;;; ret None
  end.

Definition setValueToFloat (v : Value) (k : Kind) (key value : string) : M (option error) :=
  match strconv_ParseFloat ext value with
  | inr err => ret (Some (ErrCannotParseEnv (NumErr err) k key value))
  | inl floatVal =>
      overflow <- OverflowFloat ext v floatVal ;;
      if overflow then ret (Some (ErrOverflow k key value))
      else SetFloat ext v floatVal ;;; ret None
  end.

Definition setValueToBool (v : Value) (k : Kind) (key value : string) : M (option error) :=
  match strconv.ParseBool value with
  | inr err => ret (Some (ErrCannotParseEnv (NumErr err) k key value))
  | inl boolVal => SetBool v boolVal ;;; ret None
  end.

(** [setValue] parses the bytes into a [reflect.Value].  The switch either
    returns or picks the setter [f]; with no setter picked the kind cannot
    be set. *)
Definition setValue (v : Value) (key : string) (value : list byte) : M (option error) :=
  let k := kind (typ v) in
  match k with
  | Slice =>
      match typ v with
      | TSlice (TUint W8) => SetBytes v value ;;; ret None
      | _ => ret (Some (ErrCannotSetKind k))
      end
  | String => SetString v (string_of_list_byte value) ;;; ret None
  | Int | Int8 | Int16 | Int32 | Int64 =>
      setValueToInt v k key (string_of_list_byte value)
  | Uint | Uint8 | Uint16 | Uint32 | Uint64 =>
      setValueToUint v k key (string_of_list_byte value)
  | Float32 | Float64 =>
      setValueToFloat v k key (string_of_list_byte value)
  | Bool => setValueToBool v k key (string_of_list_byte value)
  | _ => ret (Some (ErrCannotSetKind k))
  end.

(* ===================================================================== *)
(** ** parser.go *)
(* ===================================================================== *)

Record Parser : Type := mkParser {
  Tag : string;
  LookupFn : string -> option string
}.

(** A call of [p.LookupFn(key)]; the call is recorded. *)
Definition call_LookupFn (p : Parser) (key : string) : M (option string) :=
  fun s => (mkState (heap s) (calls s ++ [key]), Ret (LookupFn p key)).

(** Lines 114-131 of [retrieve]: the JSON decoding of [bytes] into the
    field. *)
Definition decodeJSON (v : Value) (tag : tagData) (value : string)
    (bytes : list byte) : M (option error) :=
  iface <- match typ v with
           | TPtr elem =>
               (* If v is a nil pointer, we need to allocate memory *)
               nil <- IsNil v ;;
               (if nil then (fresh <- New elem ;; Set_ v fresh) else ret tt) ;;;
               Interface_ v
           | _ =>
               (* We need a pointer to the struct for unmarshalling *)
               AddrInterface v
           end ;;
  err <- Unmarshal ext bytes iface ;;
  match err with
  | Some e => ret (Some (ErrDecodeFailure e (Name tag) value "json"))
  | None => ret None
  end.

(** [retrieve] gets the value for the tag from the lookup function,
    handling any necessary decoding, such as base64. *)
Definition retrieve (p : Parser) (v : Value) (tag : tagData) : M (option error) :=
  found <- call_LookupFn p (Name tag) ;;
  match found with
  | None =>
      if negb (Optional tag) then ret (Some (ErrVarNotFound (Name tag)))
      else ret None
  | Some value =>
      (* Base64-decode if specified *)
      match (if Base64 tag then base64_DecodeString ext value
             else inl (list_byte_of_string value)) with
      | inr err => ret (Some (ErrDecodeFailure err (Name tag) value "base64"))
      | inl bytes =>
          (* JSON-decode if specified *)
          if JSON tag then decodeJSON v tag value bytes
          else
            v' <- match typ v with
                  | TPtr elem =>
                      (* v is a Pointer; we need to allocate memory *)
                      fresh <- New elem ;; Set_ v fresh ;;; Elem v
                  | _ => ret v
                  end ;;
            setValue v' (Name tag) bytes
      end
  end.

(** Lines 62-69 of [parse]: of a pointer-to-struct take the struct, after
    allocating it when the pointer is nil. *)
Definition enter_struct (field : StructField) (value : Value) : M Value :=
  match Typ field with
  | TPtr elem =>
      nil <- IsNil value ;;
      (if nil then (fresh <- New elem ;; Set_ value fresh) else ret tt) ;;;
      Elem value
  | _ => ret value
  end.

(** Lines 61-82 of [parse], for a field that is a struct or a pointer to
    one: [sub] is [p.parse] on that struct. *)
Definition descend (sub : Value -> M (bool * option error)) (field : StructField)
    (value : Value) (tag : tagData) (tagFound : bool) : M (bool * option error) :=
  value <- enter_struct field value ;;
  r <- sub value ;;
  (* First ensure that a tagged struct contains no tagged members *)
  if Tagged tag && fst r
  then ret (tagFound, Some (ErrNestedTags (reflect.Name field) (Name tag)))
  (* Handle any errors second *)
  else ret (tagFound, snd r).

(** The body of the loop of [parse] at field [i].  [recur] is [p.parse] on
    the structs below the field.  An error in the result is the error
    [parse] returns with; without one the loop goes on. *)
Definition parse_field (p : Parser) (recur : rtype -> Value -> M (bool * option error))
    (config : Value) (i : nat) (field : StructField) (tagFound : bool)
    : M (bool * option error) :=
  let value := Field config i field in
  match parseTag field (Tag p) with
  | (_, Some err) => ret (tagFound, Some err)
  | (tag, None) =>
      r <- (if Tagged tag
            then (err <- retrieve p value tag ;; ret (true, err))
            else ret (tagFound, None)) ;;
      match r with
      | (tagFound, Some err) => ret (tagFound, Some err)
      | (tagFound, None) =>
          let ty := Typ field in
          match ty with
          | TStruct _ => descend (recur ty) field value tag tagFound
          | TPtr elem =>
              match elem with
              | TStruct _ => descend (recur elem) field value tag tagFound
              | _ => ret (tagFound, None)
              end
          | _ => ret (tagFound, None)
          end
      end
  end.

(** The loop of [parse] from field [i] on. *)
Fixpoint parse_fields (p : Parser) (recur : rtype -> Value -> M (bool * option error))
    (config : Value) (fields : list StructField) (i : nat) (tagFound : bool)
    : M (bool * option error) :=
  match fields with
  | [] => ret (tagFound, None)
  | field :: rest =>
      r <- parse_field p recur config i field tagFound ;;
      match r with
      | (tagFound, Some err) => ret (tagFound, Some err)
      | (tagFound, None) => parse_fields p recur config rest (S i) tagFound
      end
  end.

(** [p.parse(config)], [t] being [config.Type()]. *)
Fixpoint parse (p : Parser) (t : rtype) (config : Value) {struct t}
    : M (bool * option error) :=
  match t with
  | TStruct fields => parse_fields p (parse p) config fields 0 false
  | _ => panic "reflect: NumField of non-struct type"
  end.

(** [p.Get(config)]; [config] is an interface value, [None] the nil
    interface. *)
Definition Get (p : Parser) (config : option (rtype * value)) : M (option error) :=
  match config with
  | None => panic "reflect: call of reflect.Value.Type on zero Value"
  | Some (t, x) =>
      match t with
      | TPtr (TStruct fields) =>
          match x with
          | VPtr (Some pl) =>
              r <- parse p (TStruct fields) (mkValue (TStruct fields) pl false false) ;;
              ret (snd r)
          | VPtr None => panic "reflect: call of reflect.Value.Type on zero Value"
          | _ => fault
          end
      | _ => ret (Some (ErrInvalidConfigType t))
      end
  end.

End libconfig.

(* ===================================================================== *)
(** ** Notions used in the statements *)
(* ===================================================================== *)

(** The modifier vocabulary of an annotation. *)
Definition modifier (tok : string) : bool :=
  String.eqb tok "optional" || String.eqb tok "base64" || String.eqb tok "json".

(** Whether the token [lit] occurs among [opts]. *)
Definition declares (lit : string) (opts : list string) : bool :=
  existsb (fun tok => String.eqb tok lit) opts.

(** The tag data of an annotation with name [name] and modifiers [opts]. *)
Definition tagData_of (name : string) (opts : list string) : tagData :=
  mkTagData true name
    (declares "optional" opts) (declares "base64" opts) (declares "json" opts).

(** Whether an int64 (a uint64) is a value of the integer type of width
    [w]. *)
Definition fits_int (w : width) (z : Z) : bool :=
  (- 2 ^ (bits w - 1) <=? z)%Z && (z <? 2 ^ (bits w - 1))%Z.
Definition fits_uint (w : width) (z : Z) : bool := (z <? 2 ^ bits w)%Z.

(** The types [setValue] has a case for: byte slice, string, the signed
    and unsigned integers, the floats and bool. *)
Definition coercible (t : rtype) : bool :=
  match t with
  | TSlice (TUint W8) | TString | TInt _ | TUint _ | TFloat32 | TFloat64 | TBool => true
  | _ => false
  end.

(** The state after a call of [LookupFn] with [name]. *)
Definition called (name : string) (s : state) : state :=
  mkState (heap s) (calls s ++ [name]).

(** Stand-ins for the libraries taken as parameters, used by the closed
    examples.  [json_double] decides the two payloads of the package's own
    tests as encoding/json does: the empty object decodes into a struct and
    leaves it as it is, and [i-am-not-json] (like every payload the
    examples do not use) is refused.  The base64 and float stand-ins refuse
    every text; no example reaches them with a text the libraries accept. *)
Definition json_double (data : list byte) (v : rtype * value) (h : list value)
    : list value * option cause :=
  if String.eqb (string_of_list_byte data) "{}" then
    match v with
    | (TPtr (TStruct _), VPtr (Some _)) => (h, None)
    | _ => (h, Some (LibError "json: cannot unmarshal object"))
    end
  else (h, Some (LibError "invalid character looking for beginning of value")).

Definition doubles : Extern :=
  mkExtern (fun _ => inr (LibError "illegal base64 data"))
           json_double
           (fun _ => inr strconv.ErrSyntax)
           (fun _ => false)
           (fun f => f).

(** [mapToParser] of the package's tests, on an association list. *)
Definition mapToParser (envs : list (string * string)) : Parser :=
  mkParser "env" (fun name => Lookup envs name).

(** A field [Name Typ `env:"annotation"`]. *)
Definition env_field (name : string) (t : rtype) (annotation : string) : StructField :=
  mkField name true t [("env", annotation)] false.

(** The interface value [&config] for a struct at object [l]. *)
Definition pointer_to (fields : list StructField) (l : nat) : option (rtype * value) :=
  Some (TPtr (TStruct fields), VPtr (Some (l, []))).

(** The struct [parse] descends into below a field of type [t]. *)
Definition struct_below (t : rtype) : option rtype :=
  match t with
  | TStruct fields => Some (TStruct fields)
  | TPtr (TStruct fields) => Some (TStruct fields)
  | _ => None
  end.

(** The name a field is annotated with, when its annotation parses. *)
Definition own_name (key : string) (f : StructField) : list string :=
  match parseTag f key with
  | (tag, None) => if Tagged tag then [Name tag] else []
  | (_, Some _) => []
  end.

(** The names the annotated fields of a struct declare, the fields taken in
    the order of the traversal: a field before the fields of the struct
    below it. *)
Fixpoint declared_names (key : string) (t : rtype) : list string :=
  match t with
  | TStruct fields =>
      flat_map
        (fun f =>
           own_name key f ++
           (let ty := Typ f in
            match ty with
            | TStruct _ => declared_names key ty
            | TPtr elem =>
                match elem with
                | TStruct _ => declared_names key elem
                | _ => []
                end
            | _ => []
            end))
        fields
  | _ => []
  end.

(** The names declared below a field. *)
Definition names_below (key : string) (f : StructField) : list string :=
  match struct_below (Typ f) with
  | Some st => declared_names key st
  | None => []
  end.

(** A call that leaves the record of the lookups as it is. *)
Definition keeps_calls {A} (m : M A) : Prop :=
  forall s, calls (fst (m s)) = calls s.

(** The lookups of a traversal follow the declarations: the calls made
    since [before] are the first of the [declared] names, in order, and all
    of them when the traversal ended without an error. *)
Definition follows (declared before : list string)
    (r : state * outcome (bool * option error)) : Prop :=
  exists made : list string,
    calls (fst r) = before ++ made /\
    match snd r with
    | Ret (_, None) => made = declared
    | _ => exists rest : list string, declared = made ++ rest
    end.

(** The names declared by the record an interface value points to. *)
Definition config_names (key : string) (config : option (rtype * value)) : list string :=
  match config with
  | Some (TPtr t, _) => declared_names key t
  | _ => []
  end.

(** *** Records without annotations, and well-typed memory *)

(** No field reached by the traversal of [t] carries an annotation under
    [key]. *)
Fixpoint untagged (key : string) (t : rtype) : bool :=
  match t with
  | TStruct fields =>
      forallb
        (fun f =>
           match Lookup (reflect.Tag f) key with None => true | Some _ => false end &&
           (let ty := Typ f in
            match ty with
            | TStruct _ => untagged key ty
            | TPtr elem =>
                match elem with
                | TStruct _ => untagged key elem
                | _ => true
                end
            | _ => true
            end))
        fields
  | _ => true
  end.

(** Every field of [t] that is a struct or a pointer to a struct is
    exported, and so on below it: [reflect] can set what the traversal
    reaches. *)
Fixpoint structs_exported (t : rtype) : bool :=
  match t with
  | TStruct fields =>
      forallb
        (fun f =>
           let ty := Typ f in
           match ty with
           | TStruct _ => exported f && structs_exported ty
           | TPtr elem =>
               match elem with
               | TStruct _ => exported f && structs_exported elem
               | _ => true
               end
           | _ => true
           end)
        fields
  | _ => true
  end.

(** The type at the end of a path of field indices. *)
Fixpoint type_at (t : rtype) (path : list nat) : option rtype :=
  match path with
  | [] => Some t
  | i :: rest =>
      match t with
      | TStruct fields =>
          match fields !! i with
          | Some f => type_at (Typ f) rest
          | None => None
          end
      | _ => None
      end
  end.

(** The type of a place, given the type of every object. *)
Definition place_type (types : list rtype) (pl : place) : option rtype :=
  match types !! fst pl with
  | Some t => type_at t (snd pl)
  | None => None
  end.

(** [x] has the shape of a value of type [t]: a struct has its fields, a
    pointer is nil or points to a place of the pointed type.  Nothing is
    asked of the other types, whose values the traversal never reads. *)
Inductive has_type (types : list rtype) : value -> rtype -> Prop :=
| has_type_nil (t : rtype) : has_type types (VPtr None) (TPtr t)
| has_type_ptr (pl : place) (t : rtype) :
    place_type types pl = Some t -> has_type types (VPtr (Some pl)) (TPtr t)
| has_type_struct (xs : list value) (fs : list StructField) :
    Forall2 (fun x f => has_type types x (Typ f)) xs fs ->
    has_type types (VStruct xs) (TStruct fs)
| has_type_other (x : value) (t : rtype) :
    (forall e, t <> TPtr e) -> (forall fs, t <> TStruct fs) -> has_type types x t.

(** Memory [h] holds, object by object, values of the types [types]. *)
Definition well_typed (types : list rtype) (h : list value) : Prop :=
  Forall2 (has_type types) h types.

(** [y] is [x], a value of type [t], but for nil pointers to structs
    replaced by pointers to objects from index [n] on. *)
Inductive fills (n : nat) : rtype -> value -> value -> Prop :=
| fills_same (t : rtype) (x : value) : fills n t x x
| fills_nil (fs : list StructField) (pl : place) :
    n <= fst pl -> fills n (TPtr (TStruct fs)) (VPtr None) (VPtr (Some pl))
| fills_struct (fs : list StructField) (xs ys : list value) :
    length xs = length ys ->
    (forall i f x y, fs !! i = Some f -> xs !! i = Some x -> ys !! i = Some y ->
                     fills n (Typ f) x y) ->
    (forall i, fs !! i = None -> xs !! i = ys !! i) ->
    fills n (TStruct fs) (VStruct xs) (VStruct ys).

(** Every object of [h] is still in [h'], changed at most by filling nil
    pointers to structs with pointers to objects from index [n] on;
    [types] gives the type of each object. *)
Definition only_fills (types : list rtype) (n : nat) (h h' : list value) : Prop :=
  length h <= length h' /\
  forall l t x, types !! l = Some t -> h !! l = Some x ->
                exists y, h' !! l = Some y /\ fills n t x y.

(** *** What a traversal without annotations fills in *)

(** The place of field [i] of the struct at [pl]. *)
Definition field_place (pl : place) (i : nat) : place := (fst pl, snd pl ++ [i]).

(** The structs a traversal of the struct of type [t] at [pl] goes through
    in memory [h]: the struct itself and, through each field that is a
    struct or a non-nil pointer to a struct, the structs of that one. *)
Inductive visits (h : list value) : rtype -> place -> rtype -> place -> Prop :=
| visits_here (t : rtype) (pl : place) : visits h t pl t pl
| visits_field (fs fs' : list StructField) (pl : place) (i : nat) (f : StructField)
    (t' : rtype) (pl' : place) :
    fs !! i = Some f -> Typ f = TStruct fs' ->
    visits h (TStruct fs') (field_place pl i) t' pl' ->
    visits h (TStruct fs) pl t' pl'
| visits_pointer (fs fs' : list StructField) (pl : place) (i : nat) (f : StructField)
    (q : place) (t' : rtype) (pl' : place) :
    fs !! i = Some f -> Typ f = TPtr (TStruct fs') ->
    heap_get h (field_place pl i) = Some (VPtr (Some q)) ->
    visits h (TStruct fs') q t' pl' ->
    visits h (TStruct fs) pl t' pl'.

(** [q] is the place of a pointer-to-struct field of one of the structs
    the traversal of the struct of type [t] at [pl] goes through. *)
Definition struct_pointer_field (h : list value) (t : rtype) (pl q : place) : Prop :=
  exists fs v i f fs',
    visits h t pl (TStruct fs) v /\ fs !! i = Some f /\
    Typ f = TPtr (TStruct fs') /\ q = field_place v i.

(** None of these pointer-to-struct fields is nil. *)
Definition filled (h : list value) (t : rtype) (pl : place) : Prop :=
  forall q, struct_pointer_field h t pl q ->
            exists target, heap_get h q = Some (VPtr (Some target)).

(** From [h] to [h'], every place that holds something else than a struct
    keeps what it holds, but for the nil pointer-to-struct fields of the
    structs the traversal of the struct of type [t] at [pl] goes through,
    which point to objects that [h] does not have. *)
Definition kept_but_for (h h' : list value) (t : rtype) (pl : place) : Prop :=
  forall q x,
    heap_get h q = Some x -> (forall xs, x <> VStruct xs) ->
    heap_get h' q = Some x \/
    (x = VPtr None /\ struct_pointer_field h t pl q /\
     exists target,
       length h <= fst target /\ heap_get h' q = Some (VPtr (Some target))).

(** The objects of [h] from index [n] on hold the zero value of their
    type, but for nil pointers to structs replaced by pointers to objects
    from index [n] on. *)
Definition fresh_zero (types : list rtype) (n : nat) (h : list value) : Prop :=
  forall k t, n <= k -> types !! k = Some t ->
              exists y, h !! k = Some y /\ fills n t (Zero t) y.

(** Every non-nil pointer of [h] is the same in [h']. *)
Definition keeps_pointers (h h' : list value) : Prop :=
  forall q target,
    heap_get h q = Some (VPtr (Some target)) ->
    heap_get h' q = Some (VPtr (Some target)).

(** The struct entered through a field of type [t] at place [fp]: the field
    itself, or what the pointer in it points to. *)
Definition entered (h : list value) (t : rtype) (fp w : place) : Prop :=
  match t with
  | TPtr _ => heap_get h fp = Some (VPtr (Some w))
  | _ => w = fp
  end.

(** Below field [i] of the struct at [pl], when it is a struct or a pointer
    to one, the pointer is not nil and no pointer-to-struct field is nil. *)
Definition filled_field (h : list value) (pl : place) (i : nat) (f : StructField) : Prop :=
  forall st, struct_below (Typ f) = Some st ->
             exists w, entered h (Typ f) (field_place pl i) w /\ filled h st w.

(** A traversal step from [s] that ends in [r] without an error, a call
    of the lookup function or a found tag; memory is still well-typed and
    changed by filling nil pointers only, the new objects are zero values
    filled in the same way, the places changed are among [changed], and
    [done] holds of the memory reached and of every memory that keeps its
    pointers. *)
Definition fills_in (types : list rtype) (s : state) (tagFound : bool)
    (changed : place -> Prop) (done : list value -> Prop)
    (r : state * outcome (bool * option error)) : Prop :=
  exists s' types',
    r = (s', Ret (tagFound, None)) /\
    calls s' = calls s /\
    well_typed (types ++ types') (heap s') /\
    (forall n, n <= length (heap s) -> only_fills types n (heap s) (heap s')) /\
    fresh_zero (types ++ types') (length (heap s)) (heap s') /\
    (forall q, heap_get (heap s) q = Some (VPtr None) ->
               heap_get (heap s') q <> Some (VPtr None) -> changed q) /\
    (forall h, keeps_pointers (heap s') h -> done h).

(** *** Errors and successes of a traversal *)

(** Whether a field carries an annotation under [key]. *)
Definition annotated (key : string) (f : StructField) : bool :=
  match Lookup (reflect.Tag f) key with Some _ => true | None => false end.

(** Whether one of the fields of the struct [t] itself, not of a struct
    below it, carries an annotation under [key]. *)
Definition directly_tagged (key : string) (t : rtype) : bool :=
  match t with
  | TStruct fields => existsb (annotated key) fields
  | _ => false
  end.

(** The fields a traversal of [t] can reach: the fields of [t], each
    followed by the fields reached below it. *)
Fixpoint reached_fields (t : rtype) : list StructField :=
  match t with
  | TStruct fields =>
      flat_map
        (fun f =>
           f :: (let ty := Typ f in
                 match ty with
                 | TStruct _ => reached_fields ty
                 | TPtr elem =>
                     match elem with
                     | TStruct _ => reached_fields elem
                     | _ => []
                     end
                 | _ => []
                 end))
        fields
  | _ => []
  end.

(** The fields reached below a field. *)
Definition fields_below (f : StructField) : list StructField :=
  match struct_below (Typ f) with
  | Some st => reached_fields st
  | None => []
  end.

(** The fields a traversal of the record an interface value points to can
    reach. *)
Definition config_fields (config : option (rtype * value)) : list StructField :=
  match config with
  | Some (TPtr t, _) => reached_fields t
  | _ => []
  end.

(** The type scalar coercion is applied to: the field's type, or the
    pointed type for a pointer field. *)
Definition coercion_target (t : rtype) : rtype :=
  match t with TPtr elem => elem | _ => t end.

(** The bytes [retrieve] goes on with for the value [raw] of a name. *)
Definition decoded (ext : Extern) (tag : tagData) (raw : string) : list byte + cause :=
  if Base64 tag then base64_DecodeString ext raw else inl (list_byte_of_string raw).

(** The value scalar coercion stores in a field of type [t] for [bytes],
    when it succeeds. *)
Inductive coerced (ext : Extern) (bytes : list byte) : rtype -> value -> Prop :=
| coerced_bytes :
    coerced ext bytes (TSlice (TUint W8)) (VSlice (List.map value_of_byte bytes))
| coerced_string :
    coerced ext bytes TString (VString (string_of_list_byte bytes))
| coerced_int (w : width) (z : Z) :
    strconv.ParseInt (string_of_list_byte bytes) = inl z ->
    fits_int w z = true ->
    coerced ext bytes (TInt w) (VInt z)
| coerced_uint (w : width) (z : Z) :
    strconv.ParseUint (string_of_list_byte bytes) = inl z ->
    fits_uint w z = true ->
    coerced ext bytes (TUint w) (VUint z)
| coerced_float32 (f : spec_float) :
    strconv_ParseFloat ext (string_of_list_byte bytes) = inl f ->
    overflowFloat32 ext f = false ->
    coerced ext bytes TFloat32 (VFloat (float32_of ext f))
| coerced_float64 (f : spec_float) :
    strconv_ParseFloat ext (string_of_list_byte bytes) = inl f ->
    coerced ext bytes TFloat64 (VFloat f)
| coerced_bool (b : bool) :
    strconv.ParseBool (string_of_list_byte bytes) = inl b ->
    coerced ext bytes TBool (VBool b).

(** The errors of scalar coercion of [text], found under [key], to a
    field of type [t]. *)
Inductive coercion_error (ext : Extern) (t : rtype) (key text : string) : error -> Prop :=
| cannot_set_kind :
    coercible t = false ->
    coercion_error ext t key text (ErrCannotSetKind (kind t))
| cannot_parse_int (w : width) (e : strconv.NumError) :
    t = TInt w -> strconv.ParseInt text = inr e ->
    coercion_error ext t key text (ErrCannotParseEnv (NumErr e) (kind t) key text)
| overflow_int (w : width) (z : Z) :
    t = TInt w -> strconv.ParseInt text = inl z -> fits_int w z = false ->
    coercion_error ext t key text (ErrOverflow (kind t) key text)
| cannot_parse_uint (w : width) (e : strconv.NumError) :
    t = TUint w -> strconv.ParseUint text = inr e ->
    coercion_error ext t key text (ErrCannotParseEnv (NumErr e) (kind t) key text)
| overflow_uint (w : width) (z : Z) :
    t = TUint w -> strconv.ParseUint text = inl z -> fits_uint w z = false ->
    coercion_error ext t key text (ErrOverflow (kind t) key text)
| cannot_parse_float (e : strconv.NumError) :
    t = TFloat32 \/ t = TFloat64 -> strconv_ParseFloat ext text = inr e ->
    coercion_error ext t key text (ErrCannotParseEnv (NumErr e) (kind t) key text)
| overflow_float (f : spec_float) :
    t = TFloat32 -> strconv_ParseFloat ext text = inl f -> overflowFloat32 ext f = true ->
    coercion_error ext t key text (ErrOverflow (kind t) key text)
| cannot_parse_bool (e : strconv.NumError) :
    t = TBool -> strconv.ParseBool text = inr e ->
    coercion_error ext t key text (ErrCannotParseEnv (NumErr e) (kind t) key text).

(** How a call of [setValue] on [v] from [s] may end: with the coerced
    value stored in the field; with an error of the coercion and memory as
    it was; in a panic, memory as it was, when the value coerces but the
    field was reached through an unexported field; or in a fault when [v]
    designates no place of memory. *)
Definition coerces (ext : Extern) (v : Value) (key : string) (bytes : list byte)
    (s : state) (r : state * outcome (option error)) : Prop :=
  match r with
  | (s', Ret None) =>
      flagRO v = false /\ calls s' = calls s /\
      exists x, coerced ext bytes (typ v) x /\
                heap_set (heap s) (ref v) x = Some (heap s')
  | (s', Ret (Some e)) =>
      s' = s /\ coercion_error ext (typ v) key (string_of_list_byte bytes) e
  | (s', Panic _) =>
      s' = s /\ flagRO v = true /\ exists x, coerced ext bytes (typ v) x
  | (s', Fault) =>
      s' = s /\ flagRO v = false /\ heap_get (heap s) (ref v) = None
  end.

(** Where an error of a traversal of [t] that started in state [s0] and
    ended in state [s'] comes from: the annotation of a reached field, the
    resolution of a reached annotated field, or the nested-tag check on
    one. *)
Inductive origin (ext : Extern) (p : Parser) (t : rtype) (s0 s' : state) : error -> Prop :=
| origin_tag (f : StructField) (tag : tagData) (e : error) :
    In f (reached_fields t) ->
    parseTag f (Tag p) = (tag, Some e) ->
    origin ext p t s0 s' e
| origin_retrieve (f : StructField) (tag : tagData) (v : Value) (s : state)
    (pre : list string) (e : error) :
    In f (reached_fields t) ->
    parseTag f (Tag p) = (tag, None) ->
    Tagged tag = true ->
    typ v = Typ f ->
    calls s = calls s0 ++ pre ->
    retrieve ext p v tag s = (s', Ret (Some e)) ->
    origin ext p t s0 s' e
| origin_nested (f : StructField) (tag : tagData) (st : rtype) :
    In f (reached_fields t) ->
    parseTag f (Tag p) = (tag, None) ->
    Tagged tag = true ->
    struct_below (Typ f) = Some st ->
    directly_tagged (Tag p) st = true ->
    origin ext p t s0 s' (ErrNestedTags (reflect.Name f) (Name tag)).

(** What the success of a traversal says of a field it can reach: the
    annotation parses and, for an annotated field, the name is declared
    optional or has a value that decodes and, unless it is handed to the
    JSON decoder, coerces to the field; and no field directly below an
    annotated field is annotated. *)
Definition resolved (ext : Extern) (p : Parser) (f : StructField) : Prop :=
  exists tag,
    parseTag f (Tag p) = (tag, None) /\
    (Tagged tag = true ->
     match LookupFn p (Name tag) with
     | None => Optional tag = true
     | Some raw =>
         exists bytes,
           decoded ext tag raw = inl bytes /\
           if JSON tag
           then exists iface h, snd (json_Unmarshal ext bytes iface h) = None
           else exists x, coerced ext bytes (coercion_target (Typ f)) x
     end /\
     forall st, struct_below (Typ f) = Some st -> directly_tagged (Tag p) st = false).

(** *** Records with annotations, in well-typed memory *)

(** Whether the traversal sets a field or the pointer it holds: the field
    is annotated, or it is a struct or a pointer to a struct. *)
Definition needs_set (key : string) (f : StructField) : bool :=
  annotated key f ||
  match struct_below (Typ f) with Some _ => true | None => false end.

(** Every field the traversal of [t] can reach and has to set is
    exported. *)
Definition settable (key : string) (t : rtype) : bool :=
  forallb (fun f => implb (needs_set key f) (exported f)) (reached_fields t).

(** No annotation of a field the traversal of [t] can reach declares
    [json]. *)
Definition json_free (key : string) (t : rtype) : bool :=
  forallb (fun f => negb (JSON (fst (parseTag f key)))) (reached_fields t).

(** The JSON decoder, given a pointer to a place of well-typed memory,
    leaves memory well-typed (it may allocate). *)
Definition json_typed (ext : Extern) : Prop :=
  forall data t pl types h,
    well_typed types h -> place_type types pl = Some t ->
    exists types',
      well_typed (types ++ types')
        (fst (json_Unmarshal ext data (TPtr t, VPtr (Some pl)) h)).

(** [y] is [x], a value of type [t], but for the fields annotated under
    [key], which may hold anything, and for nil pointers to structs
    replaced by pointers to objects from index [n] on. *)
Inductive touches (key : string) (n : nat) : rtype -> value -> value -> Prop :=
| touches_same (t : rtype) (x : value) : touches key n t x x
| touches_nil (fs : list StructField) (pl : place) :
    n <= fst pl -> touches key n (TPtr (TStruct fs)) (VPtr None) (VPtr (Some pl))
| touches_struct (fs : list StructField) (xs ys : list value) :
    length xs = length ys ->
    (forall i f x y, fs !! i = Some f -> xs !! i = Some x -> ys !! i = Some y ->
                     annotated key f = false -> touches key n (Typ f) x y) ->
    (forall i, fs !! i = None -> xs !! i = ys !! i) ->
    touches key n (TStruct fs) (VStruct xs) (VStruct ys).

(** Every object of [h] is still in [h'], changed at most in annotated
    fields and by filling nil pointers to structs with pointers to objects
    from index [n] on; [types] gives the type of each object. *)
Definition only_touches (key : string) (types : list rtype) (n : nat)
    (h h' : list value) : Prop :=
  length h <= length h' /\
  forall l t x, types !! l = Some t -> h !! l = Some x ->
                exists y, h' !! l = Some y /\ touches key n t x y.

(** A place that is an annotated field of a struct. *)
Definition annotated_place (key : string) (types : list rtype) (pl : place) : Prop :=
  exists path i fs f,
    snd pl = path ++ [i] /\
    place_type types (fst pl, path) = Some (TStruct fs) /\
    fs !! i = Some f /\ annotated key f = true.

(** A traversal step from [s] that returns, with or without an error, in
    memory that is still well-typed and, when the annotations are free of
    [json], changed in annotated fields and nil pointers to structs
    only. *)
Definition safe (key : string) (free : bool) (types : list rtype) (s : state)
    (r : state * outcome (bool * option error)) : Prop :=
  exists s' res types',
    r = (s', Ret res) /\
    well_typed (types ++ types') (heap s') /\
    (free = true ->
     forall n, n <= length (heap s) -> only_touches key types n (heap s) (heap s')).

(** *** Flat records *)

(** A field that is neither a struct nor a pointer and whose annotation
    does not declare [json]. *)
Definition plain (key : string) (f : StructField) : bool :=
  match Typ f with TPtr _ | TStruct _ => false | _ => true end &&
  negb (JSON (fst (parseTag f key))).

(** What the traversal makes of a plain field holding [x]: the field then
    holds [y]. *)
Definition populated (ext : Extern) (p : Parser) (f : StructField) (x y : value) : Prop :=
  match parseTag f (Tag p) with
  | (tag, None) =>
      if Tagged tag then
        match LookupFn p (Name tag) with
        | Some raw =>
            exists bytes, decoded ext tag raw = inl bytes /\
                          coerced ext bytes (Typ f) y
        | None => y = x
        end
      else y = x
  | (_, Some _) => y = x
  end.

(** *** Memories that are equal up to the addresses of their objects *)

(** [similar rho x y]: [y] is [x] but for the addresses its pointers hold:
    where [x] points into object [l1], [y] points, by the same path, into
    the object [l2] that [rho] pairs with [l1]. *)
Inductive similar (rho : list (nat * nat)) : value -> value -> Prop :=
| similar_bool (b : bool) : similar rho (VBool b) (VBool b)
| similar_int (z : Z) : similar rho (VInt z) (VInt z)
| similar_uint (z : Z) : similar rho (VUint z) (VUint z)
| similar_float (f : spec_float) : similar rho (VFloat f) (VFloat f)
| similar_string (s : string) : similar rho (VString s) (VString s)
| similar_nil : similar rho (VPtr None) (VPtr None)
| similar_pointer (l1 l2 : nat) (path : list nat) :
    In (l1, l2) rho ->
    similar rho (VPtr (Some (l1, path))) (VPtr (Some (l2, path)))
| similar_slice (xs ys : list value) :
    Forall2 (similar rho) xs ys -> similar rho (VSlice xs) (VSlice ys)
| similar_struct (xs ys : list value) :
    Forall2 (similar rho) xs ys -> similar rho (VStruct xs) (VStruct ys)
| similar_opaque (tok : Z) : similar rho (VOpaque tok) (VOpaque tok).

(** Memories [h1] and [h2] are equal up to addresses on the objects [rho]
    pairs: [rho] pairs an object of [h1] with one object of [h2] and the
    other way round, and paired objects hold similar values.  The objects
    a record reaches are then paired too, with the same sharing. *)
Definition alike (rho : list (nat * nat)) (h1 h2 : list value) : Prop :=
  (forall l1 l2 l2', In (l1, l2) rho -> In (l1, l2') rho -> l2 = l2') /\
  (forall l1 l1' l2, In (l1, l2) rho -> In (l1', l2) rho -> l1 = l1') /\
  (forall l1 l2, In (l1, l2) rho ->
     exists x1 x2, h1 !! l1 = Some x1 /\ h2 !! l2 = Some x2 /\ similar rho x1 x2).

(** Two [reflect.Value]s of the same type and flags that designate, by the
    same path, places of paired objects. *)
Definition same_Value (rho : list (nat * nat)) (v1 v2 : Value) : Prop :=
  typ v1 = typ v2 /\
  In (fst (ref v1), fst (ref v2)) rho /\ snd (ref v1) = snd (ref v2) /\
  flagStickyRO v1 = flagStickyRO v2 /\ flagEmbedRO v1 = flagEmbedRO v2.

(** Two interface values of the same dynamic type that hold similar
    values. *)
Definition same_interface (rho : list (nat * nat)) (i1 i2 : rtype * value) : Prop :=
  fst i1 = fst i2 /\ similar rho (snd i1) (snd i2).

(** Two results that are equal. *)
Definition same_result {A : Type} (rho : list (nat * nat)) (a1 a2 : A) : Prop :=
  a1 = a2.

(** What two places hold, when both hold similar values or neither holds
    one. *)
Definition option_similar (rho : list (nat * nat)) (a b : option value) : Prop :=
  match a, b with
  | Some x, Some y => similar rho x y
  | None, None => True
  | _, _ => False
  end.

(** The JSON decoder does not depend on addresses: on memories that are
    equal up to addresses, given similar interface values, it returns the
    same error or nil and leaves memories that are equal up to addresses. *)
Definition json_respects (ext : Extern) : Prop :=
  forall data t x1 x2 rho h1 h2,
    alike rho h1 h2 -> similar rho x1 x2 ->
    snd (json_Unmarshal ext data (t, x1) h1) = snd (json_Unmarshal ext data (t, x2) h2) /\
    exists rho',
      incl rho rho' /\
      alike rho' (fst (json_Unmarshal ext data (t, x1) h1))
                 (fst (json_Unmarshal ext data (t, x2) h2)).

(** Two calls go the same way: from memories equal up to addresses they
    end the same way (both return, with results related by [R], both panic
    with the same message, or both fault), after the same lookups, in
    memories that are equal up to addresses, the pairing extended. *)
Definition in_step {A : Type} (R : list (nat * nat) -> A -> A -> Prop)
    (rho : list (nat * nat)) (m1 m2 : M A) : Prop :=
  forall s1 s2,
    alike rho (heap s1) (heap s2) ->
    exists rho' made,
      incl rho rho' /\
      alike rho' (heap (fst (m1 s1))) (heap (fst (m2 s2))) /\
      calls (fst (m1 s1)) = calls s1 ++ made /\
      calls (fst (m2 s2)) = calls s2 ++ made /\
      match snd (m1 s1), snd (m2 s2) with
      | Ret a1, Ret a2 => R rho' a1 a2
      | Panic msg1, Panic msg2 => msg1 = msg2
      | Fault, Fault => True
      | _, _ => False
      end.

(** *** Records of the examples *)

(** [struct { P *struct{} }] *)
Definition config_nil_pointer : list StructField :=
  [mkField "P" true (TPtr (TStruct [])) [] false].

(** [struct { VarA *int `env:"VAR_A"` }], of TestIntPointer *)
Definition config_int_pointer : list StructField :=
  [env_field "VarA" (TPtr (TInt W0)) "VAR_A"].

(** [struct { VarA string `env:"VAR_A"` }], of TestStringRequiredButMissing *)
Definition config_string : list StructField :=
  [env_field "VarA" TString "VAR_A"].

(** [struct { VarA int `env:"VAR_A"` }], of TestInt *)
Definition config_int : list StructField :=
  [env_field "VarA" (TInt W0) "VAR_A"].

(** [struct { A string `env:"X"`; B string `env:"X"` }]; the package
    documentation has such a pair, FromB64JSON and FromB64JSONAlso. *)
Definition config_same_name : list StructField :=
  [env_field "A" TString "X"; env_field "B" TString "X"].

(** [Nested] and [Config] of TestNestedStructWithConfigTags:
    [struct { VarC int `json:"varc" env:"VAR_C"` }] embedded in
    [struct { Nested `env:"NESTED,json"` }]. *)
Definition nested_with_tags : list StructField :=
  [mkField "VarC" true (TInt W0) [("json", "varc"); ("env", "VAR_C")] false].
Definition config_nested_tags : list StructField :=
  [mkField "Nested" true (TStruct nested_with_tags) [("env", "NESTED,json")] true].


(** [struct { VarA string `env:"VAR_A,base64"` }], of TestBase64Invalid *)
Definition config_base64 : list StructField :=
  [env_field "VarA" TString "VAR_A,base64"].

(** [struct { VarA string `env:"VAR_A,not-a-valid-option"` }], of
    TestBadOption *)
Definition config_bad_option : list StructField :=
  [env_field "VarA" TString "VAR_A,not-a-valid-option"].

(** [struct { VarA bool `env:"VAR_A"` }], of TestBoolCannotParseEnv *)
Definition config_bool : list StructField :=
  [env_field "VarA" TBool "VAR_A"].

(** [struct { VarA string `env:"VAR_A"`; VarB string `env:"VAR_B"` }], of
    TestTwoStrings *)
Definition config_two_strings : list StructField :=
  [env_field "VarA" TString "VAR_A"; env_field "VarB" TString "VAR_B"].

(** [struct { VarA string `env:"VAR_A"`; VarB string }]: an annotated
    field and one without annotation, as in TestString and TestNoTags. *)
Definition config_mixed : list StructField :=
  [env_field "VarA" TString "VAR_A"; mkField "VarB" true TString [] false].

(** [struct { varA string `env:"VAR_A"` }]: an annotated field that is not
    exported. *)
Definition field_unexported : StructField :=
  mkField "varA" false TString [("env", "VAR_A")] false.

(** [struct { VarA int `env:"VAR_A,base64"` }], of TestBase64Int *)
Definition config_base64_int : list StructField :=
  [env_field "VarA" (TInt W0) "VAR_A,base64"].

(** A stand-in for [encoding/base64] that decodes the payload of
    TestBase64Int, [MDkxNQ==], to [0915] as the library does, and refuses
    every other text. *)
Definition base64_double (text : string) : list byte + cause :=
  if String.eqb text "MDkxNQ==" then inl (list_byte_of_string "0915")
  else inr (LibError "illegal base64 data").

Definition doubles64 : Extern :=
  mkExtern base64_double
           json_double
           (fun _ => inr strconv.ErrSyntax)
           (fun _ => false)
           (fun f => f).

Unset Implicit Arguments.

(* ===================================================================== *)
(** ** strings.Split *)
(* ===================================================================== *)

Lemma Split_not_nil (s : string) : strings.Split s <> [].
Proof.
  induction s as [|c s IH]; simpl; [discriminate|].
  destruct (Ascii.eqb c ","); [discriminate|].
  destruct (strings.Split s); discriminate.
Qed.

Lemma Split_no_comma (tok : string) :
  strings.has_comma tok = false -> strings.Split tok = [tok].
Proof.
  induction tok as [|c tok IH]; simpl; [reflexivity|].
  intros H. apply orb_false_iff in H as [Hc Ht].
  rewrite Hc, (IH Ht). reflexivity.
Qed.

Lemma Split_app_comma (tok rest : string) :
  strings.has_comma tok = false ->
  strings.Split (tok ++ String.String "," rest)%string = tok :: strings.Split rest.
Proof.
  induction tok as [|c tok IH]; simpl; [reflexivity|].
  intros H. apply orb_false_iff in H as [Hc Ht].
  rewrite Hc, (IH Ht). reflexivity.
Qed.

Lemma Split_Join (tok : string) (toks : list string) :
  Forall (fun t => strings.has_comma t = false) (tok :: toks) ->
  strings.Split (strings.Join (tok :: toks)) = tok :: toks.
Proof.
  revert tok. induction toks as [|t toks IH]; intros tok H.
  - simpl. apply Split_no_comma. now inversion H.
  - inversion H as [|? ? Htok Hrest]; subst.
    change (strings.Join (tok :: t :: toks))
      with (tok ++ String.String "," (strings.Join (t :: toks)))%string.
    rewrite Split_app_comma by assumption.
    now rewrite IH.
Qed.

Lemma modifier_no_comma (tok : string) :
  modifier tok = true -> strings.has_comma tok = false.
Proof.
  unfold modifier. intros H.
  repeat (apply orb_true_iff in H as [H|H]);
    apply String.eqb_eq in H; subst; reflexivity.
Qed.

(* ===================================================================== *)
(** ** The tag parser *)
(* ===================================================================== *)

Lemma declares_cons (lit tok : string) (opts : list string) :
  declares lit (tok :: opts) = String.eqb tok lit || declares lit opts.
Proof. reflexivity. Qed.

Lemma parseTag_options_spec (tags : string) (opts : list string) (r : tagData) :
  parseTag_options tags opts r =
  match find (fun tok => negb (modifier tok)) opts with
  | Some bad => (tagData0, Some (ErrInvalidTagOption tags bad))
  | None =>
      (mkTagData (Tagged r) (Name r)
         (Optional r || declares "optional" opts)
         (Base64 r || declares "base64" opts)
         (JSON r || declares "json" opts), None)
  end.
Proof.
  revert r. induction opts as [|tok opts IH]; intros r.
  - simpl. rewrite !orb_false_r. now destruct r.
  - cbn [parseTag_options find]. rewrite !declares_cons. unfold modifier at 1.
    destruct (String.eqb tok "base64") eqn:E1.
    { rewrite IH, orb_true_r. cbn [negb orb Tagged Name Optional Base64 JSON].
      apply String.eqb_eq in E1; subst tok.
      destruct (find _ opts); [reflexivity|].
      change ("base64" =? "optional") with false.
      change ("base64" =? "json") with false.
      now rewrite ?orb_true_r. }
    destruct (String.eqb tok "json") eqn:E2.
    { rewrite IH, !orb_true_r. cbn [negb orb Tagged Name Optional Base64 JSON].
      apply String.eqb_eq in E2; subst tok.
      destruct (find _ opts); [reflexivity|].
      change ("json" =? "optional") with false.
      now rewrite ?orb_true_r. }
    destruct (String.eqb tok "optional") eqn:E3.
    { rewrite IH. cbn [negb orb Tagged Name Optional Base64 JSON].
      destruct (find _ opts); [reflexivity|].
      now rewrite ?orb_true_r. }
    reflexivity.
Qed.

Lemma find_modifier_none (opts : list string) :
  Forall (fun tok => modifier tok = true) opts ->
  find (fun tok => negb (modifier tok)) opts = None.
Proof.
  induction 1 as [|tok opts H _ IH]; simpl; [reflexivity|].
  now rewrite H.
Qed.

Lemma declares_Permutation (lit : string) (l l' : list string) :
  Permutation l l' -> declares lit l = declares lit l'.
Proof.
  unfold declares. induction 1; simpl; try congruence.
  now rewrite !orb_assoc, (orb_comm (String.eqb y lit)).
Qed.

(** C8: what the tag parser returns, case by case.  Without an annotation
    under the key it returns the zero tag data ([Tagged] false) and no
    error.  With an annotation whose first comma-separated token is empty it
    returns [ErrMissingNameTag].  Otherwise, with a token after the name
    outside optional, base64 and json, it returns [ErrInvalidTagOption] with
    the whole annotation and the (first) offending token.  Otherwise it
    returns the name and exactly the flags of the modifiers that occur. *)
Theorem C8_parseTag_cases (f : StructField) (key : string) :
  match Lookup (reflect.Tag f) key with
  | None => parseTag f key = (tagData0, None) /\ Tagged tagData0 = false
  | Some tags =>
      let name := hd "" (strings.Split tags) in
      let opts := tl (strings.Split tags) in
      strings.Split tags = name :: opts /\
      if String.eqb name "" then
        snd (parseTag f key) = Some (ErrMissingNameTag tags)
      else
        match find (fun tok => negb (modifier tok)) opts with
        | Some bad =>
            parseTag f key = (tagData0, Some (ErrInvalidTagOption tags bad)) /\
            In bad opts /\ modifier bad = false
        | None => parseTag f key = (tagData_of name opts, None)
        end
  end.
Proof.
  unfold parseTag. destruct (Lookup (reflect.Tag f) key) as [tags|]; [|split; reflexivity].
  cbn zeta. split.
  { pose proof (Split_not_nil tags). destruct (strings.Split tags); [congruence|reflexivity]. }
  destruct (hd "" (strings.Split tags)) as [|c name] eqn:Hname.
  - reflexivity.
  - cbn [String.eqb String.length Nat.eqb].
    rewrite parseTag_options_spec. cbn [Tagged Name Optional Base64 JSON orb].
    destruct (find _ _) as [bad|] eqn:Hfind; [|reflexivity].
    apply find_some in Hfind as [Hin Hbad].
    repeat split; [assumption|]. now apply negb_true_iff.
Qed.

(* ===================================================================== *)
(** ** Effects: how calls compose *)
(* ===================================================================== *)

(** Split a conjunction into its parts, and go no further. *)
Ltac splits := repeat match goal with |- _ /\ _ => split end.

Lemma bind_Ret {A B} (m : M A) (k : A -> M B) (s s' : state) (a : A) :
  m s = (s', Ret a) -> bind m k s = k a s'.
Proof. unfold bind. now intros ->. Qed.

Lemma bind_assoc {A B C} (m : M A) (k : A -> M B) (k' : B -> M C) (s : state) :
  bind (bind m k) k' s = bind m (fun a => bind (k a) k') s.
Proof. unfold bind. destruct (m s) as [s' [a| |]]; reflexivity. Qed.

Lemma bind_ext {A B} (m m' : M A) (k k' : A -> M B) (s : state) :
  m s = m' s -> (forall a s', k a s' = k' a s') -> bind m k s = bind m' k' s.
Proof.
  unfold bind. intros -> Hk. destruct (m' s) as [s' [a| |]]; auto.
Qed.

(* ===================================================================== *)
(** ** Memory *)
(* ===================================================================== *)

Lemma set_at_defined (x y new : value) (path : list nat) :
  get_at x path = Some y -> exists x', set_at x path new = Some x'.
Proof.
  revert x. induction path as [|i path IH]; intros x; simpl.
  - eauto.
  - destruct x; try discriminate.
    destruct (fields !! i) as [z|]; [|discriminate].
    intros H. destruct (IH _ H) as [z' ->]. eauto.
Qed.

Lemma heap_set_defined (h : list value) (pl : place) (y new : value) :
  heap_get h pl = Some y -> exists h', heap_set h pl new = Some h'.
Proof.
  unfold heap_get, heap_set. destruct (h !! fst pl) as [x|]; [|discriminate].
  intros H. destruct (set_at_defined _ _ new _ H) as [x' ->]. eauto.
Qed.

Lemma get_set_at (x x' new : value) (path : list nat) :
  set_at x path new = Some x' -> get_at x' path = Some new.
Proof.
  revert x x'. induction path as [|i path IH]; intros x x'; simpl.
  - congruence.
  - destruct x; try discriminate.
    destruct (fields !! i) as [z|] eqn:Hz; [|discriminate].
    destruct (set_at z path new) as [z'|] eqn:Hset; [|discriminate].
    intros [= <-]. rewrite list_lookup_insert_eq by (eapply lookup_lt_Some; eauto).
    eauto.
Qed.

Lemma heap_get_set (h h' : list value) (pl : place) (new : value) :
  heap_set h pl new = Some h' -> heap_get h' pl = Some new.
Proof.
  unfold heap_get, heap_set. destruct (h !! fst pl) as [x|] eqn:Hx; [|discriminate].
  destruct (set_at x (snd pl) new) as [x'|] eqn:Hset; [|discriminate].
  intros [= <-]. rewrite list_lookup_insert_eq by (eapply lookup_lt_Some; eauto).
  eapply get_set_at; eauto.
Qed.

Lemma load_eq (v : Value) (s : state) (x : value) :
  heap_get (heap s) (ref v) = Some x -> load v s = (s, Ret x).
Proof. unfold load. now intros ->. Qed.

Lemma IsNil_nil (v : Value) (s : state) :
  heap_get (heap s) (ref v) = Some (VPtr None) -> IsNil v s = (s, Ret true).
Proof. intros H. unfold IsNil. now rewrite (bind_Ret _ _ _ _ _ (load_eq _ _ _ H)). Qed.

Lemma IsNil_ptr (v : Value) (s : state) (pl : place) :
  heap_get (heap s) (ref v) = Some (VPtr (Some pl)) -> IsNil v s = (s, Ret false).
Proof. intros H. unfold IsNil. now rewrite (bind_Ret _ _ _ _ _ (load_eq _ _ _ H)). Qed.

Lemma Elem_eq (v : Value) (s : state) (t : rtype) (pl : place) :
  typ v = TPtr t -> heap_get (heap s) (ref v) = Some (VPtr (Some pl)) ->
  Elem v s = (s, Ret (mkValue t pl (flagStickyRO v) (flagEmbedRO v))).
Proof.
  intros Ht H. unfold Elem. rewrite (bind_Ret _ _ _ _ _ (load_eq _ _ _ H)).
  now rewrite Ht.
Qed.

Lemma New_eq (t : rtype) (s : state) :
  New t s = (mkState (heap s ++ [Zero t]) (calls s),
             Ret (VPtr (Some (length (heap s), [])))).
Proof. reflexivity. Qed.

Lemma Set_eq (v : Value) (x : value) (s : state) (h' : list value) :
  flagRO v = false -> heap_set (heap s) (ref v) x = Some h' ->
  Set_ v x s = (mkState h' (calls s), Ret tt).
Proof.
  intros Hro Hset. unfold Set_, mustBeAssignable. rewrite Hro.
  unfold bind, ret, store. now rewrite Hset.
Qed.

(* ===================================================================== *)
(** ** strconv and the overflow checks *)
(* ===================================================================== *)

Lemma ParseUint_loop_range (s : string) (n r : Z) :
  strconv.ParseUint_loop s n = inl r -> (0 <= n < 2 ^ 64)%Z -> (0 <= r < 2 ^ 64)%Z.
Proof.
  revert n. induction s as [|c s IH]; intros n; simpl.
  - intros [= <-]. auto.
  - destruct (strconv.digit c) as [d|]; [|discriminate].
    destruct (n >=? _)%Z; [discriminate|].
    destruct (_ || _); [discriminate|].
    intros H _. apply (IH _ H). apply Z.mod_pos_bound. lia.
Qed.

Lemma ParseUint_range (s : string) (r : Z) :
  strconv.ParseUint s = inl r -> (0 <= r < 2 ^ 64)%Z.
Proof.
  unfold strconv.ParseUint. destruct s; [discriminate|].
  intros H. apply (ParseUint_loop_range _ _ _ H). lia.
Qed.

Lemma ParseInt_range (s : string) (z : Z) :
  strconv.ParseInt s = inl z -> (- 2 ^ 63 <= z < 2 ^ 63)%Z.
Proof.
  unfold strconv.ParseInt. destruct s as [|c s]; [discriminate|].
  cbn zeta.
  destruct (strconv.ParseUint _) as [un|] eqn:Hun; [|discriminate].
  apply ParseUint_range in Hun.
  destruct (Ascii.eqb c "-"); cbn [negb andb].
  - destruct (Z.gtb_spec un (2 ^ 63)); [discriminate|]. intros [= <-]. lia.
  - destruct (Z.geb_spec un (2 ^ 63)); [discriminate|]. intros [= <-]. lia.
Qed.

Lemma OverflowInt_spec (v : Value) (w : width) (z : Z) :
  typ v = TInt w -> (- 2 ^ 63 <= z < 2 ^ 63)%Z ->
  OverflowInt v z = ret (negb (fits_int w z)).
Proof.
  intros Ht Hz. unfold OverflowInt. rewrite Ht.
  assert (E : forall b, (0 < b <= 64)%Z ->
            (z =? Z.shiftr (wrap_int64 (Z.shiftl z (64 - b))) (64 - b))%Z =
            ((- 2 ^ (b - 1) <=? z)%Z && (z <? 2 ^ (b - 1))%Z)).
  { intros b Hb. rewrite Z.shiftl_mul_pow2, Z.shiftr_div_pow2 by lia.
    unfold wrap_int64.
    assert (H64 : (2 ^ 64 = 2 ^ b * 2 ^ (64 - b))%Z)
      by (rewrite <- Z.pow_add_r by lia; f_equal; lia).
    assert (H63 : (2 ^ 63 = 2 ^ (b - 1) * 2 ^ (64 - b))%Z)
      by (rewrite <- Z.pow_add_r by lia; f_equal; lia).
    assert (Hb2 : (2 ^ b = 2 * 2 ^ (b - 1))%Z)
      by (rewrite <- Z.pow_succ_r by lia; f_equal; lia).
    set (m := (2 ^ (64 - b))%Z) in *.
    set (hb := (2 ^ (b - 1))%Z) in *.
    assert (Hm : (0 < m)%Z) by (apply Z.pow_pos_nonneg; lia).
    assert (Hhb : (0 < hb)%Z) by (apply Z.pow_pos_nonneg; lia).
    rewrite H64, H63, Hb2.
    replace (z * m + hb * m)%Z with ((z + hb) * m)%Z by ring.
    rewrite Z.mul_mod_distr_r by lia.
    replace ((z + hb) mod (2 * hb) * m - hb * m)%Z
      with (((z + hb) mod (2 * hb) - hb) * m)%Z by ring.
    rewrite Z.div_mul by lia.
    destruct (Z.leb_spec (- hb) z), (Z.ltb_spec z hb); cbn [andb].
    - apply Z.eqb_eq. rewrite Z.mod_small; lia.
    - apply Z.eqb_neq. pose proof (Z.mod_pos_bound (z + hb) (2 * hb)). lia.
    - apply Z.eqb_neq. pose proof (Z.mod_pos_bound (z + hb) (2 * hb)). lia.
    - lia. }
  unfold fits_int. destruct w; cbn [kind kind_of_int kind_bits bits];
    rewrite E by lia; reflexivity.
Qed.

Lemma OverflowUint_spec (v : Value) (w : width) (z : Z) :
  typ v = TUint w -> (0 <= z < 2 ^ 64)%Z ->
  OverflowUint v z = ret (negb (fits_uint w z)).
Proof.
  intros Ht Hz. unfold OverflowUint. rewrite Ht.
  assert (E : forall b, (0 < b <= 64)%Z ->
            (z =? Z.shiftr (Z.shiftl z (64 - b) mod 2 ^ 64) (64 - b))%Z =
            (z <? 2 ^ b)%Z).
  { intros b Hb. rewrite Z.shiftl_mul_pow2, Z.shiftr_div_pow2 by lia.
    assert (H64 : (2 ^ 64 = 2 ^ b * 2 ^ (64 - b))%Z)
      by (rewrite <- Z.pow_add_r by lia; f_equal; lia).
    set (m := (2 ^ (64 - b))%Z) in *.
    set (hb := (2 ^ b)%Z) in *.
    assert (Hm : (0 < m)%Z) by (apply Z.pow_pos_nonneg; lia).
    assert (Hhb : (0 < hb)%Z) by (apply Z.pow_pos_nonneg; lia).
    rewrite H64, Z.mul_mod_distr_r, Z.div_mul by lia.
    destruct (Z.ltb_spec z hb).
    - apply Z.eqb_eq. rewrite Z.mod_small; lia.
    - apply Z.eqb_neq. pose proof (Z.mod_pos_bound z hb). lia. }
  unfold fits_uint. destruct w; cbn [kind kind_of_uint kind_bits bits];
    rewrite E by lia; reflexivity.
Qed.

Lemma trunc_int_fits (w : width) (z : Z) :
  fits_int w z = true -> trunc_int (bits w) z = z.
Proof.
  unfold fits_int, trunc_int. intros H. apply andb_true_iff in H as [H1 H2].
  apply Z.leb_le in H1. apply Z.ltb_lt in H2.
  assert (Hb : (2 ^ bits w = 2 * 2 ^ (bits w - 1))%Z).
  { rewrite <- Z.pow_succ_r by (destruct w; simpl; lia). f_equal. lia. }
  rewrite Hb, Z.mod_small; lia.
Qed.

Lemma trunc_uint_fits (w : width) (z : Z) :
  (0 <= z)%Z -> fits_uint w z = true -> trunc_uint (bits w) z = z.
Proof.
  unfold fits_uint, trunc_uint. intros H0 H. apply Z.ltb_lt in H.
  apply Z.mod_small. lia.
Qed.

(* ===================================================================== *)
(** ** The value setters *)
(* ===================================================================== *)

Lemma store_defined (v : Value) (new x : value) (s : state) :
  heap_get (heap s) (ref v) = Some x ->
  exists h', heap_set (heap s) (ref v) new = Some h' /\
             heap_get h' (ref v) = Some new /\
             store v new s = (mkState h' (calls s), Ret tt).
Proof.
  intros H. destruct (heap_set_defined _ _ _ new H) as [h' Hh'].
  exists h'. split; [assumption|]. split; [eapply heap_get_set; eauto|].
  unfold store. now rewrite Hh'.
Qed.

Lemma setValueToInt_spec (v : Value) (w : width) (k : Kind) (key text : string)
    (s : state) (x : value) :
  typ v = TInt w -> flagRO v = false -> heap_get (heap s) (ref v) = Some x ->
  match strconv.ParseInt text with
  | inr e =>
      setValueToInt v k key text s = (s, Ret (Some (ErrCannotParseEnv (NumErr e) k key text)))
  | inl z =>
      if fits_int w z
      then exists h', heap_set (heap s) (ref v) (VInt z) = Some h' /\
                      heap_get h' (ref v) = Some (VInt z) /\
                      setValueToInt v k key text s = (mkState h' (calls s), Ret None)
      else setValueToInt v k key text s = (s, Ret (Some (ErrOverflow k key text)))
  end.
Proof.
  intros Ht Hro Hx. unfold setValueToInt.
  destruct (strconv.ParseInt text) as [z|e] eqn:Hparse; [|reflexivity].
  rewrite (OverflowInt_spec _ _ _ Ht (ParseInt_range _ _ Hparse)).
  destruct (fits_int w z) eqn:Hfit; [|reflexivity].
  destruct (store_defined v (VInt z) x s Hx) as (h' & Hset & Hget & Hstore).
  exists h'. repeat split; try assumption.
  unfold bind, ret, SetInt, mustBeAssignable. rewrite Hro, Ht. cbn [negb].
  unfold bind, ret.
  replace (kind_bits (kind (TInt w))) with (Some (bits w)) by now destruct w.
  rewrite (trunc_int_fits _ _ Hfit).
  destruct w; cbn [kind kind_of_int]; now rewrite Hstore.
Qed.

Lemma setValueToUint_spec (v : Value) (w : width) (k : Kind) (key text : string)
    (s : state) (x : value) :
  typ v = TUint w -> flagRO v = false -> heap_get (heap s) (ref v) = Some x ->
  match strconv.ParseUint text with
  | inr e =>
      setValueToUint v k key text s = (s, Ret (Some (ErrCannotParseEnv (NumErr e) k key text)))
  | inl z =>
      if fits_uint w z
      then exists h', heap_set (heap s) (ref v) (VUint z) = Some h' /\
                      heap_get h' (ref v) = Some (VUint z) /\
                      setValueToUint v k key text s = (mkState h' (calls s), Ret None)
      else setValueToUint v k key text s = (s, Ret (Some (ErrOverflow k key text)))
  end.
Proof.
  intros Ht Hro Hx. unfold setValueToUint.
  destruct (strconv.ParseUint text) as [z|e] eqn:Hparse; [|reflexivity].
  pose proof (ParseUint_range _ _ Hparse) as Hz.
  rewrite (OverflowUint_spec _ _ _ Ht Hz).
  destruct (fits_uint w z) eqn:Hfit; [|reflexivity].
  destruct (store_defined v (VUint z) x s Hx) as (h' & Hset & Hget & Hstore).
  exists h'. repeat split; try assumption.
  unfold bind, ret, SetUint, mustBeAssignable. rewrite Hro, Ht. cbn [negb].
  unfold bind, ret.
  replace (kind_bits (kind (TUint w))) with (Some (bits w)) by now destruct w.
  rewrite (trunc_uint_fits _ _ (proj1 Hz) Hfit).
  destruct w; cbn [kind kind_of_uint]; now rewrite Hstore.
Qed.

Lemma setValueToFloat_spec (ext : Extern) (v : Value) (k : Kind) (key text : string)
    (s : state) (x : value) :
  typ v = TFloat32 \/ typ v = TFloat64 ->
  flagRO v = false -> heap_get (heap s) (ref v) = Some x ->
  match strconv_ParseFloat ext text with
  | inr e =>
      setValueToFloat ext v k key text s =
      (s, Ret (Some (ErrCannotParseEnv (NumErr e) k key text)))
  | inl f =>
      let overflow :=
        match typ v with TFloat32 => overflowFloat32 ext f | _ => false end in
      let stored :=
        match typ v with TFloat32 => float32_of ext f | _ => f end in
      if overflow
      then setValueToFloat ext v k key text s = (s, Ret (Some (ErrOverflow k key text)))
      else exists h', heap_set (heap s) (ref v) (VFloat stored) = Some h' /\
                      heap_get h' (ref v) = Some (VFloat stored) /\
                      setValueToFloat ext v k key text s = (mkState h' (calls s), Ret None)
  end.
Proof.
  intros Ht Hro Hx. unfold setValueToFloat.
  destruct (strconv_ParseFloat ext text) as [f|e]; [|reflexivity].
  cbn zeta. destruct Ht as [Ht|Ht]; rewrite Ht.
  - unfold bind at 1. unfold OverflowFloat. rewrite Ht. cbn [kind ret].
    destruct (overflowFloat32 ext f); [reflexivity|].
    destruct (store_defined v (VFloat (float32_of ext f)) x s Hx) as (h' & Hset & Hget & Hstore).
    exists h'. repeat split; try assumption.
    unfold bind, ret, SetFloat, mustBeAssignable. rewrite Hro, Ht. cbn [kind].
    unfold bind, ret. now rewrite Hstore.
  - unfold bind at 1. unfold OverflowFloat. rewrite Ht. cbn [kind ret].
    destruct (store_defined v (VFloat f) x s Hx) as (h' & Hset & Hget & Hstore).
    exists h'. repeat split; try assumption.
    unfold bind, ret, SetFloat, mustBeAssignable. rewrite Hro, Ht. cbn [kind].
    unfold bind, ret. now rewrite Hstore.
Qed.

Lemma setValue_int (ext : Extern) (v : Value) (w : width) (key : string) (bytes : list byte) :
  typ v = TInt w ->
  setValue ext v key bytes = setValueToInt v (kind (typ v)) key (string_of_list_byte bytes).
Proof. intros Ht. unfold setValue. rewrite Ht. now destruct w. Qed.

Lemma setValue_uint (ext : Extern) (v : Value) (w : width) (key : string) (bytes : list byte) :
  typ v = TUint w ->
  setValue ext v key bytes = setValueToUint v (kind (typ v)) key (string_of_list_byte bytes).
Proof. intros Ht. unfold setValue. rewrite Ht. now destruct w. Qed.

Lemma setValue_float (ext : Extern) (v : Value) (key : string) (bytes : list byte) :
  typ v = TFloat32 \/ typ v = TFloat64 ->
  setValue ext v key bytes =
  setValueToFloat ext v (kind (typ v)) key (string_of_list_byte bytes).
Proof. intros [Ht|Ht]; unfold setValue; now rewrite Ht. Qed.

(** C5: for a numeric field, the text is parsed at 64 bits first and the
    parsed number is then checked against the width of the field.  Text that
    does not parse gives [ErrCannotParseEnv] (whatever the width); a parsed
    number that does not fit gives [ErrOverflow]; one that fits is stored.
    In both failures memory is unchanged.  The text 500 overflows an int8
    field and is stored as 500 in an int field. *)
Theorem C5_parse_then_overflow (ext : Extern) (v : Value) (key text : string)
    (s : state) (x : value) :
  flagRO v = false ->
  heap_get (heap s) (ref v) = Some x ->
  let run := setValue ext v key (list_byte_of_string text) s in
  let k := kind (typ v) in
  (forall w, typ v = TInt w ->
     match strconv.ParseInt text with
     | inr e => run = (s, Ret (Some (ErrCannotParseEnv (NumErr e) k key text)))
     | inl z =>
         if fits_int w z
         then exists h', heap_get h' (ref v) = Some (VInt z) /\
                         run = (mkState h' (calls s), Ret None)
         else run = (s, Ret (Some (ErrOverflow k key text)))
     end) /\
  (forall w, typ v = TUint w ->
     match strconv.ParseUint text with
     | inr e => run = (s, Ret (Some (ErrCannotParseEnv (NumErr e) k key text)))
     | inl z =>
         if fits_uint w z
         then exists h', heap_get h' (ref v) = Some (VUint z) /\
                         run = (mkState h' (calls s), Ret None)
         else run = (s, Ret (Some (ErrOverflow k key text)))
     end) /\
  (typ v = TFloat32 \/ typ v = TFloat64 ->
     match strconv_ParseFloat ext text with
     | inr e => run = (s, Ret (Some (ErrCannotParseEnv (NumErr e) k key text)))
     | inl f =>
         if match typ v with TFloat32 => overflowFloat32 ext f | _ => false end
         then run = (s, Ret (Some (ErrOverflow k key text)))
         else exists h' f', heap_get h' (ref v) = Some (VFloat f') /\
                            run = (mkState h' (calls s), Ret None)
     end) /\
  (typ v = TInt W8 ->
     setValue ext v key (list_byte_of_string "500") s =
     (s, Ret (Some (ErrOverflow Int8 key "500")))) /\
  (typ v = TInt W0 ->
     exists h', heap_get h' (ref v) = Some (VInt 500) /\
                setValue ext v key (list_byte_of_string "500") s =
                (mkState h' (calls s), Ret None)).
Proof.
  intros Hro Hx run k. subst run k.
  repeat split.
  - intros w Ht. rewrite (setValue_int _ _ _ _ _ Ht), string_of_list_byte_of_string.
    pose proof (setValueToInt_spec v w (kind (typ v)) key text s x Ht Hro Hx) as H.
    destruct (strconv.ParseInt text) as [z|e]; [|assumption].
    destruct (fits_int w z); [|assumption].
    destruct H as (h' & _ & Hget & Hrun). eauto.
  - intros w Ht. rewrite (setValue_uint _ _ _ _ _ Ht), string_of_list_byte_of_string.
    pose proof (setValueToUint_spec v w (kind (typ v)) key text s x Ht Hro Hx) as H.
    destruct (strconv.ParseUint text) as [z|e]; [|assumption].
    destruct (fits_uint w z); [|assumption].
    destruct H as (h' & _ & Hget & Hrun). eauto.
  - intros Ht. rewrite (setValue_float _ _ _ _ Ht), string_of_list_byte_of_string.
    pose proof (setValueToFloat_spec ext v (kind (typ v)) key text s x Ht Hro Hx) as H.
    destruct (strconv_ParseFloat ext text) as [f|e]; [|assumption].
    cbn zeta in H. destruct (match typ v with TFloat32 => _ | _ => false end); [assumption|].
    destruct H as (h' & _ & Hget & Hrun). eauto.
  - intros Ht. rewrite (setValue_int _ _ _ _ _ Ht), string_of_list_byte_of_string.
    pose proof (setValueToInt_spec v W8 (kind (typ v)) key "500" s x Ht Hro Hx) as H.
    rewrite Ht in *. exact H.
  - intros Ht. rewrite (setValue_int _ _ _ _ _ Ht), string_of_list_byte_of_string.
    pose proof (setValueToInt_spec v W0 (kind (typ v)) key "500" s x Ht Hro Hx) as H.
    cbn in H. destruct H as (h' & _ & Hget & Hrun). eauto.
Qed.

Lemma setValue_not_coercible (ext : Extern) (v : Value) (key : string) (bytes : list byte) :
  coercible (typ v) = false ->
  setValue ext v key bytes = ret (Some (ErrCannotSetKind (kind (typ v)))).
Proof.
  unfold setValue, coercible.
  destruct (typ v) as [|w|w| | | |e|e|fs|k]; intros H; try discriminate H.
  - reflexivity.
  - cbn [kind]. destruct e as [|w|w| | | |e'|e'|fs|k]; try reflexivity.
    destruct w; try reflexivity. discriminate H.
  - reflexivity.
  - now destruct k.
Qed.

(* ===================================================================== *)
(** ** The field resolver *)
(* ===================================================================== *)

Lemma retrieve_not_found (ext : Extern) (p : Parser) (v : Value) (tag : tagData) (s : state) :
  LookupFn p (Name tag) = None ->
  retrieve ext p v tag s =
  (called (Name tag) s,
   Ret (if Optional tag then None else Some (ErrVarNotFound (Name tag)))).
Proof.
  intros H. unfold retrieve, bind, call_LookupFn. rewrite H.
  now destruct (Optional tag).
Qed.

Lemma retrieve_found (ext : Extern) (p : Parser) (v : Value) (tag : tagData)
    (raw : string) (s : state) :
  LookupFn p (Name tag) = Some raw ->
  retrieve ext p v tag s =
  match (if Base64 tag then base64_DecodeString ext raw
         else inl (list_byte_of_string raw)) with
  | inr err => (called (Name tag) s, Ret (Some (ErrDecodeFailure err (Name tag) raw "base64")))
  | inl bytes =>
      if JSON tag then decodeJSON ext v tag raw bytes (called (Name tag) s)
      else bind (match typ v with
                 | TPtr elem => fresh <- New elem ;; Set_ v fresh ;;; Elem v
                 | _ => ret v
                 end)
                (fun v' => setValue ext v' (Name tag) bytes) (called (Name tag) s)
  end.
Proof.
  intros H. unfold retrieve. unfold bind at 1. unfold call_LookupFn. rewrite H.
  fold (called (Name tag) s).
  destruct (if Base64 tag then _ else _); [|reflexivity].
  now destruct (JSON tag).
Qed.

(** C4: the order of the modifiers after the name does not matter.  Two
    annotations with the same name and the same modifiers in another order
    give the same tag data, hence the same resolution; and with both base64
    and json declared the value found is base64-decoded first and the JSON
    decoder gets the decoded bytes (a base64 failure ends the resolution
    before any JSON decoding). *)
Theorem C4_modifier_order (ext : Extern) (p : Parser) (name : string)
    (opts opts' : list string) (f f' : StructField) :
  name <> "" ->
  strings.has_comma name = false ->
  Forall (fun tok => modifier tok = true) opts ->
  Permutation opts opts' ->
  Lookup (reflect.Tag f) (Tag p) = Some (strings.Join (name :: opts)) ->
  Lookup (reflect.Tag f') (Tag p) = Some (strings.Join (name :: opts')) ->
  parseTag f (Tag p) = (tagData_of name opts, None) /\
  parseTag f' (Tag p) = parseTag f (Tag p) /\
  (forall v s,
     retrieve ext p v (fst (parseTag f' (Tag p))) s =
     retrieve ext p v (fst (parseTag f (Tag p))) s) /\
  (declares "base64" opts = true -> declares "json" opts = true ->
   forall v raw s, LookupFn p name = Some raw ->
     retrieve ext p v (tagData_of name opts) s =
     match base64_DecodeString ext raw with
     | inr err => (called name s, Ret (Some (ErrDecodeFailure err name raw "base64")))
     | inl bytes => decodeJSON ext v (tagData_of name opts) raw bytes (called name s)
     end) /\
  (declares "base64" opts = true -> declares "json" opts = true ->
   forall v raw bytes s,
     LookupFn p name = Some raw -> base64_DecodeString ext raw = inl bytes ->
     flagRO v = false -> (forall elem, typ v <> TPtr elem) ->
     heap (fst (retrieve ext p v (tagData_of name opts) s)) =
     fst (json_Unmarshal ext bytes (TPtr (typ v), VPtr (Some (ref v))) (heap s))).
Proof.
  intros Hname Hcomma Hopts Hperm Hf Hf'.
  assert (Hparse : forall g os, Forall (fun tok => modifier tok = true) os ->
            Lookup (reflect.Tag g) (Tag p) = Some (strings.Join (name :: os)) ->
            parseTag g (Tag p) = (tagData_of name os, None)).
  { intros g os Hos Hg. unfold parseTag. rewrite Hg. cbn zeta.
    rewrite Split_Join.
    2:{ constructor; [assumption|].
        eapply List.Forall_impl; [|exact Hos]. intros tok. apply modifier_no_comma. }
    cbn [hd tl]. destruct name as [|c name']; [congruence|].
    cbn [String.length Nat.eqb].
    rewrite parseTag_options_spec, (find_modifier_none _ Hos). reflexivity. }
  assert (Hopts' : Forall (fun tok => modifier tok = true) opts').
  { exact (Permutation_Forall Hperm Hopts). }
  assert (Htag : tagData_of name opts' = tagData_of name opts).
  { unfold tagData_of. now rewrite !(declares_Permutation _ _ _ Hperm). }
  pose proof (Hparse f opts Hopts Hf) as E. pose proof (Hparse f' opts' Hopts' Hf') as E'.
  rewrite Htag in E'.
  split; [exact E|]. split; [congruence|]. split; [intros; now rewrite E, E'|].
  assert (Hret : declares "base64" opts = true -> declares "json" opts = true ->
     forall v raw s, LookupFn p name = Some raw ->
     retrieve ext p v (tagData_of name opts) s =
     match base64_DecodeString ext raw with
     | inr err => (called name s, Ret (Some (ErrDecodeFailure err name raw "base64")))
     | inl bytes => decodeJSON ext v (tagData_of name opts) raw bytes (called name s)
     end).
  { intros Hb Hj v raw s Hraw.
    rewrite (retrieve_found ext p v (tagData_of name opts) raw s Hraw).
    cbn [tagData_of Base64 JSON Name]. rewrite Hb, Hj. reflexivity. }
  split; [exact Hret|].
  intros Hb Hj v raw bytes s Hraw Hdec Hro Hnp.
  rewrite (Hret Hb Hj v raw s Hraw), Hdec.
  unfold decodeJSON.
  assert (Ha : match typ v with
               | TPtr elem =>
                   nil <- IsNil v ;;
                   (if nil then (fresh <- New elem ;; Set_ v fresh) else ret tt) ;;;
                   Interface_ v
               | _ => AddrInterface v
               end = AddrInterface v).
  { destruct (typ v) as [| | | | | |e| | |]; try reflexivity. now destruct (Hnp e). }
  rewrite Ha. unfold bind, AddrInterface, Unmarshal, ret. rewrite Hro.
  cbn [called heap].
  destruct (json_Unmarshal ext bytes _ (heap s)) as [h' [e|]]; reflexivity.
Qed.

(* ===================================================================== *)
(** ** Induction on types, and the equations of the traversal *)
(* ===================================================================== *)

Lemma rtype_ind' (P : rtype -> Prop) :
  P TBool -> (forall w, P (TInt w)) -> (forall w, P (TUint w)) ->
  P TFloat32 -> P TFloat64 -> P TString ->
  (forall e, P e -> P (TPtr e)) -> (forall e, P e -> P (TSlice e)) ->
  (forall fs, Forall (fun f => P (Typ f)) fs -> P (TStruct fs)) ->
  (forall k, P (TOpaque k)) ->
  forall t, P t.
Proof.
  intros Hb Hi Hu Hf32 Hf64 Hs Hp Hsl Hst Ho.
  fix IH 1.
  intros [|w|w| | | |e|e|fs|k];
    [exact Hb|apply Hi|apply Hu|exact Hf32|exact Hf64|exact Hs
    |apply Hp, IH|apply Hsl, IH| |apply Ho].
  apply Hst. induction fs as [|f fs IHfs]; constructor; [|exact IHfs].
  destruct f as [n ex t tag a]. apply IH.
Qed.

(** Induction along the traversal: a property of struct types holds when
    it passes from the structs below the fields to the struct. *)
Lemma rtype_struct_ind (Q : rtype -> Prop) :
  (forall t, (forall fs, t <> TStruct fs) -> Q t) ->
  (forall fs,
     Forall (fun f => forall st, struct_below (Typ f) = Some st -> Q st) fs ->
     Q (TStruct fs)) ->
  forall t, Q t.
Proof.
  intros Hother Hstruct t.
  enough (H : Q t /\ (forall e, t = TPtr e -> Q e)) by exact (proj1 H).
  induction t as [|w|w| | | |e IHe|e _|fs IH|k] using rtype_ind';
    try (split; [apply Hother; discriminate|discriminate]).
  - split; [apply Hother; discriminate|]. intros e' [= <-]. exact (proj1 IHe).
  - split; [|discriminate]. apply Hstruct.
    eapply List.Forall_impl; [|exact IH]. cbn beta.
    intros f [Hf Hptr] st Hst.
    destruct (Typ f) as [| | | | | |e| |fs'|]; try discriminate.
    + destruct e; try discriminate. injection Hst as <-. now apply Hptr.
    + now injection Hst as <-.
Qed.

Lemma struct_below_struct (t st : rtype) :
  struct_below t = Some st -> exists fs, st = TStruct fs.
Proof.
  destruct t as [| | | | | |e| |fs|]; try discriminate.
  - destruct e; try discriminate. intros [= <-]. eauto.
  - intros [= <-]. eauto.
Qed.

Lemma parse_struct (ext : Extern) (p : Parser) (fs : list StructField) (config : Value) :
  parse ext p (TStruct fs) config = parse_fields ext p (parse ext p) config fs 0 false.
Proof. reflexivity. Qed.

Lemma parse_field_eq (ext : Extern) (p : Parser)
    (recur : rtype -> Value -> M (bool * option error))
    (config : Value) (i : nat) (field : StructField) (tagFound : bool) :
  parse_field ext p recur config i field tagFound =
  match parseTag field (Tag p) with
  | (_, Some err) => ret (tagFound, Some err)
  | (tag, None) =>
      r <- (if Tagged tag
            then (err <- retrieve ext p (Field config i field) tag ;; ret (true, err))
            else ret (tagFound, None)) ;;
      match r with
      | (tagFound, Some err) => ret (tagFound, Some err)
      | (tagFound, None) =>
          match struct_below (Typ field) with
          | Some st => descend (recur st) field (Field config i field) tag tagFound
          | None => ret (tagFound, None)
          end
      end
  end.
Proof.
  unfold parse_field. cbn zeta.
  destruct (Typ field) as [| | | | | |e| |fs|]; try reflexivity.
  destruct e; reflexivity.
Qed.

Lemma declared_names_cons (key : string) (f : StructField) (fs : list StructField) :
  declared_names key (TStruct (f :: fs)) =
  own_name key f ++ names_below key f ++ declared_names key (TStruct fs).
Proof.
  cbn [declared_names flat_map]. rewrite <- app_assoc. f_equal. f_equal.
  unfold names_below. cbn zeta.
  destruct (Typ f) as [| | | | | |e| |fs'|]; try reflexivity.
  destruct e; reflexivity.
Qed.

Lemma Get_parse (ext : Extern) (p : Parser) (fs : list StructField) (pl : place)
    (s s' : state) (tf : bool) (err : option error) :
  parse ext p (TStruct fs) (mkValue (TStruct fs) pl false false) s = (s', Ret (tf, err)) ->
  Get ext p (Some (TPtr (TStruct fs), VPtr (Some pl))) s = (s', Ret err).
Proof. intros H. unfold Get. now rewrite (bind_Ret _ _ _ _ _ H). Qed.


(* ===================================================================== *)
(** ** The calls of the lookup function *)
(* ===================================================================== *)

Lemma keeps_ret {A} (a : A) : keeps_calls (ret a).
Proof. intros s. reflexivity. Qed.

Lemma keeps_panic {A} (msg : string) : keeps_calls (@panic A msg).
Proof. intros s. reflexivity. Qed.

Lemma keeps_fault {A} : keeps_calls (@fault A).
Proof. intros s. reflexivity. Qed.

Lemma keeps_bind {A B} (m : M A) (k : A -> M B) :
  keeps_calls m -> (forall a, keeps_calls (k a)) -> keeps_calls (bind m k).
Proof.
  intros Hm Hk s. unfold bind. specialize (Hm s).
  destruct (m s) as [s1 [a| |]]; cbn [fst] in *; [rewrite Hk|..]; congruence.
Qed.

Lemma keeps_load (v : Value) : keeps_calls (load v).
Proof. intros s. unfold load. now destruct (heap_get _ _). Qed.

Lemma keeps_store (v : Value) (x : value) : keeps_calls (store v x).
Proof. intros s. unfold store. now destruct (heap_set _ _ _). Qed.

Lemma keeps_New (t : rtype) : keeps_calls (New t).
Proof. intros s. reflexivity. Qed.

Lemma keeps_Unmarshal (ext : Extern) (data : list byte) (v : rtype * value) :
  keeps_calls (Unmarshal ext data v).
Proof. intros s. unfold Unmarshal. now destruct (json_Unmarshal _ _ _ _). Qed.

Create HintDb keeps.
#[local] Hint Resolve keeps_load keeps_store keeps_New keeps_Unmarshal : keeps.

(** The calls of a composed effect are kept when its parts keep them. *)
Ltac keeps :=
  repeat first
    [ apply keeps_ret | apply keeps_panic | apply keeps_fault
    | solve [auto with keeps]
    | apply keeps_bind; [|intros ?]
    | match goal with
      | |- keeps_calls (match ?x with _ => _ end) => destruct x
      end ].

Lemma keeps_mustBeAssignable (v : Value) : keeps_calls (mustBeAssignable v).
Proof. unfold mustBeAssignable. keeps. Qed.
#[local] Hint Resolve keeps_mustBeAssignable : keeps.

Lemma keeps_IsNil (v : Value) : keeps_calls (IsNil v).
Proof. unfold IsNil. keeps. Qed.

Lemma keeps_Elem (v : Value) : keeps_calls (Elem v).
Proof. unfold Elem. keeps. Qed.

Lemma keeps_Set (v : Value) (x : value) : keeps_calls (Set_ v x).
Proof. unfold Set_. keeps. Qed.

Lemma keeps_Interface (v : Value) : keeps_calls (Interface_ v).
Proof. unfold Interface_. keeps. Qed.

Lemma keeps_AddrInterface (v : Value) : keeps_calls (AddrInterface v).
Proof. unfold AddrInterface. keeps. Qed.
#[local] Hint Resolve keeps_IsNil keeps_Elem keeps_Set keeps_Interface
  keeps_AddrInterface : keeps.

Lemma keeps_setValue (ext : Extern) (v : Value) (key : string) (bytes : list byte) :
  keeps_calls (setValue ext v key bytes).
Proof.
  unfold setValue, setValueToInt, setValueToUint, setValueToFloat, setValueToBool,
    OverflowInt, OverflowUint, OverflowFloat, SetInt, SetUint, SetFloat, SetBool,
    SetString, SetBytes.
  keeps.
Qed.

Lemma keeps_decodeJSON (ext : Extern) (v : Value) (tag : tagData) (value : string)
    (bytes : list byte) :
  keeps_calls (decodeJSON ext v tag value bytes).
Proof. unfold decodeJSON. keeps. Qed.

Lemma keeps_enter_struct (field : StructField) (value : Value) :
  keeps_calls (enter_struct field value).
Proof. unfold enter_struct. keeps. Qed.
#[local] Hint Resolve keeps_setValue keeps_decodeJSON keeps_enter_struct : keeps.

(** Resolving a field calls the lookup function once, with the name of the
    tag, however the resolution ends. *)
Lemma retrieve_calls (ext : Extern) (p : Parser) (v : Value) (tag : tagData) (s : state) :
  calls (fst (retrieve ext p v tag s)) = calls s ++ [Name tag].
Proof.
  unfold retrieve. unfold bind at 1. unfold call_LookupFn.
  match goal with |- calls (fst (?k ?s1)) = _ => assert (H : keeps_calls k) end.
  { keeps. }
  now rewrite H.
Qed.

Lemma follows_stop (declared before : list string) (s : state)
    (o : outcome (bool * option error)) :
  calls s = before ->
  match o with Ret (_, None) => declared = [] | _ => True end ->
  follows declared before (s, o).
Proof.
  intros Hc Ho. exists []. cbn [fst snd]. rewrite app_nil_r. split; [assumption|].
  destruct o as [[tf [e|]]| |]; eauto.
Qed.

(** Lines 61-82 of [parse] make the calls of the traversal below the
    field. *)
Lemma descend_calls (sub : Value -> M (bool * option error)) (declared : list string)
    (field : StructField) (value : Value) (tag : tagData) (tagFound : bool) (s : state) :
  (forall v' s', follows declared (calls s') (sub v' s')) ->
  follows declared (calls s) (descend sub field value tag tagFound s).
Proof.
  intros Hsub. unfold descend. unfold bind at 1.
  pose proof (keeps_enter_struct field value s) as Hk.
  destruct (enter_struct field value s) as [s1 [v'| |]]; cbn [fst] in Hk;
    try (apply follows_stop; [assumption|exact I]).
  unfold bind. specialize (Hsub v' s1). rewrite Hk in Hsub.
  destruct (sub v' s1) as [s2 [[found err]| |]];
    destruct Hsub as (made & Hcalls & Hmade); cbn [fst snd] in *;
    try (exists made; split; assumption).
  destruct (Tagged tag && found).
  - exists made. split; [assumption|]. cbn [snd].
    destruct err; [assumption|]. exists []. now rewrite app_nil_r.
  - exists made. split; assumption.
Qed.

Lemma parse_field_calls (ext : Extern) (p : Parser)
    (recur : rtype -> Value -> M (bool * option error))
    (config : Value) (i : nat) (f : StructField) (tagFound : bool) (s : state) :
  (forall st, struct_below (Typ f) = Some st ->
     forall v' s', follows (declared_names (Tag p) st) (calls s') (recur st v' s')) ->
  follows (own_name (Tag p) f ++ names_below (Tag p) f) (calls s)
    (parse_field ext p recur config i f tagFound s).
Proof.
  intros Hrec. rewrite parse_field_eq. unfold own_name, names_below.
  destruct (parseTag f (Tag p)) as [tag [err|]].
  { apply follows_stop; [reflexivity|exact I]. }
  assert (Hbelow : forall tf s1 (pre : list string),
    calls s1 = calls s ++ pre ->
    follows (pre ++ match struct_below (Typ f) with
                    | Some st => declared_names (Tag p) st
                    | None => []
                    end) (calls s)
      (match struct_below (Typ f) with
       | Some st => descend (recur st) f (Field config i f) tag tf
       | None => ret (tf, None)
       end s1)).
  { intros tf s1 pre Hpre. destruct (struct_below (Typ f)) as [st|].
    - destruct (descend_calls (recur st) (declared_names (Tag p) st) f
                  (Field config i f) tag tf s1 (Hrec st eq_refl))
        as (made & Hcalls & Hmade).
      exists (pre ++ made). rewrite Hcalls, Hpre, app_assoc. split; [reflexivity|].
      destruct (snd _) as [[tf' [e|]]| |].
      + destruct Hmade as [rest ->]. exists rest. now rewrite app_assoc.
      + now subst.
      + destruct Hmade as [rest ->]. exists rest. now rewrite app_assoc.
      + destruct Hmade as [rest ->]. exists rest. now rewrite app_assoc.
    - exists pre. cbn [ret fst snd]. split; [assumption|]. now rewrite app_nil_r. }
  destruct (Tagged tag).
  - unfold bind at 1. unfold bind at 1.
    pose proof (retrieve_calls ext p (Field config i f) tag s) as Hr.
    destruct (retrieve ext p (Field config i f) tag s) as [s1 [[e|]| |]];
      cbn [fst ret] in *.
    + exists [Name tag]. split; [assumption|]. cbn [snd]. eexists; reflexivity.
    + apply Hbelow. assumption.
    + exists [Name tag]. split; [assumption|]. cbn [snd]. eexists; reflexivity.
    + exists [Name tag]. split; [assumption|]. cbn [snd]. eexists; reflexivity.
  - unfold bind at 1. cbn [ret]. apply (Hbelow tagFound s []). now rewrite app_nil_r.
Qed.

Lemma parse_fields_calls (ext : Extern) (p : Parser)
    (recur : rtype -> Value -> M (bool * option error)) (config : Value)
    (fs : list StructField) :
  Forall (fun f => forall st, struct_below (Typ f) = Some st ->
            forall v' s', follows (declared_names (Tag p) st) (calls s') (recur st v' s')) fs ->
  forall i tagFound s,
    follows (declared_names (Tag p) (TStruct fs)) (calls s)
      (parse_fields ext p recur config fs i tagFound s).
Proof.
  induction 1 as [|f fs Hf _ IH]; intros i tf s.
  - apply follows_stop; reflexivity.
  - rewrite declared_names_cons, app_assoc. cbn [parse_fields]. unfold bind.
    destruct (parse_field_calls ext p recur config i f tf s Hf) as (made & Hcalls & Hmade).
    set (rest_names := declared_names (Tag p) (TStruct fs)) in *.
    assert (Hstop : (exists rest, own_name (Tag p) f ++ names_below (Tag p) f = made ++ rest) ->
              exists rest, (own_name (Tag p) f ++ names_below (Tag p) f) ++ rest_names
                           = made ++ rest).
    { intros [rest ->]. exists (rest ++ rest_names). now rewrite app_assoc. }
    destruct (parse_field ext p recur config i f tf s) as [s1 [[tf1 [e|]]| |]];
      cbn [fst snd] in *;
      try (exists made; split; [assumption|]; now apply Hstop).
    destruct (IH (S i) tf1 s1) as (made' & Hcalls' & Hmade').
    exists (made ++ made'). rewrite Hcalls', Hcalls, app_assoc. split; [reflexivity|].
    subst made.
    destruct (snd _) as [[tf' [e|]]| |]; try (now subst);
      destruct Hmade' as [rest ->]; exists rest; now rewrite app_assoc.
Qed.

Lemma parse_calls (ext : Extern) (p : Parser) (t : rtype) :
  forall config s,
    follows (declared_names (Tag p) t) (calls s) (parse ext p t config s).
Proof.
  induction t as [t Ht|fs IH] using rtype_struct_ind; intros config s.
  - destruct t; try (apply follows_stop; [reflexivity|exact I]).
    now destruct (Ht fields).
  - rewrite parse_struct. now apply parse_fields_calls.
Qed.

Lemma Get_calls (ext : Extern) (p : Parser) (config : option (rtype * value)) (s : state) :
  exists made rest : list string,
    calls (fst (Get ext p config s)) = calls s ++ made /\
    config_names (Tag p) config = made ++ rest /\
    (snd (Get ext p config s) = Ret None -> rest = []).
Proof.
  assert (Hnone : forall (o : outcome (option error)) names,
            o <> Ret None ->
            exists made rest : list string,
              calls (fst (s, o)) = calls s ++ made /\ names = made ++ rest /\
              (snd (s, o) = Ret None -> rest = [])).
  { intros o names Ho. exists [], names. cbn [fst snd]. rewrite app_nil_r.
    splits; try reflexivity. intros H. now destruct Ho. }
  unfold Get, config_names. destruct config as [[t x]|]; [|now apply Hnone].
  destruct t as [| | | | | |e| | |]; try (now apply Hnone).
  destruct e as [| | | | | | | |fs|]; try (now apply Hnone).
  destruct x as [| | | | |[pl|]| | |]; try (now apply Hnone).
  unfold bind.
  destruct (parse_calls ext p (TStruct fs) (mkValue (TStruct fs) pl false false) s)
    as (made & Hcalls & Hmade).
  destruct (parse ext p (TStruct fs) _ s) as [s1 [[tf [e|]]| |]]; cbn [fst snd ret] in *;
    exists made.
  - destruct Hmade as [rest Hrest]. exists rest. splits; try assumption. discriminate.
  - exists []. rewrite app_nil_r. splits; try assumption; try reflexivity.
    now symmetry.
  - destruct Hmade as [rest Hrest]. exists rest. splits; try assumption. discriminate.
  - destruct Hmade as [rest Hrest]. exists rest. splits; try assumption. discriminate.
Qed.

(** C6, as the code has it: the lookup function is called once for each
    annotated field the traversal reaches, with the name the field
    declares, in the order of the fields.  So the names looked up during a
    run are the first of the declared names, and all of them when the run
    succeeds: a name is looked up at most as often as fields declare it,
    and no name is looked up twice when the declared names are pairwise
    distinct. *)
Theorem C6_one_lookup_per_annotated_field (ext : Extern) (p : Parser)
    (config : option (rtype * value)) (s : state) :
  exists made rest : list string,
    calls (fst (Get ext p config s)) = calls s ++ made /\
    config_names (Tag p) config = made ++ rest /\
    (snd (Get ext p config s) = Ret None -> rest = []) /\
    (forall name,
       count_occ string_dec made name <=
       count_occ string_dec (config_names (Tag p) config) name) /\
    (List.NoDup (config_names (Tag p) config) -> List.NoDup made).
Proof.
  destruct (Get_calls ext p config s) as (made & rest & Hcalls & Hnames & Hall).
  exists made, rest. splits; try assumption.
  - intros name. rewrite Hnames, count_occ_app. lia.
  - rewrite Hnames. intros H. now apply NoDup_app_remove_r in H.
Qed.

(* ===================================================================== *)
(** ** Two lookup functions *)
(* ===================================================================== *)

Lemma retrieve_agree (ext : Extern) (p1 p2 : Parser) (v : Value) (tag : tagData) (s : state) :
  LookupFn p1 (Name tag) = LookupFn p2 (Name tag) ->
  retrieve ext p1 v tag s = retrieve ext p2 v tag s.
Proof.
  intros H. unfold retrieve. unfold bind at 1 3. unfold call_LookupFn. now rewrite H.
Qed.

Lemma parse_field_agree (ext : Extern) (p1 p2 : Parser)
    (recur1 recur2 : rtype -> Value -> M (bool * option error))
    (config : Value) (i : nat) (f : StructField) (tagFound : bool) (s : state) :
  Tag p1 = Tag p2 ->
  (forall name, In name (own_name (Tag p1) f) -> LookupFn p1 name = LookupFn p2 name) ->
  (forall st, struct_below (Typ f) = Some st ->
     forall v' s', recur1 st v' s' = recur2 st v' s') ->
  parse_field ext p1 recur1 config i f tagFound s =
  parse_field ext p2 recur2 config i f tagFound s.
Proof.
  intros Htag Hown Hrec. rewrite !parse_field_eq. rewrite <- Htag.
  unfold own_name in Hown.
  destruct (parseTag f (Tag p1)) as [tag [err|]]; [reflexivity|].
  apply bind_ext.
  - destruct (Tagged tag); [|reflexivity].
    apply bind_ext; [|reflexivity]. apply retrieve_agree, Hown. now left.
  - intros [tf [e|]] s'; [reflexivity|].
    destruct (struct_below (Typ f)) as [st|] eqn:Hst; [|reflexivity].
    unfold descend. apply bind_ext; [reflexivity|]. intros v' s1.
    apply bind_ext; [now apply Hrec|reflexivity].
Qed.

Lemma parse_fields_agree (ext : Extern) (p1 p2 : Parser)
    (recur1 recur2 : rtype -> Value -> M (bool * option error))
    (config : Value) (fs : list StructField) :
  Tag p1 = Tag p2 ->
  Forall (fun f => forall st, struct_below (Typ f) = Some st ->
            (forall name, In name (declared_names (Tag p1) st) ->
               LookupFn p1 name = LookupFn p2 name) ->
            forall v' s', recur1 st v' s' = recur2 st v' s') fs ->
  (forall name, In name (declared_names (Tag p1) (TStruct fs)) ->
     LookupFn p1 name = LookupFn p2 name) ->
  forall i tagFound s,
    parse_fields ext p1 recur1 config fs i tagFound s =
    parse_fields ext p2 recur2 config fs i tagFound s.
Proof.
  intros Htag Hfs. induction Hfs as [|f fs Hf _ IH]; intros Hnames i tf s;
    [reflexivity|].
  cbn [parse_fields]. rewrite declared_names_cons in Hnames.
  apply bind_ext.
  - apply parse_field_agree; [assumption| |].
    + intros name Hin. apply Hnames. apply in_or_app. now left.
    + intros st Hst. apply Hf; [assumption|].
      intros name Hin. apply Hnames. apply in_or_app. right. apply in_or_app. left.
      unfold names_below. now rewrite Hst.
  - intros [tf' [e|]] s'; [reflexivity|]. apply IH.
    intros name Hin. apply Hnames. apply in_or_app. right. apply in_or_app. now right.
Qed.

Lemma parse_agree (ext : Extern) (p1 p2 : Parser) (t : rtype) :
  Tag p1 = Tag p2 ->
  (forall name, In name (declared_names (Tag p1) t) ->
     LookupFn p1 name = LookupFn p2 name) ->
  forall config s, parse ext p1 t config s = parse ext p2 t config s.
Proof.
  intros Htag.
  induction t as [t Ht|fs IH] using rtype_struct_ind; intros Hnames config s.
  - destruct t; try reflexivity. now destruct (Ht fields).
  - rewrite !parse_struct. now apply parse_fields_agree.
Qed.

(** A run is determined by the record, by memory and by what the lookup
    function answers for the names the record declares: two runs from the
    same record and memory, with lookup functions that give the same
    answers on these names, end the same way and leave the same memory and
    the same calls. *)
Lemma Get_agree (ext : Extern) (p1 p2 : Parser)
    (config : option (rtype * value)) (s : state) :
  Tag p1 = Tag p2 ->
  (forall name, In name (config_names (Tag p1) config) ->
     LookupFn p1 name = LookupFn p2 name) ->
  Get ext p1 config s = Get ext p2 config s.
Proof.
  intros Htag Hnames. unfold Get. destruct config as [[t x]|]; [|reflexivity].
  destruct t as [| | | | | |e| | |]; try reflexivity.
  destruct e as [| | | | | | | |fs|]; try reflexivity.
  destruct x as [| | | | |[pl|]| | |]; try reflexivity.
  apply bind_ext; [|reflexivity]. now apply parse_agree.
Qed.

(* ===================================================================== *)
(** ** Well-typed memory *)
(* ===================================================================== *)

Lemma value_ind' (P : value -> Prop) :
  (forall b, P (VBool b)) -> (forall z, P (VInt z)) -> (forall z, P (VUint z)) ->
  (forall f, P (VFloat f)) -> (forall s, P (VString s)) -> (forall p, P (VPtr p)) ->
  (forall xs, Forall P xs -> P (VSlice xs)) ->
  (forall xs, Forall P xs -> P (VStruct xs)) ->
  (forall tok, P (VOpaque tok)) ->
  forall x, P x.
Proof.
  intros Hb Hi Hu Hf Hs Hp Hsl Hst Ho.
  fix IH 1.
  intros [b|z|z|f|s|p|xs|xs|tok];
    [apply Hb|apply Hi|apply Hu|apply Hf|apply Hs|apply Hp| | |apply Ho].
  - apply Hsl. induction xs as [|x xs IHxs]; constructor; [apply IH|exact IHxs].
  - apply Hst. induction xs as [|x xs IHxs]; constructor; [apply IH|exact IHxs].
Qed.

Lemma type_at_app (t : rtype) (path : list nat) (i : nat) (fs : list StructField)
    (f : StructField) :
  type_at t path = Some (TStruct fs) -> fs !! i = Some f ->
  type_at t (path ++ [i]) = Some (Typ f).
Proof.
  revert t. induction path as [|j path IH]; intros t; cbn [type_at app].
  - intros [= ->] Hf. now rewrite Hf.
  - destruct t; try discriminate. destruct (fields !! j); [|discriminate]. apply IH.
Qed.

Lemma place_type_field (types : list rtype) (v : Value) (i : nat)
    (fs : list StructField) (f : StructField) :
  place_type types (ref v) = Some (TStruct fs) -> fs !! i = Some f ->
  place_type types (ref (Field v i f)) = Some (Typ f).
Proof.
  unfold place_type. cbn [Field ref fst snd].
  destruct (types !! fst (ref v)) as [t|]; [|discriminate].
  intros H Hf. eapply type_at_app; eauto.
Qed.

Lemma place_type_weaken (types more : list rtype) (pl : place) (t : rtype) :
  place_type types pl = Some t -> place_type (types ++ more) pl = Some t.
Proof.
  unfold place_type. destruct (types !! fst pl) as [t0|] eqn:H; [|discriminate].
  now rewrite (lookup_app_l_Some _ _ _ _ H).
Qed.

Lemma has_type_weaken (types more : list rtype) (t : rtype) :
  forall x, has_type types x t -> has_type (types ++ more) x t.
Proof.
  induction t as [|w|w| | | |e _|e _|fs IH|k] using rtype_ind'; intros x H;
    try (apply has_type_other; discriminate).
  - inversion H as [t'|pl t' Hpl| |x' t' Hp _]; subst.
    + constructor.
    + constructor. now apply place_type_weaken.
    + now destruct (Hp e).
  - inversion H as [| |xs fs' Hxs|x' t' _ Hs]; subst; [|now destruct (Hs fs)].
    constructor. clear H. induction Hxs as [|x f xs fs Hx _ IHxs]; constructor.
    + inversion IH; subst. auto.
    + inversion IH; subst. auto.
Qed.

Lemma has_type_Zero (types : list rtype) (t : rtype) : has_type types (Zero t) t.
Proof.
  induction t as [|w|w| | | |e _|e _|fs IH|k] using rtype_ind';
    try (apply has_type_other; discriminate).
  - constructor.
  - cbn [Zero]. constructor.
    induction IH as [|f fs Hf _ IHfs]; constructor; [|exact IHfs].
    now destruct f.
Qed.

Lemma has_type_get_at (types : list rtype) (path : list nat) :
  forall x t t', has_type types x t -> type_at t path = Some t' ->
                 exists y, get_at x path = Some y /\ has_type types y t'.
Proof.
  induction path as [|i path IH]; intros x t t' Hx; cbn [type_at get_at].
  - intros [= <-]. eauto.
  - destruct t as [| | | | | | | |fs|]; try discriminate.
    destruct (fs !! i) as [f|] eqn:Hf; [|discriminate]. intros Hpath.
    inversion Hx as [| |xs fs' Hxs|x' t'' _ Hs]; subst; [|now destruct (Hs fs)].
    destruct (Forall2_lookup_r _ _ _ _ _ Hxs Hf) as (xi & Hxi & Hti).
    rewrite Hxi. eapply IH; eauto.
Qed.

Lemma has_type_set_at (types : list rtype) (path : list nat) (new : value) :
  forall x t t', has_type types x t -> type_at t path = Some t' ->
                 has_type types new t' ->
                 exists x', set_at x path new = Some x' /\ has_type types x' t.
Proof.
  induction path as [|i path IH]; intros x t t' Hx; cbn [type_at set_at].
  - intros [= <-] Hnew. eauto.
  - destruct t as [| | | | | | | |fs|]; try discriminate.
    destruct (fs !! i) as [f|] eqn:Hf; [|discriminate]. intros Hpath Hnew.
    inversion Hx as [| |xs fs' Hxs|x' t'' _ Hs]; subst; [|now destruct (Hs fs)].
    destruct (Forall2_lookup_r _ _ _ _ _ Hxs Hf) as (xi & Hxi & Hti).
    rewrite Hxi. destruct (IH xi _ _ Hti Hpath Hnew) as (xi' & -> & Hti').
    eexists. split; [reflexivity|]. constructor.
    rewrite <- (list_insert_id fs i f Hf). now apply Forall2_insert.
Qed.

Lemma well_typed_length (types : list rtype) (h : list value) :
  well_typed types h -> length h = length types.
Proof. apply Forall2_length. Qed.

Lemma well_typed_get (types : list rtype) (h : list value) (pl : place) (t : rtype) :
  well_typed types h -> place_type types pl = Some t ->
  exists x, heap_get h pl = Some x /\ has_type types x t.
Proof.
  unfold well_typed, place_type, heap_get. intros Hh.
  destruct (types !! fst pl) as [t0|] eqn:Ht0; [|discriminate]. intros Hpath.
  destruct (Forall2_lookup_r _ _ _ _ _ Hh Ht0) as (x0 & Hx0 & Hty).
  rewrite Hx0. eapply has_type_get_at; eauto.
Qed.

Lemma well_typed_set (types : list rtype) (h : list value) (pl : place) (t : rtype)
    (new : value) :
  well_typed types h -> place_type types pl = Some t -> has_type types new t ->
  exists h', heap_set h pl new = Some h' /\ well_typed types h'.
Proof.
  unfold well_typed, place_type, heap_set. intros Hh.
  destruct (types !! fst pl) as [t0|] eqn:Ht0; [|discriminate]. intros Hpath Hnew.
  destruct (Forall2_lookup_r _ _ _ _ _ Hh Ht0) as (x0 & Hx0 & Hty).
  rewrite Hx0.
  destruct (has_type_set_at types (snd pl) new x0 t0 t Hty Hpath Hnew) as (x' & -> & Hx').
  eexists. split; [reflexivity|].
  pose proof (Forall2_insert _ _ _ x' t0 (fst pl) Hh Hx') as H.
  now rewrite (list_insert_id types _ _ Ht0) in H.
Qed.

Lemma well_typed_alloc (types : list rtype) (h : list value) (t : rtype) :
  well_typed types h -> well_typed (types ++ [t]) (h ++ [Zero t]).
Proof.
  unfold well_typed. intros Hh. apply Forall2_app.
  - eapply Forall2_impl; [exact Hh|]. intros x t'. apply has_type_weaken.
  - constructor; [apply has_type_Zero|constructor].
Qed.

Lemma well_typed_weaken_place (types : list rtype) (h : list value) (t : rtype) :
  well_typed types h -> place_type (types ++ [t]) (length h, []) = Some t.
Proof.
  intros Hh. unfold place_type. cbn [fst snd].
  rewrite (well_typed_length _ _ Hh), lookup_app_r, Nat.sub_diag by lia. reflexivity.
Qed.

(* ===================================================================== *)
(** ** What a traversal without annotations may change *)
(* ===================================================================== *)

Lemma fills_trans (n : nat) (t : rtype) :
  forall x y z, fills n t x y -> fills n t y z -> fills n t x z.
Proof.
  induction t as [|w|w| | | |e _|e _|fs IH|k] using rtype_ind'; intros x y z Hxy Hyz;
    try (inversion Hxy; subst; assumption).
  - inversion Hxy; subst; [assumption|]. inversion Hyz; subst. assumption.
  - inversion Hxy as [|?|fs' xs ys Hlen Hfields Hrest]; subst; [assumption|].
    inversion Hyz as [|?|fs' ys' zs Hlen' Hfields' Hrest']; subst; [assumption|].
    constructor.
    + congruence.
    + intros i f xi zi Hf Hxi Hzi.
      destruct (lookup_lt_is_Some_2 ys i) as [yi Hyi].
      { rewrite <- Hlen. eapply lookup_lt_Some; eauto. }
      rewrite Forall_lookup in IH. eapply (IH i f Hf); eauto.
    + intros i Hi. rewrite (Hrest i Hi). now apply Hrest'.
Qed.

Lemma set_at_fills (n : nat) (pl : place) (fs : list StructField) (path : list nat) :
  n <= fst pl ->
  forall t x x',
    type_at t path = Some (TPtr (TStruct fs)) ->
    get_at x path = Some (VPtr None) ->
    set_at x path (VPtr (Some pl)) = Some x' -> fills n t x x'.
Proof.
  intros Hn. induction path as [|i path IH]; intros t x x'; cbn [type_at get_at set_at].
  - intros [= ->] [= ->] [= <-]. now apply fills_nil.
  - destruct t as [| | | | | | | |fs0|]; try discriminate.
    destruct (fs0 !! i) as [f|] eqn:Hf; [|discriminate]. intros Hty.
    destruct x as [| | | | | | |xs|]; try discriminate.
    destruct (xs !! i) as [xi|] eqn:Hxi; [|discriminate]. intros Hget.
    destruct (set_at xi path _) as [xi'|] eqn:Hset; [|discriminate].
    intros [= <-]. constructor.
    + now rewrite length_insert.
    + intros j g xj yj Hg Hxj Hyj.
      destruct (decide (j = i)) as [->|Hne].
      * rewrite list_lookup_insert_eq in Hyj by (eapply lookup_lt_Some; eauto).
        injection Hyj as <-. rewrite Hxi in Hxj. injection Hxj as <-.
        rewrite Hf in Hg. injection Hg as <-. eapply IH; eauto.
      * rewrite list_lookup_insert_ne in Hyj by congruence.
        rewrite Hxj in Hyj. injection Hyj as <-. apply fills_same.
    + intros j Hj. destruct (decide (j = i)) as [->|Hne]; [congruence|].
      now rewrite list_lookup_insert_ne by congruence.
Qed.

Lemma only_fills_refl (types : list rtype) (n : nat) (h : list value) :
  only_fills types n h h.
Proof.
  split; [lia|]. intros l t x _ H. exists x. split; [assumption|apply fills_same].
Qed.

Lemma only_fills_trans (types : list rtype) (n : nat) (h1 h2 h3 : list value) :
  only_fills types n h1 h2 -> only_fills types n h2 h3 -> only_fills types n h1 h3.
Proof.
  intros [Hlen12 H12] [Hlen23 H23]. split; [lia|]. intros l t x Ht Hx.
  destruct (H12 l t x Ht Hx) as (y & Hy & Hxy).
  destruct (H23 l t y Ht Hy) as (z & Hz & Hyz). exists z. split; [assumption|].
  eapply fills_trans; eauto.
Qed.

Lemma only_fills_narrow (types more : list rtype) (n : nat) (h h' : list value) :
  only_fills (types ++ more) n h h' -> only_fills types n h h'.
Proof.
  intros [Hlen H]. split; [assumption|]. intros l t x Ht Hx.
  apply (H l t x); [now apply lookup_app_l_Some|assumption].
Qed.

Lemma only_fills_alloc (types : list rtype) (n : nat) (h : list value) (x : value) :
  only_fills types n h (h ++ [x]).
Proof.
  split; [rewrite length_app; lia|].
  intros l t y _ Hy. exists y. split; [now apply lookup_app_l_Some|apply fills_same].
Qed.

Lemma only_fills_set (types : list rtype) (n : nat) (h h' : list value)
    (pl target : place) (fs : list StructField) :
  place_type types pl = Some (TPtr (TStruct fs)) ->
  n <= fst target ->
  heap_get h pl = Some (VPtr None) ->
  heap_set h pl (VPtr (Some target)) = Some h' ->
  only_fills types n h h'.
Proof.
  unfold place_type, heap_get, heap_set. intros Hty Hn.
  destruct (h !! fst pl) as [x0|] eqn:Hx0; [|discriminate]. intros Hget.
  destruct (set_at x0 (snd pl) _) as [x0'|] eqn:Hset; [|discriminate].
  intros [= <-]. split; [now rewrite length_insert|]. intros l t x Ht Hx.
  destruct (decide (l = fst pl)) as [->|Hne].
  - rewrite list_lookup_insert_eq by (eapply lookup_lt_Some; eauto).
    exists x0'. split; [reflexivity|]. rewrite Hx0 in Hx. injection Hx as <-.
    rewrite Ht in Hty. eapply set_at_fills; eauto.
  - rewrite list_lookup_insert_ne by congruence.
    exists x. split; [assumption|apply fills_same].
Qed.

Lemma untagged_cons (key : string) (f : StructField) (fs : list StructField) :
  untagged key (TStruct (f :: fs)) = true ->
  Lookup (reflect.Tag f) key = None /\
  (forall st, struct_below (Typ f) = Some st -> untagged key st = true) /\
  untagged key (TStruct fs) = true.
Proof.
  cbn [untagged forallb]. intros H.
  apply andb_true_iff in H as [H Hfs]. apply andb_true_iff in H as [Htag Hbelow].
  split; [now destruct (Lookup _ _)|]. split; [|exact Hfs].
  intros st Hst. cbn zeta in Hbelow.
  destruct (Typ f) as [| | | | | |e| |fs'|]; try discriminate.
  - destruct e; try discriminate. now injection Hst as <-.
  - now injection Hst as <-.
Qed.

Lemma structs_exported_cons (f : StructField) (fs : list StructField) :
  structs_exported (TStruct (f :: fs)) = true ->
  (forall st, struct_below (Typ f) = Some st ->
     exported f = true /\ structs_exported st = true) /\
  structs_exported (TStruct fs) = true.
Proof.
  cbn [structs_exported forallb]. intros H. apply andb_true_iff in H as [Hf Hfs].
  split; [|exact Hfs]. intros st Hst. cbn zeta in Hf.
  destruct (Typ f) as [| | | | | |e| |fs'|]; try discriminate.
  - destruct e; try discriminate. injection Hst as <-. now apply andb_true_iff.
  - injection Hst as <-. now apply andb_true_iff.
Qed.

Lemma parseTag_untagged (f : StructField) (key : string) :
  Lookup (reflect.Tag f) key = None -> parseTag f key = (tagData0, None).
Proof. unfold parseTag. now intros ->. Qed.

Lemma heap_get_app (h more : list value) (pl : place) (x : value) :
  heap_get h pl = Some x -> heap_get (h ++ more) pl = Some x.
Proof.
  unfold heap_get. destruct (h !! fst pl) as [x0|] eqn:H; [|discriminate].
  now rewrite (lookup_app_l_Some _ _ _ _ H).
Qed.

(** Lines 62-69 of [parse] on a well-typed field: the struct below the
    field, after at most one allocation. *)
Lemma enter_struct_typed (types : list rtype) (f : StructField) (value : Value)
    (st : rtype) (s : state) :
  struct_below (Typ f) = Some st ->
  flagRO value = false ->
  typ value = Typ f ->
  well_typed types (heap s) ->
  place_type types (ref value) = Some (Typ f) ->
  exists s1 types1 value',
    enter_struct f value s = (s1, Ret value') /\
    calls s1 = calls s /\
    well_typed (types ++ types1) (heap s1) /\
    place_type (types ++ types1) (ref value') = Some st /\
    flagStickyRO value' = false /\
    forall n, n <= length (heap s) -> only_fills types n (heap s) (heap s1).
Proof.
  intros Hst Hro Htyp Hh Hpl. unfold enter_struct.
  assert (Hsticky : flagStickyRO value = false).
  { unfold flagRO in Hro. now apply orb_false_iff in Hro. }
  destruct (Typ f) as [| | | | | |e| |fs'|] eqn:Hty; try discriminate.
  - (* a pointer to a struct *)
    destruct e as [| | | | | | | |fs'|]; try discriminate. injection Hst as <-.
    destruct (well_typed_get _ _ _ _ Hh Hpl) as (x & Hget & Hx).
    inversion Hx as [t'|pl t' Htarget| |x' t' Hp _]; subst;
      [| |now destruct (Hp (TStruct fs'))].
    + (* nil: allocate *)
      set (target := (length (heap s), @nil nat)).
      assert (Hh1 : well_typed (types ++ [TStruct fs']) (heap s ++ [Zero (TStruct fs')]))
        by now apply well_typed_alloc.
      destruct (well_typed_set (types ++ [TStruct fs']) _ (ref value) (TPtr (TStruct fs'))
                  (VPtr (Some target)) Hh1) as (h' & Hset & Hh').
      { now apply place_type_weaken. }
      { constructor. now apply well_typed_weaken_place. }
      exists (mkState h' (calls s)), [TStruct fs'],
        (mkValue (TStruct fs') target (flagStickyRO value) (flagEmbedRO value)).
      splits; try assumption; try reflexivity.
      * rewrite (bind_Ret _ _ _ _ _ (IsNil_nil _ _ Hget)). cbv beta iota.
        rewrite bind_assoc, (bind_Ret _ _ _ _ _ (New_eq _ _)).
        rewrite (bind_Ret _ _ _ _ _
                   (Set_eq value _ (mkState (heap s ++ [Zero (TStruct fs')]) (calls s))
                      h' Hro Hset)).
        apply Elem_eq; [assumption|]. exact (heap_get_set _ _ _ _ Hset).
      * now apply well_typed_weaken_place.
      * intros n Hn. cbn [heap].
        eapply only_fills_trans; [apply only_fills_alloc|].
        eapply only_fills_set; [exact Hpl| |apply heap_get_app; exact Hget|exact Hset].
        exact Hn.
    + (* not nil *)
      exists s, [], (mkValue (TStruct fs') pl (flagStickyRO value) (flagEmbedRO value)).
      rewrite app_nil_r. splits; try assumption; try reflexivity.
      * rewrite (bind_Ret _ _ _ _ _ (IsNil_ptr _ _ _ Hget)). cbv beta iota.
        rewrite (bind_Ret (ret tt) _ s s tt eq_refl).
        now apply Elem_eq.
      * intros n _. apply only_fills_refl.
  - (* a struct *)
    injection Hst as <-. exists s, [], value. rewrite app_nil_r.
    splits; try assumption; try reflexivity. intros n _. apply only_fills_refl.
Qed.

Lemma fills_mono (n n' : nat) (t : rtype) :
  n <= n' -> forall x y, fills n' t x y -> fills n t x y.
Proof.
  intros Hn.
  induction t as [|w|w| | | |e _|e _|fs IH|k] using rtype_ind'; intros x y H;
    try (inversion H; subst; apply fills_same).
  - inversion H; subst; [apply fills_same|]. apply fills_nil. lia.
  - inversion H as [|?|fs' xs ys Hlen Hfields Hrest]; subst; [apply fills_same|].
    constructor; [assumption| |assumption].
    intros i f xi yi Hf Hxi Hyi. rewrite Forall_lookup in IH.
    apply (IH i f Hf). eapply Hfields; eauto.
Qed.

(** A non-nil pointer is not changed by filling. *)
Lemma fills_keeps_pointer (n : nat) (path : list nat) (target : place) :
  forall t x y, fills n t x y ->
    get_at x path = Some (VPtr (Some target)) ->
    get_at y path = Some (VPtr (Some target)).
Proof.
  induction path as [|i path IH]; intros t x y H; cbn [get_at].
  - intros [= ->]. now inversion H.
  - inversion H as [|?|fs xs ys Hlen Hfields Hrest]; subst; [trivial|discriminate|].
    destruct (xs !! i) as [xi|] eqn:Hxi; [|discriminate]. intros Hget.
    destruct (lookup_lt_is_Some_2 ys i) as [yi Hyi].
    { rewrite <- Hlen. eapply lookup_lt_Some; eauto. }
    rewrite Hyi. destruct (fs !! i) as [f|] eqn:Hf.
    + eapply IH; [eapply Hfields; eauto|assumption].
    + rewrite (Hrest i Hf), Hyi in Hxi. now injection Hxi as ->.
Qed.

(** A non-nil pointer found after filling was there before, or was nil
    and points to one of the new objects. *)
Lemma fills_pointer_before (n : nat) (path : list nat) (target : place) :
  forall t x y, fills n t x y ->
    get_at y path = Some (VPtr (Some target)) ->
    get_at x path = Some (VPtr (Some target)) \/
    (get_at x path = Some (VPtr None) /\ n <= fst target).
Proof.
  induction path as [|i path IH]; intros t x y H; cbn [get_at].
  - intros [= ->]. inversion H; subst; [now left|right; now split].
  - inversion H as [|?|fs xs ys Hlen Hfields Hrest]; subst; [now left|discriminate|].
    destruct (ys !! i) as [yi|] eqn:Hyi; [|discriminate]. intros Hget.
    destruct (lookup_lt_is_Some_2 xs i) as [xi Hxi].
    { rewrite Hlen. eapply lookup_lt_Some; eauto. }
    rewrite Hxi. destruct (fs !! i) as [f|] eqn:Hf.
    + eapply IH; [eapply Hfields; eauto|assumption].
    + rewrite (Hrest i Hf), Hyi in Hxi. injection Hxi as <-. now left.
Qed.

(** What is not a struct is kept by filling, or was a nil pointer and
    points to one of the new objects. *)
Lemma fills_leaf (n : nat) (path : list nat) (z : value) :
  (forall xs, z <> VStruct xs) ->
  forall t x y, fills n t x y ->
    get_at x path = Some z ->
    get_at y path = Some z \/
    (z = VPtr None /\
     exists target, n <= fst target /\ get_at y path = Some (VPtr (Some target))).
Proof.
  intros Hz. induction path as [|i path IH]; intros t x y H; cbn [get_at].
  - intros [= ->]. inversion H; subst; [now left| |now destruct (Hz xs)].
    right. split; [reflexivity|]. eauto.
  - inversion H as [|?|fs xs ys Hlen Hfields Hrest]; subst; [now left|discriminate|].
    destruct (xs !! i) as [xi|] eqn:Hxi; [|discriminate]. intros Hget.
    destruct (lookup_lt_is_Some_2 ys i) as [yi Hyi].
    { rewrite <- Hlen. eapply lookup_lt_Some; eauto. }
    rewrite Hyi. destruct (fs !! i) as [f|] eqn:Hf.
    + eapply IH; [eapply Hfields; eauto|assumption].
    + rewrite (Hrest i Hf), Hyi in Hxi. injection Hxi as ->. now left.
Qed.

(** A zero value holds no pointer but nil. *)
Lemma Zero_no_pointer (t : rtype) :
  forall path target, get_at (Zero t) path <> Some (VPtr (Some target)).
Proof.
  induction t as [|w|w| | | |e _|e _|fs IH|k] using rtype_ind'; intros [|i path] target;
    cbn [Zero get_at]; try discriminate.
  destruct (_ !! i) as [y|] eqn:Hy; [|discriminate].
  revert i Hy. induction IH as [|f fs Hf _ IHfs]; intros [|i]; cbn; try discriminate.
  - intros [= <-]. destruct f. apply Hf.
  - apply IHfs.
Qed.

Lemma keeps_pointers_refl (h : list value) : keeps_pointers h h.
Proof. now intros q target. Qed.

Lemma keeps_pointers_trans (h1 h2 h3 : list value) :
  keeps_pointers h1 h2 -> keeps_pointers h2 h3 -> keeps_pointers h1 h3.
Proof. intros H12 H23 q target H. now apply H23, H12. Qed.

Lemma well_typed_type_of (types : list rtype) (h : list value) (l : nat) (x : value) :
  well_typed types h -> h !! l = Some x -> exists t, types !! l = Some t.
Proof.
  intros Hh Hx. destruct (Forall2_lookup_l _ _ _ _ _ Hh Hx) as (t & Ht & _). eauto.
Qed.

Lemma only_fills_keeps (types : list rtype) (n : nat) (h h' : list value) :
  well_typed types h -> only_fills types n h h' -> keeps_pointers h h'.
Proof.
  intros Hh [_ H] q target. unfold heap_get.
  destruct (h !! fst q) as [x|] eqn:Hx; [|discriminate].
  destruct (well_typed_type_of _ _ _ _ Hh Hx) as [t Ht].
  destruct (H _ _ _ Ht Hx) as (y & -> & Hxy). exact (fills_keeps_pointer n _ _ _ _ _ Hxy).
Qed.

Lemma only_fills_pointer_before (types : list rtype) (n : nat) (h h' : list value)
    (q target : place) :
  well_typed types h -> only_fills types n h h' -> fst q < length h ->
  heap_get h' q = Some (VPtr (Some target)) ->
  heap_get h q = Some (VPtr (Some target)) \/
  (heap_get h q = Some (VPtr None) /\ n <= fst target).
Proof.
  intros Hh [_ H] Hq. unfold heap_get.
  destruct (lookup_lt_is_Some_2 h (fst q) Hq) as [x Hx]. rewrite Hx.
  destruct (well_typed_type_of _ _ _ _ Hh Hx) as [t Ht].
  destruct (H _ _ _ Ht Hx) as (y & -> & Hxy). exact (fills_pointer_before n _ _ _ _ _ Hxy).
Qed.

Lemma heap_get_lt (h : list value) (q : place) (x : value) :
  heap_get h q = Some x -> fst q < length h.
Proof.
  unfold heap_get. destruct (h !! fst q) as [x0|] eqn:Hx; [|discriminate].
  intros _. eapply lookup_lt_Some; eauto.
Qed.

Lemma place_type_lt (types : list rtype) (q : place) (t : rtype) :
  place_type types q = Some t -> fst q < length types.
Proof.
  unfold place_type. destruct (types !! fst q) as [t0|] eqn:Hx; [|discriminate].
  intros _. eapply lookup_lt_Some; eauto.
Qed.

(** The pointers of the new objects point to new objects. *)
Lemma fresh_zero_closed (types : list rtype) (n : nat) (h : list value)
    (q target : place) :
  well_typed types h -> fresh_zero types n h -> n <= fst q ->
  heap_get h q = Some (VPtr (Some target)) -> n <= fst target.
Proof.
  intros Hh Hz Hq. unfold heap_get.
  destruct (h !! fst q) as [y|] eqn:Hy; [|discriminate].
  destruct (well_typed_type_of _ _ _ _ Hh Hy) as [t Ht].
  destruct (Hz _ _ Hq Ht) as (y' & Hy' & Hfill). rewrite Hy in Hy'. injection Hy' as <-.
  intros Hget.
  destruct (fills_pointer_before n (snd q) target _ _ _ Hfill Hget) as [H|[_ H]];
    [|assumption].
  now destruct (Zero_no_pointer _ _ _ H).
Qed.

Lemma fresh_zero_none (types : list rtype) (h : list value) :
  well_typed types h -> fresh_zero types (length h) h.
Proof.
  intros Hh k t Hk Ht. apply lookup_lt_Some in Ht.
  rewrite <- (well_typed_length _ _ Hh) in Ht. lia.
Qed.

Lemma fresh_zero_trans (types types1 types2 : list rtype) (n n1 : nat)
    (h1 h2 : list value) :
  well_typed (types ++ types1) h1 -> n <= n1 -> n1 <= length h1 ->
  fresh_zero (types ++ types1) n h1 ->
  only_fills (types ++ types1) n1 h1 h2 ->
  fresh_zero ((types ++ types1) ++ types2) n1 h2 ->
  fresh_zero ((types ++ types1) ++ types2) n h2.
Proof.
  intros Hh1 Hn Hn1 Hz1 [_ Hfill] Hz2 k t Hk Ht.
  destruct (decide (n1 <= k)) as [Hk1|Hk1].
  - destruct (Hz2 k t Hk1 Ht) as (y & Hy & Hy0). exists y. split; [assumption|].
    now apply fills_mono with (n' := n1).
  - destruct (decide (k < length h1)) as [Hlt|Hge].
    + destruct (lookup_lt_is_Some_2 h1 k Hlt) as [y1 Hy1].
      destruct (well_typed_type_of _ _ _ _ Hh1 Hy1) as [t1 Ht1].
      rewrite (lookup_app_l_Some _ _ _ _ Ht1) in Ht. injection Ht as <-.
      destruct (Hz1 k t1 Hk Ht1) as (y & Hy & Hy0). rewrite Hy1 in Hy. injection Hy as <-.
      destruct (Hfill k t1 y1 Ht1 Hy1) as (y2 & Hy2 & H12).
      exists y2. split; [assumption|].
      eapply fills_trans; [exact Hy0|]. now apply fills_mono with (n' := n1).
    + lia.
Qed.

(** From a new object a traversal goes through new objects only. *)
Lemma visits_fresh (types : list rtype) (n : nat) (h : list value) :
  well_typed types h -> fresh_zero types n h ->
  forall t pl t' pl', visits h t pl t' pl' -> n <= fst pl -> n <= fst pl'.
Proof.
  intros Hh Hz t pl t' pl' H.
  induction H as [t pl|fs fs' pl i f t' pl' Hf Hty _ IH
                 |fs fs' pl i f q t' pl' Hf Hty Hget _ IH]; intros Hn.
  - assumption.
  - apply IH. exact Hn.
  - apply IH. eapply fresh_zero_closed; [exact Hh|exact Hz| |exact Hget]. exact Hn.
Qed.

Lemma place_type_field_place (types : list rtype) (pl : place) (i : nat)
    (fs : list StructField) (f : StructField) :
  place_type types pl = Some (TStruct fs) -> fs !! i = Some f ->
  place_type types (field_place pl i) = Some (Typ f).
Proof.
  intros Hpl Hf.
  exact (place_type_field types (mkValue (TStruct fs) pl false false) i fs f Hpl Hf).
Qed.

(** A struct of the old memory that a traversal of the filled memory goes
    through is one a traversal of the old memory goes through. *)
Lemma visits_old (types more : list rtype) (h h' : list value) :
  well_typed types h -> well_typed (types ++ more) h' ->
  only_fills types (length h) h h' -> fresh_zero (types ++ more) (length h) h' ->
  forall t pl t' pl',
    visits h' t pl t' pl' -> place_type types pl = Some t ->
    visits h t pl t' pl' \/ length h <= fst pl'.
Proof.
  intros Hh Hh' Hfill Hz t pl t' pl' H.
  induction H as [t pl|fs fs' pl i f t' pl' Hf Hty _ IH
                 |fs fs' pl i f q t' pl' Hf Hty Hget Hsub IH]; intros Hpl.
  - left. constructor.
  - pose proof (place_type_field_place _ _ _ _ _ Hpl Hf) as Hfp. rewrite Hty in Hfp.
    destruct (IH Hfp) as [Hv|Hnew]; [left|now right].
    eapply visits_field; eauto.
  - pose proof (place_type_field_place _ _ _ _ _ Hpl Hf) as Hfp. rewrite Hty in Hfp.
    assert (Hlt : fst (field_place pl i) < length h).
    { rewrite (well_typed_length _ _ Hh). eapply place_type_lt; eauto. }
    destruct (only_fills_pointer_before _ _ _ _ _ _ Hh Hfill Hlt Hget) as [Hold|[_ Hnew]].
    + destruct (well_typed_get _ _ _ _ Hh Hfp) as (x & Hx & Htx).
      rewrite Hold in Hx. injection Hx as <-.
      inversion Htx as [|q' t0 Hq| |x' t0 Hp _]; subst; [|now destruct (Hp (TStruct fs'))].
      destruct (IH Hq) as [Hv|Hnew]; [left|now right].
      eapply visits_pointer; eauto.
    + right. eapply visits_fresh; eauto.
Qed.

(** Setting a place that holds no struct leaves the other places that hold
    no struct as they are. *)
Lemma set_at_other (new old z : value) (path : list nat) :
  (forall xs, old <> VStruct xs) -> (forall xs, z <> VStruct xs) ->
  forall x x' path',
    get_at x path = Some old -> set_at x path new = Some x' ->
    get_at x path' = Some z -> path' <> path -> get_at x' path' = Some z.
Proof.
  intros Hold Hz. induction path as [|i path IH]; intros x x' path'; cbn [get_at set_at].
  - intros [= ->] _. destruct path' as [|j path']; [congruence|]. cbn [get_at].
    destruct old; try discriminate. now destruct (Hold fields).
  - destruct x as [| | | | | | |xs|]; try discriminate.
    destruct (xs !! i) as [xi|] eqn:Hxi; [|discriminate]. intros Hget.
    destruct (set_at xi path new) as [xi'|] eqn:Hset; [|discriminate]. intros [= <-].
    destruct path' as [|j path']; cbn [get_at].
    + intros [= <-]. now destruct (Hz xs).
    + destruct (decide (j = i)) as [->|Hne].
      * rewrite Hxi, list_lookup_insert_eq by (eapply lookup_lt_Some; eauto).
        intros Hz' Hp. eapply IH; eauto. congruence.
      * now rewrite list_lookup_insert_ne by congruence.
Qed.

Lemma heap_set_other (h h' : list value) (pl q : place) (new old z : value) :
  (forall xs, old <> VStruct xs) -> (forall xs, z <> VStruct xs) ->
  heap_get h pl = Some old -> heap_set h pl new = Some h' ->
  heap_get h q = Some z -> q <> pl -> heap_get h' q = Some z.
Proof.
  intros Hold Hz. unfold heap_get, heap_set.
  destruct (h !! fst pl) as [x|] eqn:Hx; [|discriminate]. intros Hget.
  destruct (set_at x (snd pl) new) as [x'|] eqn:Hset; [|discriminate]. intros [= <-].
  destruct (decide (fst q = fst pl)) as [Heq|Hne].
  - rewrite Heq, Hx, list_lookup_insert_eq by (eapply lookup_lt_Some; eauto).
    intros Hq Hp. apply (set_at_other new old z (snd pl) Hold Hz x x' (snd q) Hget Hset Hq).
    intros Hpath. apply Hp. destruct q, pl. cbn in *. congruence.
  - now rewrite list_lookup_insert_ne by congruence.
Qed.

Lemma filled_of_fields (h : list value) (fs : list StructField) (pl : place) :
  (forall i f, fs !! i = Some f -> filled_field h pl i f) -> filled h (TStruct fs) pl.
Proof.
  intros Hfields q (fs0 & v & j & g & fs'' & Hv & Hg & Hty & ->).
  inversion Hv as [t0 pl0|fs1 fs' pl0 i f t' pl' Hf Htf Hsub
                  |fs1 fs' pl0 i f w t' pl' Hf Htf Hget Hsub]; subst.
  - destruct (Hfields j g Hg (TStruct fs'')) as (w & Hw & _); [now rewrite Hty|].
    unfold entered in Hw. rewrite Hty in Hw. eauto.
  - destruct (Hfields i f Hf (TStruct fs')) as (w & Hw & Hfilled); [now rewrite Htf|].
    unfold entered in Hw. rewrite Htf in Hw. subst w.
    apply Hfilled. exists fs0, v, j, g, fs''. auto.
  - destruct (Hfields i f Hf (TStruct fs')) as (w' & Hw & Hfilled); [now rewrite Htf|].
    unfold entered in Hw. rewrite Htf, Hget in Hw. injection Hw as <-.
    apply Hfilled. exists fs0, v, j, g, fs''. auto.
Qed.

(** Lines 62-69 of [parse] on a well-typed field that may be set: the
    struct below the field, after at most one allocation. *)
Lemma enter_struct_fills (types : list rtype) (f : StructField) (value : Value)
    (st : rtype) (s : state) :
  struct_below (Typ f) = Some st ->
  flagRO value = false ->
  typ value = Typ f ->
  well_typed types (heap s) ->
  place_type types (ref value) = Some (Typ f) ->
  exists s1 types1 value',
    enter_struct f value s = (s1, Ret value') /\
    calls s1 = calls s /\
    well_typed (types ++ types1) (heap s1) /\
    place_type (types ++ types1) (ref value') = Some st /\
    flagStickyRO value' = false /\
    (forall n, n <= length (heap s) -> only_fills types n (heap s) (heap s1)) /\
    fresh_zero (types ++ types1) (length (heap s)) (heap s1) /\
    (forall q, heap_get (heap s) q = Some (VPtr None) ->
               heap_get (heap s1) q <> Some (VPtr None) ->
               q = ref value /\ Typ f = TPtr st) /\
    entered (heap s1) (Typ f) (ref value) (ref value') /\
    (heap s1 = heap s \/ length (heap s) <= fst (ref value')).
Proof.
  intros Hst Hro Htyp Hh Hpl. unfold enter_struct, entered.
  assert (Hsticky : flagStickyRO value = false).
  { unfold flagRO in Hro. now apply orb_false_iff in Hro. }
  destruct (Typ f) as [| | | | | |e| |fs'|] eqn:Hty; try discriminate.
  - (* a pointer to a struct *)
    destruct e as [| | | | | | | |fs'|]; try discriminate. injection Hst as <-.
    destruct (well_typed_get _ _ _ _ Hh Hpl) as (x & Hget & Hx).
    inversion Hx as [t'|pl t' Htarget| |x' t' Hp _]; subst;
      [| |now destruct (Hp (TStruct fs'))].
    + (* nil: allocate *)
      set (target := (length (heap s), @nil nat)).
      assert (Hh1 : well_typed (types ++ [TStruct fs']) (heap s ++ [Zero (TStruct fs')]))
        by now apply well_typed_alloc.
      destruct (well_typed_set (types ++ [TStruct fs']) _ (ref value) (TPtr (TStruct fs'))
                  (VPtr (Some target)) Hh1) as (h' & Hset & Hh').
      { now apply place_type_weaken. }
      { constructor. now apply well_typed_weaken_place. }
      assert (Hfill : forall n, n <= length (heap s) -> only_fills types n (heap s) h').
      { intros n Hn. eapply only_fills_trans; [apply only_fills_alloc|].
        eapply only_fills_set; [exact Hpl| |apply heap_get_app; exact Hget|exact Hset].
        exact Hn. }
      exists (mkState h' (calls s)), [TStruct fs'],
        (mkValue (TStruct fs') target (flagStickyRO value) (flagEmbedRO value)).
      cbn [heap calls ref].
      splits; try assumption; try reflexivity.
      * rewrite (bind_Ret _ _ _ _ _ (IsNil_nil _ _ Hget)). cbv beta iota.
        rewrite bind_assoc, (bind_Ret _ _ _ _ _ (New_eq _ _)).
        rewrite (bind_Ret _ _ _ _ _
                   (Set_eq value _ (mkState (heap s ++ [Zero (TStruct fs')]) (calls s))
                      h' Hro Hset)).
        apply Elem_eq; [assumption|]. exact (heap_get_set _ _ _ _ Hset).
      * now apply well_typed_weaken_place.
      * (* the new object is still the zero value *)
        intros k t Hk Ht.
        assert (k = length (heap s)) as ->.
        { apply lookup_lt_Some in Ht. rewrite length_app in Ht. cbn in Ht.
          rewrite <- (well_typed_length _ _ Hh) in Ht. lia. }
        rewrite lookup_app_r, <- (well_typed_length _ _ Hh), Nat.sub_diag in Ht
          by (rewrite (well_typed_length _ _ Hh); lia).
        injection Ht as <-.
        exists (Zero (TStruct fs')). split; [|apply fills_same].
        unfold heap_set in Hset.
        destruct (_ !! fst (ref value)) as [x0|] eqn:Hx0; [|discriminate].
        destruct (set_at x0 _ _) as [x0'|]; [|discriminate]. injection Hset as <-.
        pose proof (heap_get_lt _ _ _ Hget) as Hlt.
        rewrite list_lookup_insert_ne by lia.
        now rewrite lookup_app_r, Nat.sub_diag by lia.
      * intros q Hq Hq'. split; [|reflexivity].
        destruct (decide (q = ref value)) as [Heq|Hne]; [assumption|].
        destruct Hq'. eapply heap_set_other; [| |apply heap_get_app; exact Hget|exact Hset| |exact Hne];
          try discriminate.
        now apply heap_get_app.
      * exact (heap_get_set _ _ _ _ Hset).
      * right. reflexivity.
    + (* not nil *)
      exists s, [], (mkValue (TStruct fs') pl (flagStickyRO value) (flagEmbedRO value)).
      rewrite app_nil_r. cbn [ref]. splits; try assumption; try reflexivity.
      * rewrite (bind_Ret _ _ _ _ _ (IsNil_ptr _ _ _ Hget)). cbv beta iota.
        rewrite (bind_Ret (ret tt) _ s s tt eq_refl).
        now apply Elem_eq.
      * intros n _. apply only_fills_refl.
      * now apply fresh_zero_none.
      * intros q Hq Hq'. now destruct Hq'.
      * now left.
  - (* a struct *)
    injection Hst as <-. exists s, [], value. rewrite app_nil_r.
    splits; try assumption; try reflexivity.
    + intros n _. apply only_fills_refl.
    + now apply fresh_zero_none.
    + intros q Hq Hq'. now destruct Hq'.
    + now left.
Qed.

Lemma fills_in_ret (types : list rtype) (s : state) (tagFound : bool)
    (changed : place -> Prop) (done : list value -> Prop) :
  well_typed types (heap s) -> (forall h, keeps_pointers (heap s) h -> done h) ->
  fills_in types s tagFound changed done (s, Ret (tagFound, None)).
Proof.
  intros Hh Hdone. exists s, []. rewrite app_nil_r.
  splits; try assumption; try reflexivity.
  - intros n _. apply only_fills_refl.
  - now apply fresh_zero_none.
  - intros q Hq Hq'. now destruct Hq'.
Qed.

Lemma fills_in_done (types : list rtype) (s : state) (tagFound : bool)
    (changed : place -> Prop) (done done' : list value -> Prop)
    (r : state * outcome (bool * option error)) :
  (forall h, done h -> done' h) ->
  fills_in types s tagFound changed done r -> fills_in types s tagFound changed done' r.
Proof.
  intros Himpl (s' & types' & Hr & Hcalls & Hh & Hfill & Hz & Hch & Hdone).
  exists s', types'. splits; try assumption. intros h Hk. apply Himpl. now apply Hdone.
Qed.

Lemma entered_keeps (h h' : list value) (t : rtype) (fp w : place) :
  keeps_pointers h h' -> entered h t fp w -> entered h' t fp w.
Proof. intros Hk. unfold entered. destruct t; auto. Qed.

Lemma visits_below (h : list value) (all : list StructField) (pl : place) (i : nat)
    (f : StructField) (st : rtype) (w : place) (t' : rtype) (pl' : place) :
  all !! i = Some f -> struct_below (Typ f) = Some st ->
  entered h (Typ f) (field_place pl i) w ->
  visits h st w t' pl' -> visits h (TStruct all) pl t' pl'.
Proof.
  intros Hf Hst Hw Hv. unfold entered in Hw.
  destruct (Typ f) as [| | | | | |e| |fs'|] eqn:Hty; try discriminate.
  - destruct e as [| | | | | | | |fs'|]; try discriminate. injection Hst as <-.
    eapply visits_pointer; eauto.
  - injection Hst as <-. subst w. eapply visits_field; eauto.
Qed.

Lemma struct_pointer_field_old (types more : list rtype) (h h' : list value)
    (t : rtype) (pl q : place) (x : value) :
  well_typed types h -> well_typed (types ++ more) h' ->
  only_fills types (length h) h h' -> fresh_zero (types ++ more) (length h) h' ->
  place_type types pl = Some t -> heap_get h q = Some x ->
  struct_pointer_field h' t pl q -> struct_pointer_field h t pl q.
Proof.
  intros Hh Hh' Hfill Hz Hpl Hq (fs0 & v & j & g & fs'' & Hv & Hg & Hty & ->).
  destruct (visits_old types more h h' Hh Hh' Hfill Hz _ _ _ _ Hv Hpl) as [Hold|Hnew].
  - exists fs0, v, j, g, fs''. auto.
  - apply heap_get_lt in Hq. cbn [field_place fst] in Hq. lia.
Qed.

Lemma parse_field_fills (ext : Extern) (p : Parser)
    (recur : rtype -> Value -> M (bool * option error)) (types : list rtype)
    (config : Value) (i : nat) (f : StructField) (all : list StructField)
    (tagFound : bool) (s : state) :
  Lookup (reflect.Tag f) (Tag p) = None ->
  (forall st, struct_below (Typ f) = Some st ->
     exported f = true /\
     forall types1 v s1,
       flagStickyRO v = false -> well_typed types1 (heap s1) ->
       place_type types1 (ref v) = Some st ->
       fills_in types1 s1 false (struct_pointer_field (heap s1) st (ref v))
         (fun h => filled h st (ref v)) (recur st v s1)) ->
  flagStickyRO config = false ->
  well_typed types (heap s) ->
  place_type types (ref config) = Some (TStruct all) ->
  all !! i = Some f ->
  fills_in types s tagFound
    (struct_pointer_field (heap s) (TStruct all) (ref config))
    (fun h => filled_field h (ref config) i f)
    (parse_field ext p recur config i f tagFound s).
Proof.
  intros Htag Hrec Hsticky Hh Hpl Hf.
  rewrite parse_field_eq, (parseTag_untagged _ _ Htag). cbn [Tagged tagData0].
  rewrite (bind_Ret (ret (tagFound, None)) _ s s (tagFound, None) eq_refl).
  cbv beta iota.
  destruct (struct_below (Typ f)) as [st|] eqn:Hst.
  2:{ apply fills_in_ret; [assumption|]. intros h _ st Hst'. congruence. }
  destruct (Hrec st eq_refl) as [Hexp Hsub].
  destruct (enter_struct_fills types f (Field config i f) st s Hst)
    as (s1 & types1 & value' & Henter & Hcalls1 & Hh1 & Hpl1 & Hsticky1 & Hfill1
        & Hz1 & Hch1 & Hent & Hwhere);
    try assumption.
  { unfold flagRO, Field; cbn [flagStickyRO flagEmbedRO]. now rewrite Hsticky, Hexp. }
  { reflexivity. }
  { eapply place_type_field; eauto. }
  destruct (Hsub (types ++ types1) value' s1 Hsticky1 Hh1 Hpl1)
    as (s2 & types2 & Hsub2 & Hcalls2 & Hh2 & Hfill2 & Hz2 & Hch2 & Hdone2).
  unfold descend. rewrite (bind_Ret _ _ _ _ _ Henter), (bind_Ret _ _ _ _ _ Hsub2).
  cbn [Tagged tagData0 andb fst snd].
  pose proof (proj1 (Hfill1 _ (le_n _))) as Hlen1.
  assert (Hkeep12 : keeps_pointers (heap s1) (heap s2)).
  { eapply only_fills_keeps; [exact Hh1|]. apply (Hfill2 _ (le_n _)). }
  change (ref (Field config i f)) with (field_place (ref config) i) in *.
  exists s2, (types1 ++ types2). rewrite app_assoc.
  splits; try assumption; try reflexivity; [congruence| | | |].
  - intros n Hn. eapply only_fills_trans; [now apply Hfill1|].
    eapply only_fills_narrow, Hfill2. lia.
  - eapply fresh_zero_trans; try eassumption; [lia|]. apply Hfill2. lia.
  - (* the places changed *)
    intros q Hq Hq'.
    assert (Hcase : heap_get (heap s1) q = Some (VPtr None) \/
                    heap_get (heap s1) q <> Some (VPtr None)).
    { destruct (heap_get (heap s1) q) as [[| | | | |[tg|]| | |]|];
        (now left) || (right; discriminate). }
    destruct Hcase as [Hq1|Hq1].
    + destruct (Hch2 q Hq1 Hq') as (fs0 & v & j & g & fs'' & Hv & Hg & Hty & ->).
      destruct Hwhere as [Hsame|Hnew].
      * rewrite Hsame in Hv, Hent. exists fs0, v, j, g, fs''.
        splits; try assumption; try reflexivity.
        eapply visits_below; eauto.
      * pose proof (visits_fresh _ _ _ Hh1 Hz1 _ _ _ _ Hv Hnew) as Hv'.
        apply heap_get_lt in Hq. cbn [field_place fst] in Hq. lia.
    + destruct (Hch1 q Hq Hq1) as [-> Hty].
      destruct (struct_below_struct _ _ Hst) as [fs' ->].
      exists all, (ref config), i, f, fs'. splits; try assumption; try reflexivity.
      constructor.
  - (* what is filled *)
    intros h Hk st' Hst'. rewrite Hst in Hst'. injection Hst' as <-. exists (ref value'). split.
    + eapply entered_keeps; [|exact Hent]. eapply keeps_pointers_trans; eauto.
    + now apply Hdone2.
Qed.

Lemma parse_fields_fills (ext : Extern) (p : Parser)
    (recur : rtype -> Value -> M (bool * option error)) (config : Value)
    (fs : list StructField) :
  Forall (fun f => forall st, struct_below (Typ f) = Some st ->
            untagged (Tag p) st = true -> structs_exported st = true ->
            forall types1 v s1,
              flagStickyRO v = false -> well_typed types1 (heap s1) ->
              place_type types1 (ref v) = Some st ->
              fills_in types1 s1 false (struct_pointer_field (heap s1) st (ref v))
                (fun h => filled h st (ref v)) (recur st v s1)) fs ->
  untagged (Tag p) (TStruct fs) = true ->
  structs_exported (TStruct fs) = true ->
  flagStickyRO config = false ->
  forall pre types tagFound s,
    well_typed types (heap s) ->
    place_type types (ref config) = Some (TStruct (pre ++ fs)) ->
    fills_in types s tagFound
      (struct_pointer_field (heap s) (TStruct (pre ++ fs)) (ref config))
      (fun h => forall j g, length pre <= j -> (pre ++ fs) !! j = Some g ->
                            filled_field h (ref config) j g)
      (parse_fields ext p recur config fs (length pre) tagFound s).
Proof.
  intros Hfs. induction Hfs as [|f fs Hf _ IH];
    intros Hun Hex Hsticky pre types tf s Hh Hpl.
  - apply fills_in_ret; [assumption|]. intros h _ j g Hj Hg.
    apply lookup_lt_Some in Hg. rewrite app_nil_r in Hg. lia.
  - apply untagged_cons in Hun as (Htag & Hun_below & Hun_rest).
    apply structs_exported_cons in Hex as (Hex_below & Hex_rest).
    cbn [parse_fields].
    destruct (parse_field_fills ext p recur types config (length pre) f
                (pre ++ f :: fs) tf s Htag)
      as (s1 & types1 & Hstep & Hcalls1 & Hh1 & Hfill1 & Hz1 & Hch1 & Hdone1);
      try assumption.
    { intros st Hst. destruct (Hex_below st Hst) as [Hexp Hex_st].
      split; [assumption|]. apply Hf; auto. }
    { now apply list_lookup_middle. }
    rewrite (bind_Ret _ _ _ _ _ Hstep). cbv beta iota.
    specialize (IH Hun_rest Hex_rest Hsticky (pre ++ [f]) (types ++ types1) tf s1 Hh1).
    rewrite <- app_assoc in IH. cbn [app] in IH.
    destruct IH as (s2 & types2 & Hrest & Hcalls2 & Hh2 & Hfill2 & Hz2 & Hch2 & Hdone2).
    { now apply place_type_weaken. }
    rewrite length_app, Nat.add_1_r in Hrest.
    pose proof (proj1 (Hfill1 _ (le_n _))) as Hlen1.
    assert (Hkeep12 : keeps_pointers (heap s1) (heap s2)).
    { eapply only_fills_keeps; [exact Hh1|]. apply (Hfill2 _ (le_n _)). }
    exists s2, (types1 ++ types2). rewrite app_assoc.
    splits; try assumption; try reflexivity; [congruence| | | |].
    + intros n Hn. eapply only_fills_trans; [now apply Hfill1|].
      eapply only_fills_narrow, Hfill2. lia.
    + eapply fresh_zero_trans; try eassumption; [lia|]. apply Hfill2. lia.
    + intros q Hq Hq'.
      assert (Hcase : heap_get (heap s1) q = Some (VPtr None) \/
                      heap_get (heap s1) q <> Some (VPtr None)).
      { destruct (heap_get (heap s1) q) as [[| | | | |[tg|]| | |]|];
          (now left) || (right; discriminate). }
      destruct Hcase as [Hq1|Hq1]; [|now apply Hch1].
      eapply struct_pointer_field_old; try eassumption.
      * apply (Hfill1 _ (le_n _)).
      * now apply Hch2.
    + intros h Hk j g Hj Hg.
      destruct (decide (j = length pre)) as [->|Hne].
      * rewrite list_lookup_middle in Hg by reflexivity. injection Hg as <-.
        apply Hdone1. eapply keeps_pointers_trans; eauto.
      * apply Hdone2; [assumption| |assumption]. rewrite length_app. cbn. lia.
Qed.

Lemma parse_fills (ext : Extern) (p : Parser) (t : rtype) :
  untagged (Tag p) t = true -> structs_exported t = true ->
  forall types v s,
    flagStickyRO v = false -> well_typed types (heap s) ->
    place_type types (ref v) = Some t -> (exists fs, t = TStruct fs) ->
    fills_in types s false (struct_pointer_field (heap s) t (ref v))
      (fun h => filled h t (ref v)) (parse ext p t v s).
Proof.
  induction t as [t Ht|fs IH] using rtype_struct_ind;
    intros Hun Hex types v s Hsticky Hh Hpl Hstruct.
  - destruct Hstruct as [fs ->]. now destruct (Ht fs).
  - rewrite parse_struct.
    eapply fills_in_done;
      [|apply (parse_fields_fills ext p (parse ext p) v fs) with (pre := []);
        try assumption].
    + cbn beta. intros h Hfields. apply filled_of_fields.
      intros i f Hi. apply Hfields; [cbn; lia|exact Hi].
    + eapply List.Forall_impl; [|exact IH]. cbn beta.
      intros f Hf st Hst Hun_st Hex_st types1 v1 s1 Hsticky1 Hh1 Hpl1.
      apply Hf; try assumption. now apply struct_below_struct in Hst.
Qed.

(** C1, as the code has it: on a record without annotated fields whose
    struct and pointer-to-struct fields are exported, [Get] succeeds and
    never calls the lookup function.  It replaces the nil pointer-to-struct
    fields of the structs it goes through, those of the record and of the
    structs below it, by pointers to newly allocated objects, and does
    nothing else: every other place of memory, in the record or outside
    it, keeps its value ([kept_but_for]); afterwards no such field is nil
    ([filled]); and each new object holds the zero value of its struct, its
    own pointers to structs filled in the same way ([fresh_zero]).  Memory
    stays well-typed. *)
Theorem C1_untagged_record (ext : Extern) (p : Parser) (fs : list StructField)
    (pl : place) (s : state) (types : list rtype) :
  untagged (Tag p) (TStruct fs) = true ->
  structs_exported (TStruct fs) = true ->
  well_typed types (heap s) ->
  place_type types pl = Some (TStruct fs) ->
  exists s' types',
    Get ext p (Some (TPtr (TStruct fs), VPtr (Some pl))) s = (s', Ret None) /\
    calls s' = calls s /\
    only_fills types (length (heap s)) (heap s) (heap s') /\
    well_typed (types ++ types') (heap s') /\
    kept_but_for (heap s) (heap s') (TStruct fs) pl /\
    filled (heap s') (TStruct fs) pl /\
    fresh_zero (types ++ types') (length (heap s)) (heap s').
Proof.
  intros Hun Hex Hh Hpl.
  destruct (parse_fills ext p (TStruct fs) Hun Hex types
              (mkValue (TStruct fs) pl false false) s)
    as (s' & types' & Hparse & Hcalls & Hh' & Hfill & Hz & Hch & Hdone);
    try assumption; try reflexivity.
  { eauto. }
  cbn [ref] in Hch, Hdone.
  exists s', types'. splits; try assumption.
  - exact (Get_parse _ _ _ _ _ _ _ _ Hparse).
  - now apply Hfill.
  - intros q x Hq Hx.
    destruct (Hfill _ (le_n _)) as [_ Hobj]. pose proof Hq as Hq0. unfold heap_get in Hq.
    destruct (heap s !! fst q) as [x0|] eqn:Hx0; [|discriminate].
    destruct (well_typed_type_of _ _ _ _ Hh Hx0) as [t0 Ht0].
    destruct (Hobj _ _ _ Ht0 Hx0) as (y0 & Hy0 & Hxy).
    destruct (fills_leaf _ (snd q) x Hx _ _ _ Hxy Hq) as [Hsame|[-> (target & Hn & Hy)]].
    + left. unfold heap_get. now rewrite Hy0.
    + assert (Hq' : heap_get (heap s') q = Some (VPtr (Some target)))
        by (unfold heap_get; now rewrite Hy0).
      right. split; [reflexivity|]. split; [|eauto].
      apply Hch; [assumption|]. now rewrite Hq'.
  - apply Hdone, keeps_pointers_refl.
Qed.

(* ===================================================================== *)
(** ** The traversal at one field *)
(* ===================================================================== *)




(** C9, as the code has it: [setValue] on a value whose type is outside
    byte slice, string, the integers, the floats and bool fails with
    [ErrCannotSetKind] carrying the kind, whatever the bytes, and changes
    nothing.  So does the resolution of a tagged field without the json
    modifier whose value is found (and base64-decodes when base64 is
    declared), when the field is not a pointer; for a pointer field the
    pointee is allocated and it is the pointee's type that decides, and the
    pointee's kind that the error carries. *)
Theorem C9_cannot_set_kind (ext : Extern) (p : Parser) (v : Value) (tag : tagData)
    (raw : string) (bytes : list byte) (s : state) :
  JSON tag = false ->
  LookupFn p (Name tag) = Some raw ->
  (if Base64 tag then base64_DecodeString ext raw else inl (list_byte_of_string raw))
    = inl bytes ->
  (forall v' key' bytes' s',
     coercible (typ v') = false ->
     setValue ext v' key' bytes' s' = (s', Ret (Some (ErrCannotSetKind (kind (typ v')))))) /\
  ((forall e, typ v <> TPtr e) -> coercible (typ v) = false ->
     retrieve ext p v tag s =
     (called (Name tag) s, Ret (Some (ErrCannotSetKind (kind (typ v)))))) /\
  (forall elem x,
     typ v = TPtr elem -> coercible elem = false ->
     flagRO v = false -> heap_get (heap s) (ref v) = Some x ->
     exists h',
       retrieve ext p v tag s =
       (mkState h' (calls s ++ [Name tag]), Ret (Some (ErrCannotSetKind (kind elem)))) /\
       heap_get h' (ref v) = Some (VPtr (Some (length (heap s), [])))).
Proof.
  intros Hjson Hlook Hdec.
  assert (Hset : forall v' key' bytes' s',
     coercible (typ v') = false ->
     setValue ext v' key' bytes' s' = (s', Ret (Some (ErrCannotSetKind (kind (typ v')))))).
  { intros v' key' bytes' s' Hc. now rewrite (setValue_not_coercible _ _ _ _ Hc). }
  split; [exact Hset|].
  pose proof (retrieve_found ext p v tag raw s Hlook) as Hret.
  rewrite Hdec, Hjson in Hret.
  split.
  - intros Hnp Hc. rewrite Hret.
    assert (Hv : match typ v with
                 | TPtr elem => fresh <- New elem ;; Set_ v fresh ;;; Elem v
                 | _ => ret v
                 end = ret v).
    { destruct (typ v) as [| | | | | |e| | |]; try reflexivity. now destruct (Hnp e). }
    rewrite Hv, (bind_Ret (ret v) _ _ _ v eq_refl). now apply Hset.
  - intros elem x Ht Hc Hro Hx. rewrite Hret, Ht.
    assert (Hx' : heap_get (heap s ++ [Zero elem]) (ref v) = Some x)
      by now apply heap_get_app.
    destruct (heap_set_defined _ _ _ (VPtr (Some (length (heap s), []))) Hx') as [h' Hh'].
    exists h'. split; [|exact (heap_get_set _ _ _ _ Hh')].
    rewrite !bind_assoc, (bind_Ret _ _ _ _ _ (New_eq _ _)).
    rewrite bind_assoc. cbn [called heap calls].
    rewrite (bind_Ret _ _ _ _ _
               (Set_eq v _ (mkState (heap s ++ [Zero elem]) (calls s ++ [Name tag]))
                  h' Hro Hh')).
    rewrite (bind_Ret _ _ _ _ _
               (Elem_eq v (mkState h' (calls s ++ [Name tag])) elem
                  (length (heap s), []) Ht (heap_get_set _ _ _ _ Hh'))).
    now apply Hset.
Qed.

(* ===================================================================== *)
(** ** The flag of a traversal and the origin of its errors *)
(* ===================================================================== *)

Lemma bind_inv {A B} (m : M A) (k : A -> M B) (s s' : state) (b : B) :
  bind m k s = (s', Ret b) ->
  exists s1 a, m s = (s1, Ret a) /\ k a s1 = (s', Ret b).
Proof.
  unfold bind. destruct (m s) as [s1 [a| |]]; intros H; try discriminate. eauto.
Qed.

Lemma ret_inv {A} (a b : A) (s s' : state) :
  ret a s = (s', Ret b) -> s' = s /\ b = a.
Proof. unfold ret. intros H. injection H as -> ->. now split. Qed.

Lemma parseTag_Tagged (f : StructField) (key : string) (tag : tagData) :
  parseTag f key = (tag, None) -> Tagged tag = annotated key f.
Proof.
  unfold parseTag, annotated. destruct (Lookup (reflect.Tag f) key) as [tags|].
  - destruct (String.length _ =? 0)%nat; [discriminate|].
    rewrite parseTag_options_spec.
    destruct (find _ _); [discriminate|]. intros H. injection H as <-. reflexivity.
  - intros H. injection H as <-. reflexivity.
Qed.

Lemma reached_fields_cons (f : StructField) (fs : list StructField) :
  reached_fields (TStruct (f :: fs)) =
  f :: fields_below f ++ reached_fields (TStruct fs).
Proof.
  cbn [reached_fields flat_map]. unfold fields_below, struct_below.
  destruct (Typ f) as [| | | | | |e| | |]; try reflexivity.
  destruct e; reflexivity.
Qed.

Lemma origin_incl (ext : Extern) (p : Parser) (t t' : rtype) (s0 s' : state) (e : error) :
  (forall f, In f (reached_fields t) -> In f (reached_fields t')) ->
  origin ext p t s0 s' e -> origin ext p t' s0 s' e.
Proof.
  intros Hin [f tag e' Hf Htag|f tag v s pre e' Hf Htag Ht Hv Hpre Hr|f tag st Hf Htag Ht Hst Hd].
  - eapply origin_tag; eauto.
  - eapply origin_retrieve; eauto.
  - eapply origin_nested; eauto.
Qed.

Lemma origin_rebase (ext : Extern) (p : Parser) (t : rtype) (s0 s1 s' : state)
    (made : list string) (e : error) :
  calls s1 = calls s0 ++ made ->
  origin ext p t s1 s' e -> origin ext p t s0 s' e.
Proof.
  intros Hc [f tag e' Hf Htag|f tag v s pre e' Hf Htag Ht Hv Hpre Hr|f tag st Hf Htag Ht Hst Hd].
  - eapply origin_tag; eauto.
  - eapply origin_retrieve with (pre := made ++ pre); eauto.
    rewrite Hpre, Hc. now rewrite app_assoc.
  - eapply origin_nested; eauto.
Qed.

(** The flag a step of the loop returns: set when the field is annotated,
    otherwise as it was. *)
Lemma parse_field_found (ext : Extern) (p : Parser)
    (recur : rtype -> Value -> M (bool * option error))
    (config : Value) (i : nat) (f : StructField) (tagFound : bool)
    (s s' : state) (tf : bool) (err : option error) :
  parse_field ext p recur config i f tagFound s = (s', Ret (tf, err)) ->
  (tf = true -> tagFound || annotated (Tag p) f = true) /\
  (err = None -> tf = tagFound || annotated (Tag p) f).
Proof.
  rewrite parse_field_eq.
  destruct (parseTag f (Tag p)) as [tag [e|]] eqn:Htag.
  - intros H. apply ret_inv in H as [_ H]. injection H as -> ->.
    split; [intros ->; reflexivity|discriminate].
  - apply parseTag_Tagged in Htag. rewrite <- Htag.
    intros H. apply bind_inv in H as (s1 & [tf1 e1] & H1 & H2).
    assert (Htf1 : tf1 = tagFound || Tagged tag).
    { destruct (Tagged tag).
      - apply bind_inv in H1 as (s2 & e2 & _ & H1). apply ret_inv in H1 as [_ H1].
        injection H1 as -> _. now rewrite orb_true_r.
      - apply ret_inv in H1 as [_ H1]. injection H1 as -> _. now rewrite orb_false_r. }
    assert (Htf : tf = tf1).
    { destruct e1 as [e1|].
      - apply ret_inv in H2 as [_ H2]. now injection H2 as -> _.
      - destruct (struct_below (Typ f)) as [st|].
        + unfold descend in H2.
          apply bind_inv in H2 as (s2 & v2 & _ & H2).
          apply bind_inv in H2 as (s3 & r3 & _ & H2).
          destruct (Tagged tag && fst r3); apply ret_inv in H2 as [_ H2];
            now injection H2 as -> _.
        + apply ret_inv in H2 as [_ H2]. now injection H2 as -> _. }
    subst tf tf1. split; [now intros ->|reflexivity].
Qed.

Lemma parse_fields_found (ext : Extern) (p : Parser)
    (recur : rtype -> Value -> M (bool * option error)) (config : Value)
    (fs : list StructField) :
  forall i tagFound s s' tf err,
    parse_fields ext p recur config fs i tagFound s = (s', Ret (tf, err)) ->
    (tf = true -> tagFound || existsb (annotated (Tag p)) fs = true) /\
    (err = None -> tf = tagFound || existsb (annotated (Tag p)) fs).
Proof.
  induction fs as [|f fs IH]; intros i tagFound s s' tf err H; cbn [parse_fields existsb] in *.
  - apply ret_inv in H as [_ H]. injection H as -> ->. rewrite orb_false_r.
    split; [now intros ->|reflexivity].
  - apply bind_inv in H as (s1 & [tf1 e1] & H1 & H2).
    apply parse_field_found in H1 as [Ha Hb].
    destruct e1 as [e1|].
    + apply ret_inv in H2 as [_ H2]. injection H2 as -> ->.
      split; [|discriminate]. intros Htf. specialize (Ha Htf).
      rewrite orb_assoc, Ha. reflexivity.
    + specialize (Hb eq_refl). subst tf1. apply IH in H2 as [Hc Hd].
      rewrite orb_assoc. now split.
Qed.

(** The flag [parse] returns says whether a field of the struct itself is
    annotated; fields of structs below do not count. *)
Lemma parse_found (ext : Extern) (p : Parser) (t : rtype) (v : Value) (s s' : state)
    (tf : bool) (err : option error) :
  parse ext p t v s = (s', Ret (tf, err)) ->
  (tf = true -> directly_tagged (Tag p) t = true) /\
  (err = None -> tf = directly_tagged (Tag p) t).
Proof.
  destruct t; try discriminate.
  rewrite parse_struct. intros H. apply parse_fields_found in H. exact H.
Qed.

Lemma keeps_eq {A} (m : M A) (s s' : state) (o : outcome A) :
  keeps_calls m -> m s = (s', o) -> calls s' = calls s.
Proof. intros Hk H. specialize (Hk s). now rewrite H in Hk. Qed.

Lemma follows_grows (declared before : list string) (s' : state)
    (o : outcome (bool * option error)) :
  follows declared before (s', o) -> exists made, calls s' = before ++ made.
Proof. intros (made & H & _). now exists made. Qed.

Lemma In_reached_self (f : StructField) (fs : list StructField) :
  In f (reached_fields (TStruct (f :: fs))).
Proof. rewrite reached_fields_cons. now left. Qed.

Lemma In_reached_below (f g : StructField) (fs : list StructField) (st : rtype) :
  struct_below (Typ f) = Some st -> In g (reached_fields st) ->
  In g (reached_fields (TStruct (f :: fs))).
Proof.
  intros Hst Hg. rewrite reached_fields_cons. right. apply in_or_app. left.
  unfold fields_below. now rewrite Hst.
Qed.

Lemma In_reached_rest (f g : StructField) (fs : list StructField) :
  In g (reached_fields (TStruct fs)) -> In g (reached_fields (TStruct (f :: fs))).
Proof.
  intros Hg. rewrite reached_fields_cons. right. apply in_or_app. now right.
Qed.

Lemma parse_field_origin (ext : Extern) (p : Parser)
    (recur : rtype -> Value -> M (bool * option error))
    (config : Value) (i : nat) (f : StructField) (fs : list StructField)
    (tagFound : bool) (s s' : state) (tf : bool) (e : error) :
  (forall st, struct_below (Typ f) = Some st ->
     forall v s1 s2 tf' err,
       recur st v s1 = (s2, Ret (tf', err)) ->
       (tf' = true -> directly_tagged (Tag p) st = true) /\
       (forall e', err = Some e' -> origin ext p st s1 s2 e')) ->
  parse_field ext p recur config i f tagFound s = (s', Ret (tf, Some e)) ->
  origin ext p (TStruct (f :: fs)) s s' e.
Proof.
  intros Hrec. rewrite parse_field_eq.
  destruct (parseTag f (Tag p)) as [tag [e0|]] eqn:Htag.
  { intros H. apply ret_inv in H as [_ H]. injection H as _ ->.
    eapply origin_tag; [apply In_reached_self|exact Htag]. }
  intros H. apply bind_inv in H as (s1 & [tf1 e1] & H1 & H2).
  assert (Hs1 : (exists pre, calls s1 = calls s ++ pre) /\
                (forall e1', e1 = Some e1' ->
                   Tagged tag = true /\
                   retrieve ext p (Field config i f) tag s = (s1, Ret (Some e1'))) /\
                (Tagged tag = true -> tf1 = true)).
  { destruct (Tagged tag).
    - apply bind_inv in H1 as (s2 & e2 & Hr & H1). apply ret_inv in H1 as [-> H1].
      injection H1 as -> ->. splits.
      + exists [Name tag]. pose proof (retrieve_calls ext p (Field config i f) tag s) as Hc.
        now rewrite Hr in Hc.
      + intros e1' ->. now split.
      + reflexivity.
    - apply ret_inv in H1 as [-> H1]. injection H1 as -> ->. splits.
      + exists []. now rewrite app_nil_r.
      + discriminate.
      + discriminate. }
  destruct Hs1 as ((pre & Hpre) & Herr & Htf1).
  destruct e1 as [e1|].
  { apply ret_inv in H2 as [-> H2]. injection H2 as _ <-.
    destruct (Herr e eq_refl) as [Ht Hr].
    eapply origin_retrieve with (v := Field config i f) (pre := []);
      [apply In_reached_self|exact Htag|exact Ht|reflexivity| |exact Hr].
    now rewrite app_nil_r. }
  destruct (struct_below (Typ f)) as [st|] eqn:Hst.
  2:{ apply ret_inv in H2 as [_ H2]. discriminate H2. }
  unfold descend in H2.
  apply bind_inv in H2 as (s2 & v2 & He & H2).
  apply bind_inv in H2 as (s3 & [tf3 e3] & Hsub & H2).
  pose proof (keeps_eq _ _ _ _ (keeps_enter_struct f (Field config i f)) He) as Hc2.
  destruct (Hrec st eq_refl _ _ _ _ _ Hsub) as [Hfound Horigin].
  cbn [fst snd] in H2.
  destruct (Tagged tag) eqn:Ht; cbn [andb] in H2.
  - destruct tf3.
    + apply ret_inv in H2 as [-> H2]. injection H2 as _ ->.
      eapply origin_nested; [apply In_reached_self|exact Htag|exact Ht|exact Hst|].
      now apply Hfound.
    + apply ret_inv in H2 as [-> H2]. injection H2 as _ He3.
      apply origin_rebase with (s1 := s2) (made := pre); [congruence|].
      eapply origin_incl; [|apply Horigin; now symmetry].
      intros g Hg. eapply In_reached_below; eassumption.
  - apply ret_inv in H2 as [-> H2]. injection H2 as _ He3.
    apply origin_rebase with (s1 := s2) (made := pre); [congruence|].
    eapply origin_incl; [|apply Horigin; now symmetry].
    intros g Hg. eapply In_reached_below; eassumption.
Qed.

Lemma parse_fields_origin (ext : Extern) (p : Parser)
    (recur : rtype -> Value -> M (bool * option error)) (config : Value)
    (fs : list StructField) :
  Forall (fun f => forall st, struct_below (Typ f) = Some st ->
            forall v s1,
              follows (declared_names (Tag p) st) (calls s1) (recur st v s1) /\
              forall s2 tf' err,
                recur st v s1 = (s2, Ret (tf', err)) ->
                (tf' = true -> directly_tagged (Tag p) st = true) /\
                (forall e', err = Some e' -> origin ext p st s1 s2 e')) fs ->
  forall i tagFound s s' tf e,
    parse_fields ext p recur config fs i tagFound s = (s', Ret (tf, Some e)) ->
    origin ext p (TStruct fs) s s' e.
Proof.
  induction 1 as [|f fs Hf Hfs IH]; intros i tagFound s s' tf e H; cbn [parse_fields] in H.
  - apply ret_inv in H as [_ H]. discriminate H.
  - apply bind_inv in H as (s1 & [tf1 e1] & H1 & H2).
    destruct e1 as [e1|].
    + apply ret_inv in H2 as [-> H2]. injection H2 as _ ->.
      eapply parse_field_origin; [|exact H1].
      intros st Hst v sa sb tf' err Hsub.
      exact (proj2 (Hf st Hst v sa) sb tf' err Hsub).
    + assert (Hgrow : exists made, calls s1 = calls s ++ made).
      { pose proof (parse_field_calls ext p recur config i f tagFound s
                      (fun st Hst v sa => proj1 (Hf st Hst v sa))) as Hc.
        rewrite H1 in Hc. eapply follows_grows; exact Hc. }
      destruct Hgrow as [made Hmade].
      apply origin_rebase with (s1 := s1) (made := made); [assumption|].
      eapply origin_incl; [|eapply IH; exact H2].
      intros g. apply In_reached_rest.
Qed.

(** An error of [parse] comes from a field the traversal can reach. *)
Lemma parse_origin (ext : Extern) (p : Parser) (t : rtype) :
  forall v s s' tf e,
    parse ext p t v s = (s', Ret (tf, Some e)) -> origin ext p t s s' e.
Proof.
  induction t as [t Ht|fs IH] using rtype_struct_ind; intros v s s' tf e H.
  - destruct t; try discriminate H. now destruct (Ht fields).
  - rewrite parse_struct in H. eapply parse_fields_origin; [|exact H].
    eapply List.Forall_impl; [|exact IH]. intros f Hf st Hst v1 s1. split.
    + apply parse_calls.
    + intros s2 tf' err Hsub. split.
      * intros ->. apply parse_found in Hsub. now apply Hsub.
      * intros e' ->. eapply Hf; eassumption.
Qed.

(* ===================================================================== *)
(** ** What the setters store *)
(* ===================================================================== *)

Lemma heap_set_none (h : list value) (pl : place) (new : value) :
  heap_set h pl new = None -> heap_get h pl = None.
Proof.
  intros H. destruct (heap_get h pl) as [y|] eqn:Hget; [|reflexivity].
  destruct (heap_set_defined h pl y new Hget) as [h' Hset]. congruence.
Qed.

(** A setter followed by [return nil]: one store when the field may be
    set. *)
Lemma assign_cases (v : Value) (x : value) (s : state) :
  match ((mustBeAssignable v ;;; store v x) ;;; ret (@None error)) s with
  | (s', Ret None) =>
      flagRO v = false /\ calls s' = calls s /\
      heap_set (heap s) (ref v) x = Some (heap s')
  | (s', Ret (Some _)) => False
  | (s', Panic _) => s' = s /\ flagRO v = true
  | (s', Fault) => s' = s /\ flagRO v = false /\ heap_get (heap s) (ref v) = None
  end.
Proof.
  unfold bind, mustBeAssignable, store, panic, ret.
  destruct (flagRO v); [now split|].
  destruct (heap_set (heap s) (ref v) x) as [h'|] eqn:Hset.
  - cbn. now splits.
  - splits; try reflexivity. eapply heap_set_none; eassumption.
Qed.

Lemma coerces_store (ext : Extern) (v : Value) (key : string) (bytes : list byte)
    (s : state) (x : value) :
  coerced ext bytes (typ v) x ->
  coerces ext v key bytes s (((mustBeAssignable v ;;; store v x) ;;; ret None) s).
Proof.
  intros Hx. pose proof (assign_cases v x s) as H. unfold coerces.
  destruct (((mustBeAssignable v ;;; store v x) ;;; ret None) s) as [s' [[e|]| |]].
  - contradiction.
  - destruct H as (Hro & Hc & Hs). splits; try assumption. now exists x.
  - destruct H as (Hs & Hro). splits; try assumption. now exists x.
  - assumption.
Qed.

Lemma coerces_error (ext : Extern) (v : Value) (key : string) (bytes : list byte)
    (s : state) (e : error) :
  coercion_error ext (typ v) key (string_of_list_byte bytes) e ->
  coerces ext v key bytes s (s, Ret (Some e)).
Proof. intros H. now split. Qed.

(** [setValue] stores at most once, in the field, and only when it
    succeeds. *)
Lemma setValue_coerces (ext : Extern) (v : Value) (key : string) (bytes : list byte)
    (s : state) :
  coerces ext v key bytes s (setValue ext v key bytes s).
Proof.
  destruct (coercible (typ v)) eqn:Hco.
  2:{ rewrite setValue_not_coercible by assumption. apply coerces_error.
      now apply cannot_set_kind. }
  destruct (typ v) as [|w|w| | | |e|e|fs|k] eqn:Ht; try discriminate Hco.
  - (* bool *)
    unfold setValue, setValueToBool. rewrite Ht. cbn [kind].
    destruct (strconv.ParseBool _) as [b|err] eqn:Hp.
    + unfold SetBool. rewrite Ht. cbn [kind]. apply coerces_store.
      rewrite Ht. now apply coerced_bool.
    + apply coerces_error. rewrite Ht. now apply cannot_parse_bool.
  - (* int *)
    rewrite (setValue_int ext v w) by assumption. unfold setValueToInt.
    destruct (strconv.ParseInt _) as [z|err] eqn:Hp.
    + rewrite (OverflowInt_spec v w z Ht (ParseInt_range _ _ Hp)).
      unfold bind at 1. cbn [ret]. destruct (fits_int w z) eqn:Hfit; cbn [negb].
      * unfold SetInt. rewrite Ht.
        replace (match kind (TInt w) with
                 | Int | Int8 | Int16 | Int32 | Int64 =>
                     match kind_bits (kind (TInt w)) with
                     | Some n => store v (VInt (trunc_int n z))
                     | None => fault
                     end
                 | _ => panic "reflect: call of reflect.Value.SetInt on non-int Value"
                 end) with (store v (VInt z)).
        2:{ destruct w; cbn [kind kind_of_int kind_bits]; do 2 f_equal; symmetry;
            exact (trunc_int_fits _ z Hfit). }
        apply coerces_store. rewrite Ht. now apply coerced_int.
      * apply coerces_error. now apply overflow_int with (w := w) (z := z).
    + apply coerces_error. now apply cannot_parse_int with (w := w).
  - (* uint *)
    rewrite (setValue_uint ext v w) by assumption. unfold setValueToUint.
    destruct (strconv.ParseUint _) as [z|err] eqn:Hp.
    + rewrite (OverflowUint_spec v w z Ht (ParseUint_range _ _ Hp)).
      unfold bind at 1. cbn [ret]. destruct (fits_uint w z) eqn:Hfit; cbn [negb].
      * unfold SetUint. rewrite Ht.
        replace (match kind (TUint w) with
                 | Uint | Uintptr | Uint8 | Uint16 | Uint32 | Uint64 =>
                     match kind_bits (kind (TUint w)) with
                     | Some n => store v (VUint (trunc_uint n z))
                     | None => fault
                     end
                 | _ => panic "reflect: call of reflect.Value.SetUint on non-uint Value"
                 end) with (store v (VUint z)).
        2:{ destruct w; cbn [kind kind_of_uint kind_bits]; do 2 f_equal; symmetry;
            exact (trunc_uint_fits _ z (proj1 (ParseUint_range _ _ Hp)) Hfit). }
        apply coerces_store. rewrite Ht. now apply coerced_uint.
      * apply coerces_error. now apply overflow_uint with (w := w) (z := z).
    + apply coerces_error. now apply cannot_parse_uint with (w := w).
  - (* float32 *)
    rewrite setValue_float by (left; assumption). unfold setValueToFloat.
    destruct (strconv_ParseFloat ext _) as [f|err] eqn:Hp.
    + unfold OverflowFloat, SetFloat. rewrite Ht. cbn [kind].
      unfold bind at 1. cbn [ret]. destruct (overflowFloat32 ext f) eqn:Hov.
      * apply coerces_error. rewrite Ht.
        now apply overflow_float with (f := f).
      * apply coerces_store. rewrite Ht. now apply coerced_float32.
    + apply coerces_error. apply cannot_parse_float; [now left|assumption].
  - (* float64 *)
    rewrite setValue_float by (right; assumption). unfold setValueToFloat.
    destruct (strconv_ParseFloat ext _) as [f|err] eqn:Hp.
    + unfold OverflowFloat, SetFloat. rewrite Ht. cbn [kind].
      unfold bind at 1. cbn [ret].
      apply coerces_store. rewrite Ht. now apply coerced_float64.
    + apply coerces_error. apply cannot_parse_float; [now right|assumption].
  - (* string *)
    unfold setValue, SetString. rewrite Ht. cbn [kind].
    apply coerces_store. rewrite Ht. apply coerced_string.
  - (* byte slice *)
    destruct e as [|w|w| | | |e'|e'|fs|k]; try discriminate Hco.
    destruct w; try discriminate Hco.
    unfold setValue, SetBytes. rewrite Ht. cbn [kind].
    apply coerces_store. rewrite Ht. apply coerced_bytes.
Qed.

Lemma setValue_error (ext : Extern) (v : Value) (key : string) (bytes : list byte)
    (s s' : state) (e : error) :
  setValue ext v key bytes s = (s', Ret (Some e)) ->
  s' = s /\ coercion_error ext (typ v) key (string_of_list_byte bytes) e.
Proof.
  intros H. pose proof (setValue_coerces ext v key bytes s) as Hc.
  rewrite H in Hc. exact Hc.
Qed.

Lemma Elem_typ (v v' : Value) (s s' : state) :
  Elem v s = (s', Ret v') -> typ v' = coercion_target (typ v).
Proof.
  unfold Elem. intros H. apply bind_inv in H as (s1 & x & _ & H).
  destruct (typ v) as [| | | | | |t| | |]; try discriminate H.
  destruct x as [| | | | |[pl|]| | |]; try discriminate H.
  apply ret_inv in H as [_ ->]. reflexivity.
Qed.

(** The value scalar coercion is applied to has the target type. *)
Lemma coercion_target_typ (v v' : Value) (s s' : state) :
  match typ v with
  | TPtr elem => fresh <- New elem ;; Set_ v fresh ;;; Elem v
  | _ => ret v
  end s = (s', Ret v') ->
  typ v' = coercion_target (typ v).
Proof.
  destruct (typ v) as [| | | | | |t| | |] eqn:Ht;
    try (intros H; apply ret_inv in H as [_ ->]; now rewrite Ht).
  intros H. apply bind_inv in H as (s1 & x & _ & H).
  apply bind_inv in H as (s2 & u & _ & H).
  apply Elem_typ in H. now rewrite H, Ht.
Qed.

(** An error of [retrieve] says what happened to the value of the name. *)
Lemma retrieve_error (ext : Extern) (p : Parser) (v : Value) (tag : tagData)
    (s s' : state) (e : error) :
  retrieve ext p v tag s = (s', Ret (Some e)) ->
  calls s' = calls s ++ [Name tag] /\
  match LookupFn p (Name tag) with
  | None => e = ErrVarNotFound (Name tag) /\ Optional tag = false /\ heap s' = heap s
  | Some raw =>
      match (if Base64 tag then base64_DecodeString ext raw
             else inl (list_byte_of_string raw)) with
      | inr c =>
          e = ErrDecodeFailure c (Name tag) raw "base64" /\ Base64 tag = true /\
          heap s' = heap s
      | inl bytes =>
          if JSON tag
          then exists c iface h,
                 e = ErrDecodeFailure c (Name tag) raw "json" /\
                 snd (json_Unmarshal ext bytes iface h) = Some c
          else coercion_error ext (coercion_target (typ v)) (Name tag) (string_of_list_byte bytes) e
      end
  end.
Proof.
  intros H. split.
  { pose proof (retrieve_calls ext p v tag s) as Hc. now rewrite H in Hc. }
  destruct (LookupFn p (Name tag)) as [raw|] eqn:Hlook.
  2:{ rewrite retrieve_not_found in H by assumption.
      destruct (Optional tag); [discriminate H|].
      injection H as <- <-. now splits. }
  rewrite (retrieve_found ext p v tag raw) in H by assumption.
  destruct (Base64 tag) eqn:Hb64.
  - destruct (base64_DecodeString ext raw) as [bytes|c].
    2:{ injection H as <- <-. now splits. }
    destruct (JSON tag).
    + unfold decodeJSON in H.
      apply bind_inv in H as (s1 & iface & _ & H).
      apply bind_inv in H as (s2 & err & Hu & H).
      destruct err as [c|]; apply ret_inv in H as [_ H]; [|discriminate H].
      injection H as ->. exists c, iface, (heap s1). split; [reflexivity|].
      unfold Unmarshal in Hu. destruct (json_Unmarshal ext bytes iface (heap s1)).
      now injection Hu as _ ->.
    + apply bind_inv in H as (s1 & v' & Hv & H).
      apply coercion_target_typ in Hv. apply setValue_error in H as [_ H].
      now rewrite Hv in H.
  - destruct (JSON tag).
    + unfold decodeJSON in H.
      apply bind_inv in H as (s1 & iface & _ & H).
      apply bind_inv in H as (s2 & err & Hu & H).
      destruct err as [c|]; apply ret_inv in H as [_ H]; [|discriminate H].
      injection H as ->. exists c, iface, (heap s1). split; [reflexivity|].
      unfold Unmarshal in Hu. destruct (json_Unmarshal ext _ iface (heap s1)).
      now injection Hu as _ ->.
    + apply bind_inv in H as (s1 & v' & Hv & H).
      apply coercion_target_typ in Hv. apply setValue_error in H as [_ H].
      now rewrite Hv in H.
Qed.

Lemma own_name_reached (key : string) (t : rtype) :
  forall f name, In f (reached_fields t) -> In name (own_name key f) ->
                 In name (declared_names key t).
Proof.
  induction t as [t Ht|fs IH] using rtype_struct_ind; intros f name Hf Hname.
  - destruct t; try contradiction. now destruct (Ht fields).
  - induction IH as [|g fs Hg Hfs IHfs].
    + contradiction.
    + rewrite declared_names_cons. rewrite reached_fields_cons in Hf.
      destruct Hf as [->|Hf]; [apply in_or_app; now left|].
      apply in_or_app. right. apply in_or_app.
      apply in_app_or in Hf as [Hf|Hf].
      * left. unfold fields_below in Hf. unfold names_below.
        destruct (struct_below (Typ g)) as [st|] eqn:Hst; [|contradiction].
        eapply Hg; eauto.
      * right. now apply IHfs.
Qed.

(** What [Get] returns for an error of the traversal. *)
Lemma Get_origin (ext : Extern) (p : Parser) (config : option (rtype * value))
    (s s' : state) (e : error) :
  Get ext p config s = (s', Ret (Some e)) ->
  match config with
  | Some (TPtr (TStruct fs), _) => origin ext p (TStruct fs) s s' e
  | Some (t, _) => e = ErrInvalidConfigType t /\ s' = s
  | None => False
  end.
Proof.
  unfold Get. destruct config as [[t x]|]; [|discriminate].
  destruct t as [| | | | | |t| | |];
    try (intros H; apply ret_inv in H as [-> H]; injection H as ->; now split).
  destruct t as [| | | | | | | |fs|];
    try (intros H; apply ret_inv in H as [-> H]; injection H as ->; now split).
  destruct x as [| | | | |[pl|]| | |]; try discriminate.
  intros H. apply bind_inv in H as (s1 & [tf err] & H1 & H).
  apply ret_inv in H as [-> H]. cbn [snd] in H. subst err.
  eapply parse_origin; exact H1.
Qed.

(** A value that coerces raises no error of coercion. *)
Lemma coerced_no_error (ext : Extern) (bytes : list byte) (t : rtype) (x : value)
    (key : string) (e : error) :
  coerced ext bytes t x ->
  coercion_error ext t key (string_of_list_byte bytes) e -> False.
Proof.
  intros Hx He.
  destruct Hx; inversion He; subst; try discriminate; try congruence.
  all: repeat match goal with
         | H : _ \/ _ |- _ => destruct H
         | H : TInt _ = TInt _ |- _ => injection H as ->
         | H : TUint _ = TUint _ |- _ => injection H as ->
         end; try discriminate; congruence.
Qed.

(** Coercion is a function of the bytes and the type. *)
Lemma coerced_functional (ext : Extern) (bytes : list byte) (t : rtype) (x y : value) :
  coerced ext bytes t x -> coerced ext bytes t y -> x = y.
Proof.
  intros Hx Hy. destruct Hx; inversion Hy; subst; congruence.
Qed.

(** X1: [setValue] writes at most once, into the field and only when it
    returns nil; the value it writes is the coercion of the bytes to the
    field's type.  With an error of the coercion memory is as it was.  It
    panics, memory as it was, exactly when the bytes coerce but the field
    was reached through an unexported field. *)
Theorem setValue_stores_once (ext : Extern) (v : Value) (key : string)
    (bytes : list byte) (s : state) :
  match setValue ext v key bytes s with
  | (s', Ret None) =>
      flagRO v = false /\ calls s' = calls s /\
      exists x, coerced ext bytes (typ v) x /\
                heap_set (heap s) (ref v) x = Some (heap s')
  | (s', Ret (Some e)) =>
      s' = s /\ coercion_error ext (typ v) key (string_of_list_byte bytes) e
  | (s', Panic _) =>
      s' = s /\ flagRO v = true /\ exists x, coerced ext bytes (typ v) x
  | (s', Fault) =>
      s' = s /\ flagRO v = false /\ heap_get (heap s) (ref v) = None
  end /\
  (forall x, coerced ext bytes (typ v) x -> flagRO v = true ->
     exists msg, setValue ext v key bytes s = (s, Panic msg)).
Proof.
  pose proof (setValue_coerces ext v key bytes s) as H. split; [exact H|].
  intros x Hx Hro.
  destruct (setValue ext v key bytes s) as [s' [[e|]| |]]; cbn [coerces] in H.
  - destruct H as [_ He]. now destruct (coerced_no_error _ _ _ _ _ _ Hx He).
  - destruct H as (Hro' & _). congruence.
  - destruct H as (-> & _). now exists msg.
  - destruct H as (_ & Hro' & _). congruence.
Qed.

(* ===================================================================== *)
(** ** What an error says *)
(* ===================================================================== *)

Lemma parseTag_error (f : StructField) (key : string) (tag : tagData) (e : error) :
  parseTag f key = (tag, Some e) ->
  exists tags,
    Lookup (reflect.Tag f) key = Some tags /\
    ((e = ErrMissingNameTag tags /\ hd "" (strings.Split tags) = "") \/
     (exists bad, e = ErrInvalidTagOption tags bad /\
                  In bad (tl (strings.Split tags)) /\ modifier bad = false)).
Proof.
  unfold parseTag. destruct (Lookup (reflect.Tag f) key) as [tags|]; [|discriminate].
  intros H. exists tags. split; [reflexivity|].
  destruct (String.length _ =? 0)%nat eqn:Hlen.
  - left. injection H as _ <-. split; [reflexivity|].
    apply Nat.eqb_eq in Hlen. now destruct (hd "" (strings.Split tags)).
  - right. rewrite parseTag_options_spec in H.
    destruct (find _ _) as [bad|] eqn:Hfind; [|discriminate H].
    injection H as _ <-. exists bad. apply find_some in Hfind as [Hin Hbad].
    splits; try assumption; try reflexivity. now apply negb_true_iff in Hbad.
Qed.

Lemma Get_origin_struct (ext : Extern) (p : Parser) (config : option (rtype * value))
    (s s' : state) (e : error) :
  Get ext p config s = (s', Ret (Some e)) ->
  (forall t, e <> ErrInvalidConfigType t) ->
  exists fs x, config = Some (TPtr (TStruct fs), x) /\ origin ext p (TStruct fs) s s' e.
Proof.
  intros H Hne. apply Get_origin in H.
  destruct config as [[t x]|]; [|contradiction].
  destruct t as [| | | | | |t| | |]; try (now destruct (Hne _ (proj1 H))).
  destruct t as [| | | | | | | |fs|]; try (now destruct (Hne _ (proj1 H))).
  now exists fs, x.
Qed.

(** The error of a resolution is never one of the traversal's own. *)
Lemma retrieve_error_kind (ext : Extern) (p : Parser) (v : Value) (tag : tagData)
    (s s' : state) (e : error) :
  retrieve ext p v tag s = (s', Ret (Some e)) ->
  match e with
  | ErrInvalidConfigType _ | ErrInvalidTagOption _ _ | ErrMissingNameTag _
  | ErrNestedTags _ _ => False
  | _ => True
  end.
Proof.
  intros H. apply retrieve_error in H as [_ H].
  destruct (LookupFn p (Name tag)) as [raw|].
  - destruct (if Base64 tag then _ else _) as [bytes|c].
    + destruct (JSON tag).
      * destruct H as (c & iface & h & -> & _). exact I.
      * destruct H; exact I.
    + destruct H as (-> & _). exact I.
  - destruct H as (-> & _). exact I.
Qed.

(** An error of the traversal, explained: the annotation of a reached
    field does not parse, or the resolution of a reached annotated field
    failed on the value of its name, or a reached annotated field has an
    annotated field directly below it. *)
Lemma origin_cases (ext : Extern) (p : Parser) (t : rtype) (s0 s' : state) (e : error) :
  origin ext p t s0 s' e ->
  exists f tag,
    In f (reached_fields t) /\
    ((parseTag f (Tag p) = (tag, Some e)) \/
     (parseTag f (Tag p) = (tag, None) /\ Tagged tag = true /\
      (exists pre, calls s' = calls s0 ++ pre ++ [Name tag]) /\
      match LookupFn p (Name tag) with
      | None => e = ErrVarNotFound (Name tag) /\ Optional tag = false
      | Some raw =>
          match decoded ext tag raw with
          | inr c => e = ErrDecodeFailure c (Name tag) raw "base64" /\ Base64 tag = true
          | inl bytes =>
              if JSON tag
              then exists c iface h,
                     e = ErrDecodeFailure c (Name tag) raw "json" /\
                     snd (json_Unmarshal ext bytes iface h) = Some c
              else coercion_error ext (coercion_target (Typ f)) (Name tag)
                     (string_of_list_byte bytes) e
          end
      end) \/
     (parseTag f (Tag p) = (tag, None) /\ Tagged tag = true /\
      e = ErrNestedTags (reflect.Name f) (Name tag) /\
      exists st, struct_below (Typ f) = Some st /\ directly_tagged (Tag p) st = true)).
Proof.
  intros [f tag e' Hf Htag|f tag v s pre e' Hf Htag Ht Hv Hpre Hr|f tag st Hf Htag Ht Hst Hd];
    exists f, tag; (split; [assumption|]).
  - now left.
  - right. left. splits; try assumption.
    + exists pre. apply retrieve_error in Hr as [Hc _]. now rewrite Hc, Hpre, app_assoc.
    + apply retrieve_error in Hr as [_ Hr]. unfold decoded. rewrite <- Hv.
      destruct (LookupFn p (Name tag)) as [raw|].
      * destruct (if Base64 tag then _ else _) as [bytes|c].
        -- exact Hr.
        -- now destruct Hr as (? & ? & _).
      * now destruct Hr as (? & ? & _).
  - right. right. splits; try assumption; try reflexivity. now exists st.
Qed.

Lemma Get_cases (ext : Extern) (p : Parser) (config : option (rtype * value))
    (s s' : state) (e : error) :
  Get ext p config s = (s', Ret (Some e)) ->
  (forall t, e <> ErrInvalidConfigType t) ->
  exists f tag,
    In f (config_fields config) /\
    ((parseTag f (Tag p) = (tag, Some e)) \/
     (parseTag f (Tag p) = (tag, None) /\ Tagged tag = true /\
      (exists pre, calls s' = calls s ++ pre ++ [Name tag]) /\
      match LookupFn p (Name tag) with
      | None => e = ErrVarNotFound (Name tag) /\ Optional tag = false
      | Some raw =>
          match decoded ext tag raw with
          | inr c => e = ErrDecodeFailure c (Name tag) raw "base64" /\ Base64 tag = true
          | inl bytes =>
              if JSON tag
              then exists c iface h,
                     e = ErrDecodeFailure c (Name tag) raw "json" /\
                     snd (json_Unmarshal ext bytes iface h) = Some c
              else coercion_error ext (coercion_target (Typ f)) (Name tag)
                     (string_of_list_byte bytes) e
          end
      end) \/
     (parseTag f (Tag p) = (tag, None) /\ Tagged tag = true /\
      e = ErrNestedTags (reflect.Name f) (Name tag) /\
      exists st, struct_below (Typ f) = Some st /\ directly_tagged (Tag p) st = true)).
Proof.
  intros H Hne. destruct (Get_origin_struct ext p config s s' e H Hne) as (fs & x & -> & Ho).
  apply origin_cases in Ho. exact Ho.
Qed.

(** The resolution of a field whose name is found, decodes and is not
    declared as JSON never reports a missing name or a decode failure. *)
Lemma coercion_error_kind (ext : Extern) (t : rtype) (key text : string) (e : error) :
  coercion_error ext t key text e ->
  match e with
  | ErrCannotParseEnv _ _ k v | ErrOverflow _ k v => k = key /\ v = text
  | ErrCannotSetKind _ => True
  | _ => False
  end.
Proof. intros []; try exact I; now split. Qed.

(** X2: a missing name is reported only for a name the lookup function
    does not have. *)
Theorem Get_var_not_found_sound (ext : Extern) (p : Parser)
    (config : option (rtype * value)) (s s' : state) (k : string) :
  Get ext p config s = (s', Ret (Some (ErrVarNotFound k))) ->
  LookupFn p k = None /\
  (exists pre, calls s' = calls s ++ pre ++ [k]) /\
  exists f tag,
    In f (config_fields config) /\ parseTag f (Tag p) = (tag, None) /\
    Tagged tag = true /\ Name tag = k /\ Optional tag = false.
Proof.
  intros H. apply Get_cases in H; [|discriminate].
  destruct H as (f & tag & Hf & [Htag|[(Htag & Ht & Hpre & H)|(_ & _ & He & _)]]).
  - apply parseTag_error in Htag as (tags & _ & [(He & _)|(bad & He & _)]); discriminate He.
  - destruct (LookupFn p (Name tag)) as [raw|] eqn:Hlook.
    + destruct (decoded ext tag raw) as [bytes|c].
      * destruct (JSON tag).
        -- destruct H as (c & iface & h & He & _). discriminate He.
        -- apply coercion_error_kind in H. contradiction.
      * destruct H as (He & _). discriminate He.
    + destruct H as (He & Hopt). injection He as ->. splits; try assumption.
      now exists f, tag.
  - discriminate He.
Qed.

(** The leaves of [Get_cases] for the resolution of a field. *)
Ltac resolution H :=
  match type of H with
  | match LookupFn ?p ?name with _ => _ end =>
      let raw := fresh "raw" in
      let Hlook := fresh "Hlook" in
      destruct (LookupFn p name) as [raw|] eqn:Hlook;
      [ let bytes := fresh "bytes" in
        let c := fresh "c" in
        let Hdec := fresh "Hdec" in
        let Hjson := fresh "Hjson" in
        match type of H with
        | match decoded ?ext ?tag raw with _ => _ end =>
            destruct (decoded ext tag raw) as [bytes|c] eqn:Hdec;
            [ destruct (JSON tag) eqn:Hjson;
              [ let iface := fresh "iface" in
                let h := fresh "h" in
                let He := fresh "He" in
                let Hu := fresh "Hu" in
                destruct H as (c & iface & h & He & Hu)
              | let Hk := fresh "Hk" in
                pose proof H as Hk; apply coercion_error_kind in Hk ]
            | let He := fresh "He" in
              let Hb := fresh "Hb" in
              destruct H as (He & Hb) ]
        end
      | let He := fresh "He" in
        let Hopt := fresh "Hopt" in
        destruct H as (He & Hopt) ]
  end.

(** X3: a decode failure is reported only for a value the decoder in
    question refused. *)
Theorem Get_decode_failure_sound (ext : Extern) (p : Parser)
    (config : option (rtype * value)) (s s' : state) (c : cause) (k raw ty : string) :
  Get ext p config s = (s', Ret (Some (ErrDecodeFailure c k raw ty))) ->
  LookupFn p k = Some raw /\
  (exists pre, calls s' = calls s ++ pre ++ [k]) /\
  exists f tag,
    In f (config_fields config) /\ parseTag f (Tag p) = (tag, None) /\
    Tagged tag = true /\ Name tag = k /\
    ((ty = "base64" /\ Base64 tag = true /\ base64_DecodeString ext raw = inr c) \/
     (ty = "json" /\ JSON tag = true /\
      exists bytes iface h,
        decoded ext tag raw = inl bytes /\
        snd (json_Unmarshal ext bytes iface h) = Some c)).
Proof.
  intros H. apply Get_cases in H; [|discriminate].
  destruct H as (f & tag & Hf & [Htag|[(Htag & Ht & Hpre & H)|(_ & _ & He & _)]]).
  - apply parseTag_error in Htag as (tags & _ & [(He & _)|(bad & He & _)]); discriminate He.
  - resolution H.
    + injection He as -> -> -> ->. splits; try assumption.
      exists f, tag. splits; try assumption; try reflexivity. right.
      splits; try reflexivity; try assumption. do 3 eexists. split; eassumption.
    + contradiction.
    + injection He as -> -> -> ->. splits; try assumption.
      exists f, tag. splits; try assumption; try reflexivity. left.
      splits; try assumption; try reflexivity.
      unfold decoded in Hdec. now rewrite Hb in Hdec.
    + discriminate He.
  - discriminate He.
Qed.

(** X4: an error of scalar coercion is reported only for a field whose
    value was found and decoded, and says what the coercion of that value
    to the field's type (the pointed type for a pointer field) met. *)
Theorem Get_coercion_error_sound (ext : Extern) (p : Parser)
    (config : option (rtype * value)) (s s' : state) (e : error) :
  Get ext p config s = (s', Ret (Some e)) ->
  match e with
  | ErrCannotParseEnv _ _ _ _ | ErrOverflow _ _ _ | ErrCannotSetKind _ =>
      exists f tag raw bytes,
        In f (config_fields config) /\ parseTag f (Tag p) = (tag, None) /\
        Tagged tag = true /\ JSON tag = false /\
        LookupFn p (Name tag) = Some raw /\ decoded ext tag raw = inl bytes /\
        coercion_error ext (coercion_target (Typ f)) (Name tag) (string_of_list_byte bytes) e /\
        exists pre, calls s' = calls s ++ pre ++ [Name tag]
  | _ => True
  end.
Proof.
  intros H.
  destruct e; try exact I;
    (apply Get_cases in H; [|discriminate];
     destruct H as (f & tag & Hf & [Htag|[(Htag & Ht & Hpre & H)|(_ & _ & He & _)]]);
     [ apply parseTag_error in Htag as (tags & _ & [(He & _)|(bad & He & _)]); discriminate He
     | resolution H; try discriminate He; exists f, tag, raw, bytes; now splits
     | discriminate He ]).
Qed.

(** X5: nested tags are reported only for an annotated field with an
    annotated field directly below it. *)
Theorem Get_nested_tags_sound (ext : Extern) (p : Parser)
    (config : option (rtype * value)) (s s' : state) (field k : string) :
  Get ext p config s = (s', Ret (Some (ErrNestedTags field k))) ->
  exists f tag st,
    In f (config_fields config) /\ reflect.Name f = field /\
    parseTag f (Tag p) = (tag, None) /\ Tagged tag = true /\ Name tag = k /\
    struct_below (Typ f) = Some st /\ directly_tagged (Tag p) st = true.
Proof.
  intros H. apply Get_cases in H; [|discriminate].
  destruct H as (f & tag & Hf & [Htag|[(Htag & Ht & Hpre & H)|(Htag & Ht & He & st & Hst & Hd)]]).
  - apply parseTag_error in Htag as (tags & _ & [(He & _)|(bad & He & _)]); discriminate He.
  - resolution H; try discriminate He. contradiction.
  - injection He as -> ->. exists f, tag, st. now splits.
Qed.

(** X6: an error of the tag parser is reported only for an annotation of
    the record that has the defect. *)
Theorem Get_tag_error_sound (ext : Extern) (p : Parser)
    (config : option (rtype * value)) (s s' : state) (e : error) :
  Get ext p config s = (s', Ret (Some e)) ->
  match e with
  | ErrMissingNameTag tags =>
      exists f, In f (config_fields config) /\
                Lookup (reflect.Tag f) (Tag p) = Some tags /\
                hd "" (strings.Split tags) = ""
  | ErrInvalidTagOption tags bad =>
      exists f, In f (config_fields config) /\
                Lookup (reflect.Tag f) (Tag p) = Some tags /\
                In bad (tl (strings.Split tags)) /\ modifier bad = false
  | _ => True
  end.
Proof.
  intros H.
  destruct e; try exact I;
    (apply Get_cases in H; [|discriminate];
     destruct H as (f & tag & Hf & [Htag|[(Htag & Ht & Hpre & H)|(_ & _ & He & _)]]);
     [ apply parseTag_error in Htag as (tags & Hl & [(He & Hhd)|(bad & He & Hin & Hbad)]);
       try discriminate He; injection He as ?; subst; exists f; now splits
     | resolution H; try discriminate He; contradiction
     | discriminate He ]).
Qed.

(** X7: [Get] refuses exactly the values that are not pointers to
    structs. *)
Theorem Get_config_type (ext : Extern) (p : Parser) (config : option (rtype * value))
    (s : state) :
  match config with
  | None => exists msg, Get ext p config s = (s, Panic msg)
  | Some (TPtr (TStruct fs), x) =>
      (x = VPtr None -> exists msg, Get ext p config s = (s, Panic msg)) /\
      (forall s' e, Get ext p config s = (s', Ret (Some e)) ->
                    match e with ErrInvalidConfigType _ => False | _ => True end)
  | Some (t, x) => Get ext p config s = (s, Ret (Some (ErrInvalidConfigType t)))
  end.
Proof.
  destruct config as [[t x]|]; [|eexists; reflexivity].
  destruct t as [| | | | | |t| | |]; try reflexivity.
  destruct t as [| | | | | | | |fs|]; try reflexivity.
  split.
  - intros ->. eexists; reflexivity.
  - intros s' e H. destruct e; try exact I.
    apply Get_origin in H. apply origin_cases in H.
    destruct H as (f & tag & Hf & [Htag|[(Htag & Ht & Hpre & H)|(_ & _ & He & _)]]).
    + apply parseTag_error in Htag as (tags & _ & [(He & _)|(bad & He & _)]); discriminate He.
    + resolution H; try discriminate He. contradiction.
    + discriminate He.
Qed.

(* ===================================================================== *)
(** ** What a success says *)
(* ===================================================================== *)

Lemma setValue_success (ext : Extern) (v : Value) (key : string) (bytes : list byte)
    (s s' : state) :
  setValue ext v key bytes s = (s', Ret None) ->
  flagRO v = false /\ calls s' = calls s /\
  exists x, coerced ext bytes (typ v) x /\ heap_set (heap s) (ref v) x = Some (heap s').
Proof.
  intros H. pose proof (setValue_coerces ext v key bytes s) as Hc.
  rewrite H in Hc. exact Hc.
Qed.

(** The success of [retrieve] says what happened to the value of the
    name. *)
Lemma retrieve_success (ext : Extern) (p : Parser) (v : Value) (tag : tagData)
    (s s' : state) :
  retrieve ext p v tag s = (s', Ret None) ->
  match LookupFn p (Name tag) with
  | None => Optional tag = true
  | Some raw =>
      exists bytes,
        decoded ext tag raw = inl bytes /\
        if JSON tag
        then exists iface h, snd (json_Unmarshal ext bytes iface h) = None
        else exists x, coerced ext bytes (coercion_target (typ v)) x
  end.
Proof.
  intros H. destruct (LookupFn p (Name tag)) as [raw|] eqn:Hlook.
  2:{ rewrite retrieve_not_found in H by assumption.
      destruct (Optional tag); [reflexivity|discriminate H]. }
  rewrite (retrieve_found ext p v tag raw) in H by assumption.
  fold (decoded ext tag raw) in H.
  destruct (decoded ext tag raw) as [bytes|c]; [|discriminate H].
  exists bytes. split; [reflexivity|].
  destruct (JSON tag).
  - unfold decodeJSON in H.
    apply bind_inv in H as (s1 & iface & _ & H).
    apply bind_inv in H as (s2 & err & Hu & H).
    destruct err as [c|]; apply ret_inv in H as [_ H]; [discriminate H|].
    exists iface, (heap s1).
    unfold Unmarshal in Hu. destruct (json_Unmarshal ext bytes iface (heap s1)).
    now injection Hu as _ ->.
  - apply bind_inv in H as (s1 & v' & Hv & H).
    apply coercion_target_typ in Hv. apply setValue_success in H as (_ & _ & x & Hx & _).
    exists x. now rewrite Hv in Hx.
Qed.

Lemma parse_field_success (ext : Extern) (p : Parser)
    (recur : rtype -> Value -> M (bool * option error))
    (config : Value) (i : nat) (f : StructField) (tagFound : bool)
    (s s' : state) (tf : bool) :
  (forall st, struct_below (Typ f) = Some st ->
     forall v s1 s2 tf',
       recur st v s1 = (s2, Ret (tf', None)) ->
       tf' = directly_tagged (Tag p) st /\ Forall (resolved ext p) (reached_fields st)) ->
  parse_field ext p recur config i f tagFound s = (s', Ret (tf, None)) ->
  resolved ext p f /\ Forall (resolved ext p) (fields_below f).
Proof.
  intros Hrec. rewrite parse_field_eq. unfold resolved, fields_below.
  destruct (parseTag f (Tag p)) as [tag [e0|]] eqn:Htag.
  { intros H. apply ret_inv in H as [_ H]. discriminate H. }
  intros H. apply bind_inv in H as (s1 & [tf1 e1] & H1 & H2).
  destruct e1 as [e1|].
  { apply ret_inv in H2 as [_ H2]. discriminate H2. }
  assert (Hres : Tagged tag = true ->
                 match LookupFn p (Name tag) with
                 | None => Optional tag = true
                 | Some raw =>
                     exists bytes,
                       decoded ext tag raw = inl bytes /\
                       if JSON tag
                       then exists iface h, snd (json_Unmarshal ext bytes iface h) = None
                       else exists x, coerced ext bytes (coercion_target (Typ f)) x
                 end).
  { intros Ht. rewrite Ht in H1.
    apply bind_inv in H1 as (s2 & e2 & Hr & H1). apply ret_inv in H1 as [_ H1].
    injection H1 as _ <-. apply retrieve_success in Hr. exact Hr. }
  destruct (struct_below (Typ f)) as [st|] eqn:Hst.
  2:{ split; [|constructor]. exists tag. split; [reflexivity|].
      intros Ht. split; [now apply Hres|discriminate]. }
  unfold descend in H2.
  apply bind_inv in H2 as (s2 & v2 & He & H2).
  apply bind_inv in H2 as (s3 & [tf3 e3] & Hsub & H2).
  cbn [fst snd] in H2.
  assert (He3 : e3 = None /\ (Tagged tag = true -> tf3 = false)).
  { destruct (Tagged tag); cbn [andb] in H2.
    - destruct tf3; apply ret_inv in H2 as [_ H2]; [discriminate H2|].
      injection H2 as _ <-. now split.
    - apply ret_inv in H2 as [_ H2]. injection H2 as _ <-. now split. }
  destruct He3 as [-> Htf3].
  destruct (Hrec st eq_refl _ _ _ _ Hsub) as [Hfound Hbelow].
  split; [|exact Hbelow]. exists tag. split; [reflexivity|].
  intros Ht. split; [now apply Hres|].
  intros st' Hst'. injection Hst' as <-. rewrite <- Hfound. now apply Htf3.
Qed.

Lemma parse_fields_success (ext : Extern) (p : Parser)
    (recur : rtype -> Value -> M (bool * option error)) (config : Value)
    (fs : list StructField) :
  Forall (fun f => forall st, struct_below (Typ f) = Some st ->
            forall v s1 s2 tf',
              recur st v s1 = (s2, Ret (tf', None)) ->
              tf' = directly_tagged (Tag p) st /\
              Forall (resolved ext p) (reached_fields st)) fs ->
  forall i tagFound s s' tf,
    parse_fields ext p recur config fs i tagFound s = (s', Ret (tf, None)) ->
    Forall (resolved ext p) (reached_fields (TStruct fs)).
Proof.
  induction 1 as [|f fs Hf Hfs IH]; intros i tagFound s s' tf H; cbn [parse_fields] in H.
  - constructor.
  - apply bind_inv in H as (s1 & [tf1 e1] & H1 & H2).
    destruct e1 as [e1|].
    { apply ret_inv in H2 as [_ H2]. discriminate H2. }
    apply (parse_field_success ext p recur config i f tagFound s s1 tf1 Hf) in H1
      as [Hself Hbelow].
    rewrite reached_fields_cons. constructor; [exact Hself|].
    apply Forall_app. split; [exact Hbelow|]. eapply IH; exact H2.
Qed.

(** When [parse] succeeds, every field it can reach is resolved. *)
Lemma parse_success (ext : Extern) (p : Parser) (t : rtype) :
  forall v s s' tf,
    parse ext p t v s = (s', Ret (tf, None)) ->
    Forall (resolved ext p) (reached_fields t).
Proof.
  induction t as [t Ht|fs IH] using rtype_struct_ind; intros v s s' tf H.
  - destruct t; try discriminate H. now destruct (Ht fields).
  - rewrite parse_struct in H. eapply parse_fields_success; [|exact H].
    eapply List.Forall_impl; [|exact IH]. intros f Hf st Hst v1 s1 s2 tf' Hsub. split.
    + apply parse_found in Hsub. now apply Hsub.
    + eapply Hf; eassumption.
Qed.

(** X8: [Get] returns nil only when every field the traversal can reach is
    resolved: nothing that fails is passed over. *)
Theorem Get_success_complete (ext : Extern) (p : Parser)
    (config : option (rtype * value)) (s s' : state) :
  Get ext p config s = (s', Ret None) ->
  Forall (resolved ext p) (config_fields config).
Proof.
  intros H. unfold Get in H. destruct config as [[t x]|]; [|discriminate H].
  destruct t as [| | | | | |t| | |]; try discriminate H.
  destruct t as [| | | | | | | |fs|]; try discriminate H.
  destruct x as [| | | | |[pl|]| | |]; try discriminate H.
  apply bind_inv in H as (s1 & [tf err] & H1 & H).
  apply ret_inv in H as [-> H]. cbn [snd] in H. subst err.
  eapply parse_success; exact H1.
Qed.

(* ===================================================================== *)
(** ** What a traversal may change *)
(* ===================================================================== *)

Lemma well_typed_heap_set (types : list rtype) (h h' : list value) (pl : place)
    (t : rtype) (new : value) :
  well_typed types h -> place_type types pl = Some t -> has_type types new t ->
  heap_set h pl new = Some h' -> well_typed types h'.
Proof.
  intros Hh Hpl Hnew Hset.
  destruct (well_typed_set types h pl t new Hh Hpl Hnew) as (h'' & Hset' & Hh'').
  congruence.
Qed.

Lemma coerced_has_type (ext : Extern) (types : list rtype) (bytes : list byte)
    (t : rtype) (x : value) :
  coerced ext bytes t x -> has_type types x t.
Proof. intros []; apply has_type_other; discriminate. Qed.

Lemma touches_trans (key : string) (n : nat) (t : rtype) :
  forall x y z, touches key n t x y -> touches key n t y z -> touches key n t x z.
Proof.
  induction t as [|w|w| | | |e _|e _|fs IH|k] using rtype_ind'; intros x y z Hxy Hyz;
    try (inversion Hxy; subst; assumption).
  - inversion Hxy; subst; [assumption|]. inversion Hyz; subst. assumption.
  - inversion Hxy as [|?|fs' xs ys Hlen Hfields Hrest]; subst; [assumption|].
    inversion Hyz as [|?|fs' ys' zs Hlen' Hfields' Hrest']; subst; [assumption|].
    constructor.
    + congruence.
    + intros i f xi zi Hf Hxi Hzi Hann.
      destruct (lookup_lt_is_Some_2 ys i) as [yi Hyi].
      { rewrite <- Hlen. eapply lookup_lt_Some; eauto. }
      rewrite Forall_lookup in IH. apply (IH i f Hf xi yi zi); eauto.
    + intros i Hi. rewrite (Hrest i Hi). now apply Hrest'.
Qed.

Lemma fills_touches (key : string) (n : nat) (t : rtype) :
  forall x y, fills n t x y -> touches key n t x y.
Proof.
  induction t as [|w|w| | | |e _|e _|fs IH|k] using rtype_ind'; intros x y Hxy;
    try (inversion Hxy; subst; apply touches_same).
  - inversion Hxy; subst; [apply touches_same|now apply touches_nil].
  - inversion Hxy as [|?|fs' xs ys Hlen Hfields Hrest]; subst; [apply touches_same|].
    constructor; try assumption.
    intros i f xi yi Hf Hxi Hyi _.
    rewrite Forall_lookup in IH. eapply (IH i f Hf); eauto.
Qed.

(** A store into an annotated field touches annotated fields only. *)
Lemma set_at_touches (key : string) (n : nat) (new : value) (path : list nat) :
  forall t x x' i fs f,
    type_at t path = Some (TStruct fs) -> fs !! i = Some f ->
    annotated key f = true ->
    set_at x (path ++ [i]) new = Some x' -> touches key n t x x'.
Proof.
  induction path as [|j path IH]; intros t x x' i fs f; cbn [type_at app set_at].
  - intros [= ->] Hf Hann.
    destruct x as [| | | | | | |xs|]; try discriminate.
    destruct (xs !! i) as [xi|] eqn:Hxi; [|discriminate].
    intros [= <-]. constructor.
    + now rewrite length_insert.
    + intros k g xk yk Hg Hxk Hyk Hno.
      destruct (decide (k = i)) as [->|Hne]; [congruence|].
      rewrite list_lookup_insert_ne in Hyk by congruence.
      rewrite Hxk in Hyk. injection Hyk as <-. apply touches_same.
    + intros k Hk. destruct (decide (k = i)) as [->|Hne]; [congruence|].
      now rewrite list_lookup_insert_ne by congruence.
  - destruct t as [| | | | | | | |fs0|]; try discriminate.
    destruct (fs0 !! j) as [g|] eqn:Hg; [|discriminate]. intros Hty Hf Hann.
    destruct x as [| | | | | | |xs|]; try discriminate.
    destruct (xs !! j) as [xj|] eqn:Hxj; [|discriminate].
    destruct (set_at xj (path ++ [i]) new) as [xj'|] eqn:Hset; [|discriminate].
    intros [= <-]. constructor.
    + now rewrite length_insert.
    + intros k g' xk yk Hg' Hxk Hyk Hno.
      destruct (decide (k = j)) as [->|Hne].
      * rewrite list_lookup_insert_eq in Hyk by (eapply lookup_lt_Some; eauto).
        injection Hyk as <-. rewrite Hxj in Hxk. injection Hxk as <-.
        rewrite Hg in Hg'. injection Hg' as <-. eapply IH; eauto.
      * rewrite list_lookup_insert_ne in Hyk by congruence.
        rewrite Hxk in Hyk. injection Hyk as <-. apply touches_same.
    + intros k Hk. destruct (decide (k = j)) as [->|Hne]; [congruence|].
      now rewrite list_lookup_insert_ne by congruence.
Qed.

Lemma only_touches_refl (key : string) (types : list rtype) (n : nat) (h : list value) :
  only_touches key types n h h.
Proof.
  split; [lia|]. intros l t x _ H. exists x. split; [assumption|apply touches_same].
Qed.

Lemma only_touches_trans (key : string) (types : list rtype) (n : nat)
    (h1 h2 h3 : list value) :
  only_touches key types n h1 h2 -> only_touches key types n h2 h3 ->
  only_touches key types n h1 h3.
Proof.
  intros [Hlen12 H12] [Hlen23 H23]. split; [lia|]. intros l t x Ht Hx.
  destruct (H12 l t x Ht Hx) as (y & Hy & Hxy).
  destruct (H23 l t y Ht Hy) as (z & Hz & Hyz). exists z. split; [assumption|].
  eapply touches_trans; eauto.
Qed.

Lemma only_touches_narrow (key : string) (types more : list rtype) (n : nat)
    (h h' : list value) :
  only_touches key (types ++ more) n h h' -> only_touches key types n h h'.
Proof.
  intros [Hlen H]. split; [assumption|]. intros l t x Ht Hx.
  apply (H l t x); [now apply lookup_app_l_Some|assumption].
Qed.

Lemma only_touches_alloc (key : string) (types : list rtype) (n : nat)
    (h : list value) (x : value) :
  only_touches key types n h (h ++ [x]).
Proof.
  split; [rewrite length_app; lia|].
  intros l t y _ Hy. exists y. split; [now apply lookup_app_l_Some|apply touches_same].
Qed.

Lemma only_fills_touches (key : string) (types : list rtype) (n : nat)
    (h h' : list value) :
  only_fills types n h h' -> only_touches key types n h h'.
Proof.
  intros [Hlen H]. split; [assumption|]. intros l t x Ht Hx.
  destruct (H l t x Ht Hx) as (y & Hy & Hxy). exists y. split; [assumption|].
  now apply fills_touches.
Qed.

Lemma only_touches_store (key : string) (types : list rtype) (n : nat)
    (h h' : list value) (pl : place) (new : value) :
  annotated_place key types pl ->
  heap_set h pl new = Some h' -> only_touches key types n h h'.
Proof.
  intros (path & i & fs & f & Hpath & Hty & Hf & Hann).
  unfold place_type in Hty. cbn [fst snd] in Hty. unfold heap_set.
  destruct (h !! fst pl) as [x0|] eqn:Hx0; [|discriminate].
  destruct (set_at x0 (snd pl) new) as [x0'|] eqn:Hset; [|discriminate].
  intros [= <-]. split; [now rewrite length_insert|]. intros l t x Ht Hx.
  destruct (decide (l = fst pl)) as [->|Hne].
  - rewrite list_lookup_insert_eq by (eapply lookup_lt_Some; eauto).
    exists x0'. split; [reflexivity|]. rewrite Hx0 in Hx. injection Hx as <-.
    rewrite Ht in Hty. rewrite Hpath in Hset. eapply set_at_touches; eauto.
  - rewrite list_lookup_insert_ne by congruence.
    exists x. split; [assumption|apply touches_same].
Qed.

(** A store into an object the types do not cover touches none of the
    objects they cover. *)
Lemma only_touches_fresh (key : string) (types : list rtype) (n : nat)
    (h h' : list value) (pl : place) (new : value) :
  length types <= fst pl ->
  heap_set h pl new = Some h' -> only_touches key types n h h'.
Proof.
  intros Hfresh. unfold heap_set.
  destruct (h !! fst pl) as [x0|] eqn:Hx0; [|discriminate].
  destruct (set_at x0 (snd pl) new) as [x0'|] eqn:Hset; [|discriminate].
  intros [= <-]. split; [now rewrite length_insert|]. intros l t x Ht Hx.
  assert (l < length types) by (eapply lookup_lt_Some; eauto).
  rewrite list_lookup_insert_ne by lia.
  exists x. split; [assumption|apply touches_same].
Qed.

Lemma annotated_place_weaken (key : string) (types more : list rtype) (pl : place) :
  annotated_place key types pl -> annotated_place key (types ++ more) pl.
Proof.
  intros (path & i & fs & f & Hpath & Hty & Hf & Hann).
  exists path, i, fs, f. splits; try assumption. now apply place_type_weaken.
Qed.

Lemma annotated_place_field (key : string) (types : list rtype) (config : Value)
    (i : nat) (f : StructField) (all : list StructField) :
  place_type types (ref config) = Some (TStruct all) -> all !! i = Some f ->
  annotated key f = true ->
  annotated_place key types (ref (Field config i f)).
Proof.
  intros Hpl Hf Hann. exists (snd (ref config)), i, all, f.
  cbn [Field ref fst snd]. splits; try assumption; reflexivity.
Qed.

(* ===================================================================== *)
(** ** Traversals of well-typed memory *)
(* ===================================================================== *)

Lemma match_not_ptr {A} (t : rtype) (a : rtype -> A) (b : A) :
  (forall e, t <> TPtr e) ->
  match t with TPtr elem => a elem | _ => b end = b.
Proof. intros H. destruct t; try reflexivity. now destruct (H t). Qed.

(** [setValue] on a place of well-typed memory that may be set returns,
    and memory stays well-typed. *)
Lemma setValue_safe (ext : Extern) (types : list rtype) (v : Value) (key : string)
    (bytes : list byte) (s : state) :
  flagRO v = false -> well_typed types (heap s) ->
  place_type types (ref v) = Some (typ v) ->
  exists s' err,
    setValue ext v key bytes s = (s', Ret err) /\
    well_typed types (heap s') /\
    (s' = s \/ exists x, heap_set (heap s) (ref v) x = Some (heap s')).
Proof.
  intros Hro Hh Hpl. pose proof (setValue_coerces ext v key bytes s) as H.
  destruct (setValue ext v key bytes s) as [s' [[e|]| |]]; cbn [coerces] in H.
  - destruct H as [-> _]. exists s, (Some e). splits; try assumption; try reflexivity.
    now left.
  - destruct H as (_ & _ & x & Hx & Hset). exists s', None.
    splits; try reflexivity.
    + eapply well_typed_heap_set; eauto. eapply coerced_has_type; eauto.
    + right. now exists x.
  - destruct H as (_ & Hro' & _). congruence.
  - destruct H as (_ & _ & Hnone).
    destruct (well_typed_get _ _ _ _ Hh Hpl) as (x & Hget & _). congruence.
Qed.

(** Lines 133-137 of [retrieve] on a well-typed field that may be set: the
    value scalar coercion is applied to. *)
Lemma coercion_target_safe (key : string) (types : list rtype) (v : Value) (s : state) :
  flagRO v = false -> well_typed types (heap s) ->
  place_type types (ref v) = Some (typ v) ->
  annotated_place key types (ref v) ->
  exists s1 v' types1,
    match typ v with
    | TPtr elem => fresh <- New elem ;; Set_ v fresh ;;; Elem v
    | _ => ret v
    end s = (s1, Ret v') /\
    calls s1 = calls s /\
    well_typed (types ++ types1) (heap s1) /\
    place_type (types ++ types1) (ref v') = Some (typ v') /\
    flagRO v' = false /\
    (annotated_place key types (ref v') \/ length types <= fst (ref v')) /\
    forall n, only_touches key types n (heap s) (heap s1).
Proof.
  intros Hro Hh Hpl Hann.
  destruct (typ v) as [| | | | | |elem| | |] eqn:Hty;
    try (exists s, v, []; rewrite app_nil_r, Hty;
         splits; try assumption; try reflexivity;
         [now left|intros n; apply only_touches_refl]).
  set (target := (length (heap s), @nil nat)).
  assert (Hh1 : well_typed (types ++ [elem]) (heap s ++ [Zero elem]))
    by now apply well_typed_alloc.
  destruct (well_typed_set (types ++ [elem]) _ (ref v) (TPtr elem)
              (VPtr (Some target)) Hh1) as (h' & Hset & Hh').
  { now apply place_type_weaken. }
  { constructor. now apply well_typed_weaken_place. }
  exists (mkState h' (calls s)), (mkValue elem target (flagStickyRO v) (flagEmbedRO v)),
    [elem].
  splits; try assumption; try reflexivity.
  - rewrite (bind_Ret _ _ _ _ _ (New_eq _ _)).
    rewrite (bind_Ret _ _ _ _ _
               (Set_eq v _ (mkState (heap s ++ [Zero elem]) (calls s)) h' Hro Hset)).
    apply Elem_eq; [assumption|]. exact (heap_get_set _ _ _ _ Hset).
  - now apply well_typed_weaken_place.
  - right. cbn [ref target fst]. rewrite (well_typed_length _ _ Hh). lia.
  - intros n. cbn [heap].
    eapply only_touches_trans; [apply only_touches_alloc|].
    eapply only_touches_store; eassumption.
Qed.

Lemma Unmarshal_typed (ext : Extern) (types : list rtype) (data : list byte)
    (t : rtype) (pl : place) (s : state) :
  json_typed ext -> well_typed types (heap s) -> place_type types pl = Some t ->
  exists s' err types',
    Unmarshal ext data (TPtr t, VPtr (Some pl)) s = (s', Ret err) /\
    well_typed (types ++ types') (heap s').
Proof.
  intros Hjson Hh Hpl. destruct (Hjson data t pl types (heap s) Hh Hpl) as [types' H].
  unfold Unmarshal.
  destruct (json_Unmarshal ext data (TPtr t, VPtr (Some pl)) (heap s)) as [h err].
  exists (mkState h (calls s)), err, types'. now split.
Qed.

(** Lines 114-131 of [retrieve] on a well-typed field that may be set. *)
Lemma decodeJSON_typed (ext : Extern) (types : list rtype) (v : Value) (tag : tagData)
    (value : string) (bytes : list byte) (s : state) :
  json_typed ext -> flagRO v = false -> well_typed types (heap s) ->
  place_type types (ref v) = Some (typ v) ->
  exists s' err types',
    decodeJSON ext v tag value bytes s = (s', Ret err) /\
    well_typed (types ++ types') (heap s').
Proof.
  intros Hjson Hro Hh Hpl. unfold decodeJSON.
  assert (Hend : forall s1 types1 t pl,
            well_typed (types ++ types1) (heap s1) ->
            place_type (types ++ types1) pl = Some t ->
            exists s' err types',
              bind (Unmarshal ext bytes (TPtr t, VPtr (Some pl)))
                   (fun err => match err with
                               | Some e => ret (Some (ErrDecodeFailure e (Name tag) value "json"))
                               | None => ret None
                               end) s1 = (s', Ret err) /\
              well_typed (types ++ types') (heap s')).
  { intros s1 types1 t pl Hh1 Hpl1.
    destruct (Unmarshal_typed ext _ bytes t pl s1 Hjson Hh1 Hpl1)
      as (s2 & err & types2 & Hu & Hh2).
    rewrite (bind_Ret _ _ _ _ _ Hu).
    exists s2, (match err with
                | Some e => Some (ErrDecodeFailure e (Name tag) value "json")
                | None => None
                end), (types1 ++ types2).
    rewrite app_assoc. split; [now destruct err|assumption]. }
  destruct (typ v) as [| | | | | |elem| | |] eqn:Hty.
  7:{ (* a pointer *)
      destruct (well_typed_get _ _ _ _ Hh Hpl) as (x & Hget & Hx).
      inversion Hx as [t'|pl t' Htarget| |x' t' Hp _]; subst;
        [| |now destruct (Hp elem)].
      - (* nil: allocate *)
        set (target := (length (heap s), @nil nat)).
        assert (Hh1 : well_typed (types ++ [elem]) (heap s ++ [Zero elem]))
          by now apply well_typed_alloc.
        destruct (well_typed_set (types ++ [elem]) _ (ref v) (TPtr elem)
                    (VPtr (Some target)) Hh1) as (h' & Hset & Hh').
        { now apply place_type_weaken. }
        { constructor. now apply well_typed_weaken_place. }
        rewrite bind_assoc.
        rewrite (bind_Ret _ _ _ _ _ (IsNil_nil _ _ Hget)). cbv beta iota.
        rewrite bind_assoc. rewrite bind_assoc.
        rewrite (bind_Ret _ _ _ _ _ (New_eq _ _)).
        rewrite (bind_Ret _ _ _ _ _
                   (Set_eq v _ (mkState (heap s ++ [Zero elem]) (calls s)) h' Hro Hset)).
        unfold Interface_ at 1. rewrite Hro, Hty.
        rewrite bind_assoc.
        rewrite (bind_Ret _ _ _ _ _
                   (load_eq v (mkState h' (calls s)) _ (heap_get_set _ _ _ _ Hset))).
        rewrite (bind_Ret (ret _) _ _ _ _ eq_refl).
        apply (Hend (mkState h' (calls s)) [elem] elem target Hh').
        now apply well_typed_weaken_place.
      - (* not nil *)
        rewrite bind_assoc.
        rewrite (bind_Ret _ _ _ _ _ (IsNil_ptr _ _ _ Hget)). cbv beta iota.
        rewrite bind_assoc.
        rewrite (bind_Ret (ret tt) _ s s tt eq_refl).
        unfold Interface_ at 1. rewrite Hro, Hty.
        rewrite bind_assoc.
        rewrite (bind_Ret _ _ _ _ _ (load_eq v s _ Hget)).
        rewrite (bind_Ret (ret _) _ _ _ _ eq_refl).
        apply (Hend s [] elem pl); rewrite app_nil_r; assumption. }
  all: unfold AddrInterface; rewrite Hro, Hty;
    rewrite (bind_Ret (ret _) _ _ _ _ eq_refl);
    apply (Hend s [] _ (ref v)); rewrite app_nil_r; assumption.
Qed.

(** [retrieve] on an annotated field of well-typed memory that may be
    set. *)
Lemma retrieve_safe (ext : Extern) (p : Parser) (key : string) (types : list rtype)
    (v : Value) (tag : tagData) (s : state) :
  json_typed ext \/ JSON tag = false ->
  flagRO v = false ->
  well_typed types (heap s) ->
  place_type types (ref v) = Some (typ v) ->
  annotated_place key types (ref v) ->
  exists s' err types',
    retrieve ext p v tag s = (s', Ret err) /\
    well_typed (types ++ types') (heap s') /\
    (JSON tag = false -> forall n, only_touches key types n (heap s) (heap s')).
Proof.
  intros Hjson Hro Hh Hpl Hann.
  assert (Hstop : forall err : option error,
            exists s' err' types',
              (called (Name tag) s, Ret err) = (s', Ret err') /\
              well_typed (types ++ types') (heap s') /\
              (JSON tag = false ->
               forall n, only_touches key types n (heap s) (heap s'))).
  { intros err. exists (called (Name tag) s), err, []. rewrite app_nil_r.
    splits; try assumption; try reflexivity. intros _ n. apply only_touches_refl. }
  destruct (LookupFn p (Name tag)) as [raw|] eqn:Hlook.
  2:{ rewrite retrieve_not_found by assumption. apply Hstop. }
  rewrite (retrieve_found ext p v tag raw) by assumption.
  destruct (if Base64 tag then _ else _) as [bytes|c]; [|apply Hstop].
  destruct (JSON tag) eqn:Hj.
  - destruct Hjson as [Hjson|Hjson]; [|discriminate Hjson].
    destruct (decodeJSON_typed ext types v tag raw bytes (called (Name tag) s) Hjson Hro)
      as (s' & err & types' & Hrun & Hh'); try assumption.
    exists s', err, types'. splits; try assumption. discriminate.
  - destruct (coercion_target_safe key types v (called (Name tag) s) Hro Hh Hpl Hann)
      as (s1 & v' & types1 & Hv' & Hcalls1 & Hh1 & Hpl1 & Hro1 & Hwhere & Hframe1).
    rewrite (bind_Ret _ _ _ _ _ Hv').
    destruct (setValue_safe ext (types ++ types1) v' (Name tag) bytes s1 Hro1 Hh1 Hpl1)
      as (s2 & err & Hset & Hh2 & Hstore).
    exists s2, err, types1. splits; try assumption.
    intros _ n. eapply only_touches_trans; [apply Hframe1|].
    destruct Hstore as [->|(x & Hx)]; [apply only_touches_refl|].
    destruct Hwhere as [Hplace|Hfresh].
    + eapply only_touches_store; eassumption.
    + eapply only_touches_fresh; eassumption.
Qed.

Lemma safe_ret (key : string) (free : bool) (types : list rtype) (s : state)
    (res : bool * option error) :
  well_typed types (heap s) -> safe key free types s (s, Ret res).
Proof.
  intros Hh. exists s, res, []. rewrite app_nil_r. splits; try assumption; try reflexivity.
  intros _ n _. apply only_touches_refl.
Qed.

Lemma safe_weaken (key : string) (free free' : bool) (types : list rtype) (s : state)
    (r : state * outcome (bool * option error)) :
  (free' = true -> free = true) -> safe key free types s r -> safe key free' types s r.
Proof.
  intros Hfree (s' & res & types' & Hr & Hh & Hframe).
  exists s', res, types'. splits; try assumption. intros H. apply Hframe, Hfree, H.
Qed.

Lemma forallb_reached (P : StructField -> bool) (fs : list StructField) :
  forallb P (reached_fields (TStruct fs)) = true ->
  Forall (fun f => P f = true /\
                   forall st, struct_below (Typ f) = Some st ->
                              forallb P (reached_fields st) = true) fs.
Proof.
  induction fs as [|f fs IH]; [constructor|].
  rewrite reached_fields_cons. cbn [forallb]. rewrite forallb_app.
  intros H. apply andb_true_iff in H as [Hf H]. apply andb_true_iff in H as [Hbelow Hrest].
  constructor; [|now apply IH]. split; [assumption|].
  intros st Hst. unfold fields_below in Hbelow. now rewrite Hst in Hbelow.
Qed.

Lemma exported_flagRO (config : Value) (i : nat) (f : StructField) :
  flagStickyRO config = false -> exported f = true ->
  flagRO (Field config i f) = false.
Proof.
  intros Hsticky Hexp. unfold flagRO, Field. cbn [flagStickyRO flagEmbedRO].
  now rewrite Hsticky, Hexp.
Qed.

Lemma parse_field_safe (ext : Extern) (p : Parser)
    (recur : rtype -> Value -> M (bool * option error)) (free : bool)
    (types : list rtype) (config : Value) (i : nat) (f : StructField)
    (all : list StructField) (tagFound : bool) (s : state) :
  json_typed ext \/ free = true ->
  (free = true -> JSON (fst (parseTag f (Tag p))) = false) ->
  implb (needs_set (Tag p) f) (exported f) = true ->
  (forall st, struct_below (Typ f) = Some st ->
     forall types1 v s1,
       flagStickyRO v = false -> well_typed types1 (heap s1) ->
       place_type types1 (ref v) = Some st ->
       safe (Tag p) free types1 s1 (recur st v s1)) ->
  flagStickyRO config = false ->
  well_typed types (heap s) ->
  place_type types (ref config) = Some (TStruct all) ->
  all !! i = Some f ->
  safe (Tag p) free types s (parse_field ext p recur config i f tagFound s).
Proof.
  intros Hjson Hfree Hexp Hrec Hsticky Hh Hpl Hf.
  rewrite parse_field_eq.
  destruct (parseTag f (Tag p)) as [tag [e|]] eqn:Htag; [now apply safe_ret|].
  cbn [fst] in Hfree.
  pose proof (parseTag_Tagged _ _ _ Htag) as Htagged.
  assert (Hstage : exists s1 r1 types1,
            (if Tagged tag
             then err <- retrieve ext p (Field config i f) tag ;; ret (true, err)
             else ret (tagFound, None)) s = (s1, Ret r1) /\
            well_typed (types ++ types1) (heap s1) /\
            (free = true ->
             forall n, only_touches (Tag p) types n (heap s) (heap s1))).
  { destruct (Tagged tag) eqn:Ht.
    - assert (Hex : exported f = true).
      { unfold needs_set in Hexp. rewrite <- Htagged in Hexp. cbn in Hexp.
        now destruct (exported f). }
      destruct (retrieve_safe ext p (Tag p) types (Field config i f) tag s)
        as (s1 & err & types1 & Hr & Hh1 & Hframe1); try assumption.
      { destruct Hjson as [Hjson| ->]; [now left|right; now apply Hfree]. }
      { now apply exported_flagRO. }
      { eapply place_type_field; eauto. }
      { eapply annotated_place_field; eauto. }
      exists s1, (true, err), types1. splits; try assumption.
      + now rewrite (bind_Ret _ _ _ _ _ Hr).
      + intros Hfr. apply Hframe1. now apply Hfree.
    - exists s, (tagFound, None), []. rewrite app_nil_r.
      splits; try assumption; try reflexivity. intros _ n. apply only_touches_refl. }
  destruct Hstage as (s1 & [tf1 e1] & types1 & Hstage & Hh1 & Hframe1).
  rewrite (bind_Ret _ _ _ _ _ Hstage).
  assert (Hlen1 : length (heap s) <= length (heap s1)).
  { rewrite (well_typed_length _ _ Hh), (well_typed_length _ _ Hh1), length_app. lia. }
  destruct e1 as [e1|].
  { exists s1, (tf1, Some e1), types1. splits; try assumption; try reflexivity.
    intros Hfr n _. now apply Hframe1. }
  destruct (struct_below (Typ f)) as [st|] eqn:Hst.
  2:{ exists s1, (tf1, None), types1. splits; try assumption; try reflexivity.
      intros Hfr n _. now apply Hframe1. }
  assert (Hex : exported f = true).
  { unfold needs_set in Hexp. rewrite Hst, orb_true_r in Hexp. cbn in Hexp.
    now destruct (exported f). }
  destruct (enter_struct_typed (types ++ types1) f (Field config i f) st s1 Hst)
    as (s2 & types2 & value' & Henter & Hcalls2 & Hh2 & Hpl2 & Hsticky2 & Hfill2);
    try assumption.
  { now apply exported_flagRO. }
  { reflexivity. }
  { apply place_type_weaken. eapply place_type_field; eauto. }
  destruct (Hrec st eq_refl _ value' s2 Hsticky2 Hh2 Hpl2)
    as (s3 & [tf3 e3] & types3 & Hsub & Hh3 & Hframe3).
  unfold descend. rewrite (bind_Ret _ _ _ _ _ Henter), (bind_Ret _ _ _ _ _ Hsub).
  cbn [fst snd].
  exists s3, (if Tagged tag && tf3
              then (tf1, Some (ErrNestedTags (reflect.Name f) (Name tag)))
              else (tf1, e3)), (types1 ++ types2 ++ types3).
  splits.
  - now destruct (Tagged tag && tf3).
  - now rewrite !app_assoc in *.
  - intros Hfr n Hn.
    eapply only_touches_trans; [now apply Hframe1|].
    eapply only_touches_trans.
    + apply only_fills_touches. eapply only_fills_narrow. apply Hfill2. lia.
    + eapply only_touches_narrow. rewrite <- app_assoc in Hframe3.
      apply (Hframe3 Hfr). pose proof (proj1 (Hfill2 n ltac:(lia))). lia.
Qed.

Lemma parse_fields_safe (ext : Extern) (p : Parser)
    (recur : rtype -> Value -> M (bool * option error)) (free : bool) (config : Value)
    (fs : list StructField) :
  json_typed ext \/ free = true ->
  Forall (fun f =>
            (free = true -> JSON (fst (parseTag f (Tag p))) = false) /\
            implb (needs_set (Tag p) f) (exported f) = true /\
            forall st, struct_below (Typ f) = Some st ->
              forall types1 v s1,
                flagStickyRO v = false -> well_typed types1 (heap s1) ->
                place_type types1 (ref v) = Some st ->
                safe (Tag p) free types1 s1 (recur st v s1)) fs ->
  flagStickyRO config = false ->
  forall pre types tagFound s,
    well_typed types (heap s) ->
    place_type types (ref config) = Some (TStruct (pre ++ fs)) ->
    safe (Tag p) free types s
      (parse_fields ext p recur config fs (length pre) tagFound s).
Proof.
  intros Hjson Hfs Hsticky.
  induction Hfs as [|f fs (Hfree & Hexp & Hrec) _ IH]; intros pre types tf s Hh Hpl.
  - now apply safe_ret.
  - cbn [parse_fields].
    destruct (parse_field_safe ext p recur free types config (length pre) f
                (pre ++ f :: fs) tf s Hjson Hfree Hexp Hrec Hsticky Hh Hpl)
      as (s1 & [tf1 e1] & types1 & Hstep & Hh1 & Hframe1).
    { now apply list_lookup_middle. }
    rewrite (bind_Ret _ _ _ _ _ Hstep). cbv beta iota.
    destruct e1 as [e1|].
    { exists s1, (tf1, Some e1), types1. now splits. }
    destruct (IH (pre ++ [f]) (types ++ types1) tf1 s1 Hh1)
      as (s2 & res & types2 & Hrest & Hh2 & Hframe2).
    { rewrite <- app_assoc. now apply place_type_weaken. }
    rewrite length_app, Nat.add_1_r in Hrest.
    exists s2, res, (types1 ++ types2). rewrite app_assoc.
    splits; try assumption.
    intros Hfr n Hn. eapply only_touches_trans; [now apply Hframe1|].
    eapply only_touches_narrow, (Hframe2 Hfr).
    pose proof (proj1 (Hframe1 Hfr n Hn)). lia.
Qed.

(** [parse] on a struct of well-typed memory whose fields can be set
    returns, with or without an error, and memory stays well-typed; when no
    annotation declares [json] it changes annotated fields and nil pointers
    to structs only. *)
Lemma parse_safe (ext : Extern) (p : Parser) (t : rtype) :
  json_typed ext \/ json_free (Tag p) t = true ->
  settable (Tag p) t = true ->
  forall types v s,
    flagStickyRO v = false -> well_typed types (heap s) ->
    place_type types (ref v) = Some t -> (exists fs, t = TStruct fs) ->
    safe (Tag p) (json_free (Tag p) t) types s (parse ext p t v s).
Proof.
  induction t as [t Ht|fs IH] using rtype_struct_ind;
    intros Hjson Hset types v s Hsticky Hh Hpl Hstruct.
  - destruct Hstruct as [fs ->]. now destruct (Ht fs).
  - rewrite parse_struct.
    apply (parse_fields_safe ext p (parse ext p) _ v fs) with (pre := []);
      try assumption.
    apply forallb_reached in Hset.
    assert (Hfree : Forall (fun f =>
              json_free (Tag p) (TStruct fs) = true ->
              JSON (fst (parseTag f (Tag p))) = false /\
              forall st, struct_below (Typ f) = Some st ->
                         json_free (Tag p) st = true) fs).
    { destruct (json_free (Tag p) (TStruct fs)) eqn:Hfr.
      - apply forallb_reached in Hfr. eapply List.Forall_impl; [|exact Hfr].
        intros f [Hj Hb] _. split; [now apply negb_true_iff in Hj|exact Hb].
      - apply Forall_forall. intros f _. discriminate. }
    rewrite Forall_forall in IH, Hset, Hfree. apply Forall_forall. intros f Hin.
    destruct (Hset f Hin) as [Hexp Hset_below]. splits.
    + intros Hfr. now apply (Hfree f Hin).
    + exact Hexp.
    + intros st Hst types1 v1 s1 Hsticky1 Hh1 Hpl1.
      apply safe_weaken with (free := json_free (Tag p) st).
      { intros Hfr. now apply (Hfree f Hin). }
      apply (IH f Hin st Hst); try assumption.
      * destruct Hjson as [Hjson|Hfr]; [now left|right]. now apply (Hfree f Hin).
      * now apply Hset_below.
      * now apply struct_below_struct in Hst.
Qed.

(** X9: on a record of a struct type that does not mention itself, in
    well-typed memory, whose reachable fields that are annotated, or are
    structs or pointers to structs, are exported, [Get] never panics and
    never meets ill-typed memory: it ends with nil or an error, and memory
    is still well-typed.  (Struct types are finite trees here.  On a type
    that mentions itself, such as [type T struct { Next *T }], [parse]
    allocates the pointer and descends without end; such types are outside
    the statement.)  The JSON decoder is assumed to keep memory
    well-typed. *)
Theorem Get_never_panics (ext : Extern) (p : Parser) (fs : list StructField)
    (pl : place) (s : state) (types : list rtype) :
  json_typed ext ->
  settable (Tag p) (TStruct fs) = true ->
  well_typed types (heap s) ->
  place_type types pl = Some (TStruct fs) ->
  exists s' err types',
    Get ext p (Some (TPtr (TStruct fs), VPtr (Some pl))) s = (s', Ret err) /\
    well_typed (types ++ types') (heap s').
Proof.
  intros Hjson Hset Hh Hpl.
  destruct (parse_safe ext p (TStruct fs) (or_introl Hjson) Hset types
              (mkValue (TStruct fs) pl false false) s)
    as (s' & [tf err] & types' & Hparse & Hh' & _); try assumption; try reflexivity.
  { eauto. }
  exists s', err, types'. split; [|assumption].
  exact (Get_parse _ _ _ _ _ _ _ _ Hparse).
Qed.

(** X10: with no annotation declaring [json], [Get] changes nothing in
    memory but annotated fields and nil pointers to structs, whether it
    succeeds or fails: a field without annotation keeps its value. *)
Theorem Get_touches_annotated_only (ext : Extern) (p : Parser) (fs : list StructField)
    (pl : place) (s : state) (types : list rtype) :
  json_free (Tag p) (TStruct fs) = true ->
  settable (Tag p) (TStruct fs) = true ->
  well_typed types (heap s) ->
  place_type types pl = Some (TStruct fs) ->
  exists s' err,
    Get ext p (Some (TPtr (TStruct fs), VPtr (Some pl))) s = (s', Ret err) /\
    only_touches (Tag p) types (length (heap s)) (heap s) (heap s').
Proof.
  intros Hfree Hset Hh Hpl.
  destruct (parse_safe ext p (TStruct fs) (or_intror Hfree) Hset types
              (mkValue (TStruct fs) pl false false) s)
    as (s' & [tf err] & types' & Hparse & _ & Hframe); try assumption; try reflexivity.
  { eauto. }
  exists s', err. split.
  - exact (Get_parse _ _ _ _ _ _ _ _ Hparse).
  - now apply Hframe.
Qed.

(* ===================================================================== *)
(** ** The field resolver on strings, pointers and unexported fields *)
(* ===================================================================== *)

(** [setValue] on a field that may be set, for bytes that coerce. *)
Lemma setValue_coerced (ext : Extern) (v : Value) (key : string) (bytes : list byte)
    (s : state) (x x0 : value) :
  flagRO v = false -> heap_get (heap s) (ref v) = Some x0 ->
  coerced ext bytes (typ v) x ->
  exists h', heap_set (heap s) (ref v) x = Some h' /\
             setValue ext v key bytes s = (mkState h' (calls s), Ret None).
Proof.
  intros Hro Hget Hx. pose proof (setValue_coerces ext v key bytes s) as H.
  destruct (setValue ext v key bytes s) as [s' [[e|]| |]]; cbn [coerces] in H.
  - destruct H as [_ He]. now destruct (coerced_no_error _ _ _ _ _ _ Hx He).
  - destruct H as (_ & Hc & y & Hy & Hset).
    rewrite (coerced_functional _ _ _ _ _ Hx Hy). exists (heap s'). split; [assumption|].
    destruct s' as [h' c']. cbn [calls heap] in *. now subst.
  - destruct H as (_ & Hro' & _). congruence.
  - destruct H as (_ & _ & Hnone). congruence.
Qed.

(** X11: a string field and a byte-slice field take the value of the name
    as it is: no trimming, no check, the empty value included. *)
Theorem retrieve_verbatim (ext : Extern) (p : Parser) (v : Value) (tag : tagData)
    (raw : string) (x0 : value) (s : state) :
  typ v = TString \/ typ v = TSlice (TUint W8) ->
  flagRO v = false ->
  heap_get (heap s) (ref v) = Some x0 ->
  LookupFn p (Name tag) = Some raw ->
  Base64 tag = false -> JSON tag = false ->
  exists h',
    retrieve ext p v tag s = (mkState h' (calls s ++ [Name tag]), Ret None) /\
    heap_set (heap s) (ref v)
      (match typ v with
       | TString => VString raw
       | _ => VSlice (List.map value_of_byte (list_byte_of_string raw))
       end) = Some h'.
Proof.
  intros Hty Hro Hget Hlook Hb64 Hjson.
  rewrite (retrieve_found ext p v tag raw s Hlook), Hb64, Hjson.
  assert (Hnot : forall e, typ v <> TPtr e) by (destruct Hty as [-> | ->]; discriminate).
  rewrite (match_not_ptr (typ v) _ _ Hnot).
  rewrite (bind_Ret (ret v) _ _ _ _ eq_refl).
  destruct (setValue_coerced ext v (Name tag) (list_byte_of_string raw)
              (called (Name tag) s)
              (match typ v with
               | TString => VString raw
               | _ => VSlice (List.map value_of_byte (list_byte_of_string raw))
               end) x0 Hro Hget) as (h' & Hset & Hrun).
  { destruct Hty as [-> | ->].
    - rewrite <- (string_of_list_byte_of_string raw) at 2. apply coerced_string.
    - apply coerced_bytes. }
  exists h'. now split.
Qed.

(** X12: declaring [base64] amounts to looking up the decoded text: scalar
    coercion is applied to the decoded bytes, and its errors carry the
    decoded text. *)
Theorem retrieve_base64_then_coerce (ext : Extern) (p p' : Parser) (v : Value)
    (tag : tagData) (raw : string) (bytes : list byte) (s : state) :
  Base64 tag = true -> JSON tag = false ->
  LookupFn p (Name tag) = Some raw ->
  base64_DecodeString ext raw = inl bytes ->
  LookupFn p' (Name tag) = Some (string_of_list_byte bytes) ->
  retrieve ext p v tag s =
  retrieve ext p' v (mkTagData (Tagged tag) (Name tag) (Optional tag) false false) s.
Proof.
  intros Hb64 Hjson Hlook Hdec Hlook'.
  rewrite (retrieve_found ext p v tag raw s Hlook), Hb64, Hdec, Hjson.
  rewrite (retrieve_found ext p' v
             (mkTagData (Tagged tag) (Name tag) (Optional tag) false false)
             (string_of_list_byte bytes) s Hlook').
  cbn [Base64 JSON Name]. now rewrite list_byte_of_string_of_list_byte.
Qed.

(** X13: an annotated field that is not exported cannot be populated: when
    its name is found and the value decodes and coerces, [retrieve]
    panics, and memory is as it was. *)
Theorem retrieve_unexported_panics (ext : Extern) (p : Parser) (config : Value)
    (i : nat) (f : StructField) (tag : tagData) (raw : string) (bytes : list byte)
    (x : value) (s : state) :
  exported f = false ->
  LookupFn p (Name tag) = Some raw ->
  decoded ext tag raw = inl bytes ->
  JSON tag = false ->
  coerced ext bytes (Typ f) x ->
  exists msg,
    retrieve ext p (Field config i f) tag s = (called (Name tag) s, Panic msg).
Proof.
  intros Hexp Hlook Hdec Hjson Hx.
  rewrite (retrieve_found ext p _ tag raw s Hlook).
  unfold decoded in Hdec. rewrite Hdec, Hjson.
  assert (Hnot : forall e, typ (Field config i f) <> TPtr e).
  { cbn [Field typ]. destruct Hx; discriminate. }
  rewrite (match_not_ptr _ _ _ Hnot).
  rewrite (bind_Ret (ret _) _ _ _ _ eq_refl).
  assert (Hro : flagRO (Field config i f) = true).
  { unfold flagRO, Field. cbn [flagStickyRO flagEmbedRO]. rewrite Hexp. cbn.
    destruct (Anonymous f); cbn; now rewrite ?orb_true_r. }
  pose proof (setValue_coerces ext (Field config i f) (Name tag) bytes
                (called (Name tag) s)) as H.
  destruct (setValue ext _ _ _ _) as [s' [[e|]| |]]; cbn [coerces] in H.
  - destruct H as [_ He]. now destruct (coerced_no_error _ _ _ _ _ _ Hx He).
  - destruct H as (Hro' & _). congruence.
  - destruct H as (-> & _). now exists msg.
  - destruct H as (_ & Hro' & _). congruence.
Qed.

Lemma heap_set_length (h h' : list value) (pl : place) (new : value) :
  heap_set h pl new = Some h' -> length h' = length h.
Proof.
  unfold heap_set. destruct (h !! fst pl) as [x|]; [|discriminate].
  destruct (set_at x (snd pl) new) as [x'|]; [|discriminate].
  intros [= <-]. apply length_insert.
Qed.

(** X14: scalar resolution of a pointer field always allocates.  When the
    name of a pointer field is found and decodes, and [json] is not
    declared, the field is pointed to a new zero object, whatever it pointed
    to before, and the coercion is applied to that object: the new object
    takes the coerced value, or keeps its zero when the coercion fails.
    Nothing is written to the object the field pointed to. *)
Theorem retrieve_pointer_allocates (ext : Extern) (p : Parser) (v : Value)
    (tag : tagData) (elem : rtype) (raw : string) (bytes : list byte) (x0 : value)
    (s : state) :
  typ v = TPtr elem ->
  flagRO v = false ->
  heap_get (heap s) (ref v) = Some x0 ->
  LookupFn p (Name tag) = Some raw ->
  decoded ext tag raw = inl bytes ->
  JSON tag = false ->
  exists h1 s' err,
    heap_set (heap s ++ [Zero elem]) (ref v) (VPtr (Some (length (heap s), []))) = Some h1 /\
    retrieve ext p v tag s = (s', Ret err) /\
    calls s' = calls s ++ [Name tag] /\
    match err with
    | None =>
        exists x, coerced ext bytes elem x /\
                  heap_set h1 (length (heap s), []) x = Some (heap s')
    | Some e =>
        coercion_error ext elem (Name tag) (string_of_list_byte bytes) e /\ heap s' = h1
    end.
Proof.
  intros Hty Hro Hget Hlook Hdec Hjson.
  destruct (heap_set_defined (heap s ++ [Zero elem]) (ref v) x0
              (VPtr (Some (length (heap s), []))) (heap_get_app _ _ _ _ Hget))
    as [h1 Hset].
  exists h1.
  rewrite (retrieve_found ext p v tag raw s Hlook).
  unfold decoded in Hdec. rewrite Hdec, Hjson, Hty.
  rewrite bind_assoc, (bind_Ret _ _ _ _ _ (New_eq _ _)).
  rewrite bind_assoc.
  rewrite (bind_Ret _ _ _ _ _
             (Set_eq v _ (mkState (heap s ++ [Zero elem]) (calls (called (Name tag) s)))
                h1 Hro Hset)).
  rewrite (bind_Ret _ _ _ _ _
             (Elem_eq v (mkState h1 (calls (called (Name tag) s))) elem
                (length (heap s), []) Hty (heap_get_set _ _ _ _ Hset))).
  set (v' := mkValue elem (length (heap s), []) (flagStickyRO v) (flagEmbedRO v)).
  set (s1 := mkState h1 (calls (called (Name tag) s))).
  pose proof (setValue_coerces ext v' (Name tag) bytes s1) as H.
  destruct (setValue ext v' (Name tag) bytes s1) as [s' [[e|]| |]]; cbn [coerces] in H.
  - destruct H as [-> He]. exists s1, (Some e).
    splits; try reflexivity; try assumption.
  - destruct H as (_ & Hc & x & Hx & Hstore). exists s', None.
    splits; try reflexivity; try assumption. now exists x.
  - destruct H as (_ & Hro' & _). unfold flagRO in *. cbn in Hro'. congruence.
  - destruct H as (_ & _ & Hnone). exfalso.
    unfold heap_get in Hnone. cbn [s1 heap v' ref fst snd] in Hnone.
    destruct (lookup_lt_is_Some_2 h1 (length (heap s))) as [y Hy].
    { rewrite (heap_set_length _ _ _ _ Hset), length_app. cbn. lia. }
    rewrite Hy in Hnone. discriminate Hnone.
Qed.

(** X15: JSON resolution of a pointer field writes through a pointer that is
    not nil: the decoder is handed the pointer the field holds, in memory
    as it was.  For a nil pointer the field is first pointed to a new zero
    object, and the decoder is handed that pointer. *)
Theorem retrieve_json_pointer (ext : Extern) (p : Parser) (v : Value)
    (tag : tagData) (elem : rtype) (raw : string) (bytes : list byte)
    (held : option place) (s : state) :
  typ v = TPtr elem ->
  flagRO v = false ->
  heap_get (heap s) (ref v) = Some (VPtr held) ->
  LookupFn p (Name tag) = Some raw ->
  decoded ext tag raw = inl bytes ->
  JSON tag = true ->
  exists h1 pl,
    match held with
    | Some pl0 => h1 = heap s /\ pl = pl0
    | None =>
        heap_set (heap s ++ [Zero elem]) (ref v) (VPtr (Some pl)) = Some h1 /\
        pl = (length (heap s), [])
    end /\
    retrieve ext p v tag s =
    (mkState (fst (json_Unmarshal ext bytes (TPtr elem, VPtr (Some pl)) h1))
       (calls s ++ [Name tag]),
     Ret (match snd (json_Unmarshal ext bytes (TPtr elem, VPtr (Some pl)) h1) with
          | Some c => Some (ErrDecodeFailure c (Name tag) raw "json")
          | None => None
          end)).
Proof.
  intros Hty Hro Hget Hlook Hdec Hjson.
  rewrite (retrieve_found ext p v tag raw s Hlook).
  unfold decoded in Hdec. rewrite Hdec, Hjson. unfold decodeJSON. rewrite Hty.
  assert (Hend : forall h1 pl,
            bind (Unmarshal ext bytes (TPtr elem, VPtr (Some pl)))
              (fun err => match err with
                          | Some e => ret (Some (ErrDecodeFailure e (Name tag) raw "json"))
                          | None => ret None
                          end) (mkState h1 (calls s ++ [Name tag])) =
            (mkState (fst (json_Unmarshal ext bytes (TPtr elem, VPtr (Some pl)) h1))
               (calls s ++ [Name tag]),
             Ret (match snd (json_Unmarshal ext bytes (TPtr elem, VPtr (Some pl)) h1) with
                  | Some c => Some (ErrDecodeFailure c (Name tag) raw "json")
                  | None => None
                  end))).
  { intros h1 pl. unfold bind, Unmarshal. cbn [heap calls].
    destruct (json_Unmarshal ext bytes (TPtr elem, VPtr (Some pl)) h1) as [h2 [c|]];
      reflexivity. }
  destruct held as [pl0|].
  - exists (heap s), pl0. split; [now split|].
    rewrite bind_assoc.
    rewrite (bind_Ret _ _ _ _ _ (IsNil_ptr v (called (Name tag) s) pl0 Hget)).
    cbv beta iota. rewrite bind_assoc.
    rewrite (bind_Ret (ret tt) _ _ _ tt eq_refl).
    unfold Interface_ at 1. rewrite Hro, Hty. rewrite bind_assoc.
    rewrite (bind_Ret _ _ _ _ _ (load_eq v (called (Name tag) s) _ Hget)).
    rewrite (bind_Ret (ret _) _ _ _ _ eq_refl).
    apply (Hend (heap s) pl0).
  - destruct (heap_set_defined (heap s ++ [Zero elem]) (ref v) (VPtr None)
                (VPtr (Some (length (heap s), []))) (heap_get_app _ _ _ _ Hget))
      as [h1 Hset].
    exists h1, (length (heap s), []). split; [now split|].
    rewrite bind_assoc.
    rewrite (bind_Ret _ _ _ _ _ (IsNil_nil v (called (Name tag) s) Hget)).
    cbv beta iota. rewrite bind_assoc. rewrite bind_assoc.
    rewrite (bind_Ret _ _ _ _ _ (New_eq _ _)).
    rewrite (bind_Ret _ _ _ _ _
               (Set_eq v _ (mkState (heap s ++ [Zero elem]) (calls (called (Name tag) s)))
                  h1 Hro Hset)).
    unfold Interface_ at 1. rewrite Hro, Hty. rewrite bind_assoc.
    rewrite (bind_Ret _ _ _ _ _
               (load_eq v (mkState h1 (calls (called (Name tag) s))) _
                  (heap_get_set _ _ _ _ Hset))).
    rewrite (bind_Ret (ret _) _ _ _ _ eq_refl).
    apply (Hend h1 (length (heap s), [])).
Qed.

(* ===================================================================== *)
(** ** Flat records *)
(* ===================================================================== *)

Lemma set_at_app (path : list nat) (i : nat) (y : value) :
  forall x0 x0' xs,
    get_at x0 path = Some (VStruct xs) ->
    set_at x0 (path ++ [i]) y = Some x0' ->
    (exists x, xs !! i = Some x) /\
    set_at x0 path (VStruct (<[i := y]> xs)) = Some x0'.
Proof.
  induction path as [|j path IH]; intros x0 x0' xs; cbn [get_at set_at app].
  - intros [= ->]. destruct (xs !! i) as [x|]; [|discriminate].
    intros [= <-]. split; [now exists x|reflexivity].
  - destruct x0 as [| | | | | | |zs|]; try discriminate.
    destruct (zs !! j) as [z|]; [|discriminate]. intros Hget.
    destruct (set_at z (path ++ [i]) y) as [z'|] eqn:Hset; [|discriminate].
    intros [= <-]. destruct (IH z z' xs Hget Hset) as [Hx ->]. now split.
Qed.

Lemma set_at_set (path : list nat) (a b : value) :
  forall x x1 x2,
    set_at x path a = Some x1 -> set_at x1 path b = Some x2 ->
    set_at x path b = Some x2.
Proof.
  induction path as [|j path IH]; intros x x1 x2; cbn [set_at].
  - now intros _ H.
  - destruct x as [| | | | | | |zs|]; try discriminate.
    destruct (zs !! j) as [z|] eqn:Hz; [|discriminate].
    destruct (set_at z path a) as [z1|] eqn:H1; [|discriminate].
    intros [= <-]. cbn [set_at].
    rewrite list_lookup_insert_eq by (eapply lookup_lt_Some; eauto).
    destruct (set_at z1 path b) as [z2|] eqn:H2; [|discriminate].
    intros [= <-]. rewrite (IH z z1 z2 H1 H2). now rewrite list_insert_insert_eq.
Qed.

Lemma set_at_same (path : list nat) :
  forall x y, get_at x path = Some y -> set_at x path y = Some x.
Proof.
  induction path as [|j path IH]; intros x y; cbn [get_at set_at].
  - now intros [= ->].
  - destruct x as [| | | | | | |zs|]; try discriminate.
    destruct (zs !! j) as [z|] eqn:Hz; [|discriminate]. intros Hget.
    rewrite (IH z y Hget). now rewrite list_insert_id.
Qed.

Lemma heap_set_field (h h' : list value) (pl : place) (i : nat) (xs : list value)
    (y : value) :
  heap_get h pl = Some (VStruct xs) ->
  heap_set h (fst pl, snd pl ++ [i]) y = Some h' ->
  (exists x, xs !! i = Some x) /\
  heap_set h pl (VStruct (<[i := y]> xs)) = Some h'.
Proof.
  unfold heap_get, heap_set. cbn [fst snd].
  destruct (h !! fst pl) as [x0|]; [|discriminate]. intros Hget.
  destruct (set_at x0 (snd pl ++ [i]) y) as [x0'|] eqn:Hset; [|discriminate].
  intros [= <-]. destruct (set_at_app _ _ _ _ _ _ Hget Hset) as [Hx ->]. now split.
Qed.

Lemma heap_set_set (h h1 h2 : list value) (pl : place) (a b : value) :
  heap_set h pl a = Some h1 -> heap_set h1 pl b = Some h2 -> heap_set h pl b = Some h2.
Proof.
  unfold heap_set.
  destruct (h !! fst pl) as [x|] eqn:Hx; [|discriminate].
  destruct (set_at x (snd pl) a) as [x1|] eqn:H1; [|discriminate].
  intros [= <-]. rewrite list_lookup_insert_eq by (eapply lookup_lt_Some; eauto).
  destruct (set_at x1 (snd pl) b) as [x2|] eqn:H2; [|discriminate].
  intros [= <-]. rewrite (set_at_set _ _ _ _ _ _ H1 H2).
  now rewrite list_insert_insert_eq.
Qed.

Lemma heap_set_same (h : list value) (pl : place) (x : value) :
  heap_get h pl = Some x -> heap_set h pl x = Some h.
Proof.
  unfold heap_get, heap_set.
  destruct (h !! fst pl) as [x0|] eqn:Hx0; [|discriminate]. intros Hget.
  rewrite (set_at_same _ _ _ Hget). now rewrite list_insert_id.
Qed.

(** The resolution of a plain field: memory as it was, or the coerced
    value stored in the field. *)
Lemma retrieve_plain (ext : Extern) (p : Parser) (v : Value) (tag : tagData)
    (s s' : state) (err : option error) :
  (forall e, typ v <> TPtr e) -> JSON tag = false ->
  retrieve ext p v tag s = (s', Ret err) ->
  (heap s' = heap s /\ (err = None -> LookupFn p (Name tag) = None)) \/
  (err = None /\
   exists raw bytes y,
     LookupFn p (Name tag) = Some raw /\ decoded ext tag raw = inl bytes /\
     coerced ext bytes (typ v) y /\
     heap_set (heap s) (ref v) y = Some (heap s')).
Proof.
  intros Hnot Hjson H. destruct (LookupFn p (Name tag)) as [raw|] eqn:Hlook.
  2:{ rewrite retrieve_not_found in H by assumption. injection H as <- _.
      left. now split. }
  rewrite (retrieve_found ext p v tag raw s Hlook) in H.
  fold (decoded ext tag raw) in H.
  destruct (decoded ext tag raw) as [bytes|c] eqn:Hdec.
  2:{ injection H as <- <-. left. split; [reflexivity|discriminate]. }
  rewrite Hjson, (match_not_ptr _ _ _ Hnot) in H.
  rewrite (bind_Ret (ret v) _ _ _ _ eq_refl) in H.
  pose proof (setValue_coerces ext v (Name tag) bytes (called (Name tag) s)) as Hc.
  rewrite H in Hc. cbn [coerces] in Hc. destruct err as [e|].
  - destruct Hc as [-> _]. left. split; [reflexivity|discriminate].
  - destruct Hc as (_ & _ & y & Hy & Hset). right. split; [reflexivity|].
    now exists raw, bytes, y.
Qed.

Lemma plain_not_ptr (key : string) (f : StructField) :
  plain key f = true ->
  (forall e, Typ f <> TPtr e) /\ struct_below (Typ f) = None /\
  JSON (fst (parseTag f key)) = false.
Proof.
  unfold plain. intros H. apply andb_true_iff in H as [Hty Hj].
  apply negb_true_iff in Hj. splits; try assumption.
  - intros e He. now rewrite He in Hty.
  - now destruct (Typ f).
Qed.

(** The loop body at a plain field. *)
Lemma parse_field_plain (ext : Extern) (p : Parser)
    (recur : rtype -> Value -> M (bool * option error))
    (config : Value) (i : nat) (f : StructField) (tagFound : bool)
    (s s' : state) (tf : bool) (err : option error) (cur : list value) :
  plain (Tag p) f = true ->
  heap_get (heap s) (ref config) = Some (VStruct cur) ->
  parse_field ext p recur config i f tagFound s = (s', Ret (tf, err)) ->
  (heap s' = heap s /\ (err = None -> forall x, populated ext p f x x)) \/
  (err = None /\
   exists x y, cur !! i = Some x /\ populated ext p f x y /\
               heap_set (heap s) (ref config) (VStruct (<[i := y]> cur)) = Some (heap s')).
Proof.
  intros Hplain Hget. apply plain_not_ptr in Hplain as (Hnot & Hbelow & Hjson).
  rewrite parse_field_eq. unfold populated.
  destruct (parseTag f (Tag p)) as [tag [e|]] eqn:Htag.
  { intros H. apply ret_inv in H as [-> H]. injection H as _ ->.
    left. split; [reflexivity|discriminate]. }
  cbn [fst] in Hjson. rewrite Hbelow.
  intros H. apply bind_inv in H as (s1 & [tf1 e1] & H1 & H2).
  assert (He : err = e1 /\ s' = s1).
  { destruct e1; apply ret_inv in H2 as [-> H2]; injection H2 as _ ->; now split. }
  destruct He as [-> ->]. clear H2.
  destruct (Tagged tag).
  - apply bind_inv in H1 as (s2 & e2 & Hr & H1). apply ret_inv in H1 as [-> H1].
    injection H1 as _ <-.
    apply retrieve_plain in Hr; [|exact Hnot|exact Hjson].
    destruct Hr as [[Hheap Hnone]|(-> & raw & bytes & y & Hlook & Hdec & Hy & Hset)].
    + left. split; [assumption|]. intros He x. now rewrite (Hnone He).
    + right. split; [reflexivity|].
      destruct (heap_set_field _ _ _ _ _ _ Hget Hset) as [[x Hx] Hset'].
      exists x, y. splits; try assumption. rewrite Hlook. now exists bytes.
  - apply ret_inv in H1 as [-> H1]. injection H1 as _ <-.
    left. split; [reflexivity|]. now intros _ x.
Qed.

Lemma parse_fields_plain (ext : Extern) (p : Parser)
    (recur : rtype -> Value -> M (bool * option error)) (config : Value)
    (fs : list StructField) :
  forallb (plain (Tag p)) fs = true ->
  forall (pre : list StructField) cur tagFound s s' tf err,
    heap_get (heap s) (ref config) = Some (VStruct cur) ->
    parse_fields ext p recur config fs (length pre) tagFound s = (s', Ret (tf, err)) ->
    exists ys k,
      heap_set (heap s) (ref config) (VStruct ys) = Some (heap s') /\
      length ys = length cur /\
      (forall i, i < length pre -> ys !! i = cur !! i) /\
      (forall i, length pre + length fs <= i -> ys !! i = cur !! i) /\
      (err = None -> k = length fs) /\
      (forall j f x y,
         fs !! j = Some f -> cur !! (length pre + j) = Some x ->
         ys !! (length pre + j) = Some y ->
         if (j <? k)%nat then populated ext p f x y else y = x).
Proof.
  induction fs as [|f fs IH]; intros Hplain pre cur tagFound s s' tf err Hget H;
    cbn [parse_fields forallb] in *.
  - apply ret_inv in H as [-> H]. exists cur, 0. splits; try reflexivity.
    + now apply heap_set_same.
    + intros j f x y Hj. discriminate Hj.
  - apply andb_true_iff in Hplain as [Hf Hfs].
    apply bind_inv in H as (s1 & [tf1 e1] & H1 & H2).
    pose proof (parse_field_plain ext p recur config (length pre) f tagFound
                  s s1 tf1 e1 cur Hf Hget H1) as Hstep.
    destruct e1 as [e1|].
    { apply ret_inv in H2 as [-> H2]. injection H2 as _ ->.
      destruct Hstep as [[Hheap _]|[Hcontra _]]; [|discriminate Hcontra].
      exists cur, 0. splits; try reflexivity.
      - rewrite Hheap. now apply heap_set_same.
      - discriminate.
      - intros j g x y _ Hx Hy. cbn. congruence. }
    assert (Hcur1 : exists cur1,
              heap_set (heap s) (ref config) (VStruct cur1) = Some (heap s1) /\
              length cur1 = length cur /\
              (forall i, i <> length pre -> cur1 !! i = cur !! i) /\
              (forall x y, cur !! length pre = Some x -> cur1 !! length pre = Some y ->
                           populated ext p f x y)).
    { destruct Hstep as [[Hheap Hpop]|(_ & x & y & Hx & Hpop & Hset)].
      - exists cur. splits; try reflexivity.
        + rewrite Hheap. now apply heap_set_same.
        + intros x y Hx Hy. replace y with x by congruence. now apply Hpop.
      - exists (<[length pre := y]> cur). splits; try assumption.
        + now rewrite length_insert.
        + intros i Hi. now rewrite list_lookup_insert_ne by congruence.
        + intros x' y' Hx' Hy'.
          rewrite list_lookup_insert_eq in Hy' by (eapply lookup_lt_Some; eauto).
          congruence. }
    destruct Hcur1 as (cur1 & Hset1 & Hlen1 & Hother1 & Hpop1).
    specialize (IH Hfs (pre ++ [f]) cur1 tf1 s1 s' tf err).
    rewrite length_app, Nat.add_1_r in IH.
    destruct (IH (heap_get_set _ _ _ _ Hset1) H2)
      as (ys & k & Hset2 & Hlen2 & Hbefore & Hafter & Hall & Hfields).
    exists ys, (S k). splits.
    + eapply heap_set_set; eassumption.
    + congruence.
    + intros i Hi. rewrite Hbefore by lia. apply Hother1. lia.
    + intros i Hi. cbn [length] in Hi. rewrite Hafter by lia. apply Hother1. lia.
    + intros He. cbn [length]. now rewrite (Hall He).
    + intros j g x y Hg Hx Hy. destruct j as [|j]; cbn in Hg.
      * injection Hg as <-. rewrite Nat.add_0_r in Hx, Hy.
        rewrite Hbefore in Hy by lia. cbn. now apply Hpop1.
      * replace (length pre + S j) with (S (length pre) + j) in Hx, Hy by lia.
        change (S j <? S k)%nat with (j <? k)%nat.
        apply (Hfields j g x y Hg); [|assumption].
        rewrite Hother1 by lia. assumption.
Qed.

(** [parse] on a flat record. *)
Lemma parse_plain (ext : Extern) (p : Parser) (fs : list StructField) (v : Value)
    (xs : list value) (s s' : state) (tf : bool) (err : option error) :
  forallb (plain (Tag p)) fs = true ->
  heap_get (heap s) (ref v) = Some (VStruct xs) ->
  parse ext p (TStruct fs) v s = (s', Ret (tf, err)) ->
  exists ys k,
    heap_set (heap s) (ref v) (VStruct ys) = Some (heap s') /\
    length ys = length xs /\
    (forall i, length fs <= i -> ys !! i = xs !! i) /\
    (err = None -> k = length fs) /\
    (forall i f x y,
       fs !! i = Some f -> xs !! i = Some x -> ys !! i = Some y ->
       if (i <? k)%nat then populated ext p f x y else y = x).
Proof.
  intros Hplain Hget H. rewrite parse_struct in H.
  destruct (parse_fields_plain ext p (parse ext p) v fs Hplain (@nil StructField) xs
              false s s' tf err Hget H)
    as (ys & k & Hset & Hlen & _ & Hafter & Hall & Hfields).
  exists ys, k. splits; try assumption.
Qed.

(** X16: on a flat record, a struct of plain fields, [Get] goes through the
    fields in order and stops at the first that fails.  In each field it
    went through it stores the coerced value of the field's name, leaving
    a field without annotation and a field whose optional name is absent
    as they were; the failing field and the fields after it are as they
    were, and nothing else in memory is changed.  On success it went
    through every field. *)
Theorem Get_populates (ext : Extern) (p : Parser) (fs : list StructField) (pl : place)
    (xs : list value) (s s' : state) (err : option error) :
  forallb (plain (Tag p)) fs = true ->
  heap_get (heap s) pl = Some (VStruct xs) ->
  Get ext p (Some (TPtr (TStruct fs), VPtr (Some pl))) s = (s', Ret err) ->
  exists ys k,
    heap_set (heap s) pl (VStruct ys) = Some (heap s') /\
    length ys = length xs /\
    (forall i, length fs <= i -> ys !! i = xs !! i) /\
    (err = None -> k = length fs) /\
    (forall i f x y,
       fs !! i = Some f -> xs !! i = Some x -> ys !! i = Some y ->
       if (i <? k)%nat then populated ext p f x y else y = x).
Proof.
  intros Hplain Hget H. unfold Get in H.
  apply bind_inv in H as (s1 & [tf e1] & H1 & H). apply ret_inv in H as [-> H].
  cbn [snd] in H. subst e1.
  exact (parse_plain ext p fs (mkValue (TStruct fs) pl false false) xs s s1 tf err
           Hplain Hget H1).
Qed.

Lemma plain_reached (key : string) (fs : list StructField) :
  forallb (plain key) fs = true -> reached_fields (TStruct fs) = fs.
Proof.
  induction fs as [|f fs IH]; [reflexivity|]. cbn [forallb]. intros H.
  apply andb_true_iff in H as [Hf Hfs]. rewrite reached_fields_cons, (IH Hfs).
  apply plain_not_ptr in Hf as (_ & Hbelow & _). unfold fields_below.
  now rewrite Hbelow.
Qed.

Lemma plain_json_free (key : string) (fs : list StructField) :
  forallb (plain key) fs = true -> json_free key (TStruct fs) = true.
Proof.
  intros H. unfold json_free. rewrite (plain_reached key fs H).
  apply forallb_forall. intros f Hf. rewrite forallb_forall in H.
  apply H, plain_not_ptr in Hf as (_ & _ & ->). reflexivity.
Qed.

(** Once every reachable field is resolved and no annotation declares
    [json], a traversal raises no error, whatever memory holds. *)
Lemma resolved_no_error (ext : Extern) (p : Parser) (fs : list StructField)
    (x : value) (s s' : state) (e : error) :
  Forall (resolved ext p) (reached_fields (TStruct fs)) ->
  json_free (Tag p) (TStruct fs) = true ->
  Get ext p (Some (TPtr (TStruct fs), x)) s = (s', Ret (Some e)) -> False.
Proof.
  intros Hres Hfree H. apply Get_origin, origin_cases in H.
  destruct H as (f & tag & Hf & H).
  rewrite List.Forall_forall in Hres. destruct (Hres f Hf) as (tag' & Htag' & Hok).
  unfold json_free in Hfree. rewrite forallb_forall in Hfree.
  specialize (Hfree f Hf). rewrite Htag' in Hfree. cbn [fst] in Hfree.
  apply negb_true_iff in Hfree.
  destruct H as [Htag|[(Htag & Ht & _ & H)|(Htag & Ht & _ & st & Hst & Hd)]].
  - congruence.
  - assert (tag' = tag) by congruence. subst tag'.
    destruct (Hok Ht) as [Hval _].
    destruct (LookupFn p (Name tag)) as [raw|].
    + destruct Hval as (bytes & Hdec & Hco). rewrite Hdec, Hfree in H.
      rewrite Hfree in Hco. destruct Hco as [y Hy].
      now destruct (coerced_no_error _ _ _ _ _ _ Hy H).
    + destruct H as [_ Hopt]. congruence.
  - assert (tag' = tag) by congruence. subst tag'.
    destruct (Hok Ht) as [_ Hbelow]. rewrite (Hbelow st Hst) in Hd. discriminate Hd.
Qed.

Lemma populated_again (ext : Extern) (p : Parser) (f : StructField) (x y z : value) :
  populated ext p f x y -> populated ext p f y z -> z = y.
Proof.
  unfold populated. destruct (parseTag f (Tag p)) as [tag [e|]]; [now intros _ ->|].
  destruct (Tagged tag); [|now intros _ ->].
  destruct (LookupFn p (Name tag)) as [raw|]; [|now intros _ ->].
  intros (bytes & Hdec & Hy) (bytes' & Hdec' & Hz).
  assert (bytes' = bytes) by congruence. subst bytes'.
  eapply coerced_functional; eassumption.
Qed.

(** X17: on a flat record [Get] is idempotent: after a run that succeeded, a
    second run with the same lookup function succeeds too and leaves the
    record as the first run left it. *)
Theorem Get_idempotent (ext : Extern) (p : Parser) (fs : list StructField) (pl : place)
    (s s1 : state) (types : list rtype) :
  forallb (plain (Tag p)) fs = true ->
  settable (Tag p) (TStruct fs) = true ->
  well_typed types (heap s) ->
  place_type types pl = Some (TStruct fs) ->
  Get ext p (Some (TPtr (TStruct fs), VPtr (Some pl))) s = (s1, Ret None) ->
  exists s2,
    Get ext p (Some (TPtr (TStruct fs), VPtr (Some pl))) s1 = (s2, Ret None) /\
    heap s2 = heap s1.
Proof.
  intros Hplain Hset Hh Hpl Hrun.
  pose proof (plain_json_free _ _ Hplain) as Hfree.
  (* the first run *)
  destruct (parse_safe ext p (TStruct fs) (or_intror Hfree) Hset types
              (mkValue (TStruct fs) pl false false) s)
    as (s1' & [tf1 err1] & types1 & Hparse1 & Hh1 & _);
    try assumption; try reflexivity; [now exists fs|].
  pose proof (Get_parse _ _ _ _ _ _ _ _ Hparse1) as Hrun1.
  rewrite Hrun in Hrun1. injection Hrun1 as <- <-.
  pose proof (parse_success ext p _ _ _ _ _ Hparse1) as Hres.
  destruct (well_typed_get _ _ _ _ Hh Hpl) as (x0 & Hget & Hx0).
  inversion Hx0 as [| |xs fs' Hxs|x' t' _ Hs]; subst; [|now destruct (Hs fs)].
  destruct (parse_plain ext p fs (mkValue (TStruct fs) pl false false) xs s s1 tf1 None
              Hplain Hget Hparse1)
    as (ys & k & Hset1 & Hlen1 & Hafter1 & Hall1 & Hfields1).
  specialize (Hall1 eq_refl). subst k. cbn [ref] in Hset1.
  pose proof (heap_get_set _ _ _ _ Hset1) as Hget1.
  (* the second run *)
  destruct (parse_safe ext p (TStruct fs) (or_intror Hfree) Hset (types ++ types1)
              (mkValue (TStruct fs) pl false false) s1)
    as (s2 & [tf2 err2] & types2 & Hparse2 & _ & _);
    try assumption; try reflexivity;
    [now apply place_type_weaken|now exists fs|].
  pose proof (Get_parse _ _ _ _ _ _ _ _ Hparse2) as Hrun2.
  destruct err2 as [e|].
  { now destruct (resolved_no_error ext p fs _ s1 s2 e Hres Hfree Hrun2). }
  exists s2. split; [exact Hrun2|].
  destruct (parse_plain ext p fs (mkValue (TStruct fs) pl false false) ys s1 s2 tf2 None
              Hplain Hget1 Hparse2)
    as (zs & k & Hset2 & Hlen2 & Hafter2 & Hall2 & Hfields2).
  specialize (Hall2 eq_refl). subst k. cbn [ref] in Hset2.
  assert (Hzs : zs = ys).
  { apply list_eq. intros i.
    destruct (fs !! i) as [f|] eqn:Hf.
    - pose proof (lookup_lt_Some _ _ _ Hf) as Hi.
      apply Nat.ltb_lt in Hi.
      destruct (xs !! i) as [x|] eqn:Hx.
      + destruct (lookup_lt_is_Some_2 ys i) as [y Hy].
        { rewrite Hlen1. eapply lookup_lt_Some; eauto. }
        destruct (lookup_lt_is_Some_2 zs i) as [z Hz].
        { rewrite Hlen2, Hlen1. eapply lookup_lt_Some; eauto. }
        pose proof (Hfields1 i f x y Hf Hx Hy) as Hp1. rewrite Hi in Hp1.
        pose proof (Hfields2 i f y z Hf Hy Hz) as Hp2. rewrite Hi in Hp2.
        rewrite Hy, Hz. f_equal. eapply populated_again; eassumption.
      + apply lookup_ge_None in Hx.
        rewrite (proj2 (lookup_ge_None zs i)) by lia.
        now rewrite (proj2 (lookup_ge_None ys i)) by lia.
    - apply lookup_ge_None in Hf. now apply Hafter2. }
  subst zs. rewrite (heap_set_same _ _ _ Hget1) in Hset2. now injection Hset2.
Qed.

(* ===================================================================== *)
(** ** Runs on different memories *)
(* ===================================================================== *)

(** Scalar coercion raises one error at most. *)
Lemma coercion_error_functional (ext : Extern) (t : rtype) (key text : string)
    (e e' : error) :
  coercion_error ext t key text e -> coercion_error ext t key text e' -> e = e'.
Proof.
  intros He He'.
  destruct He; inversion He'; subst; try reflexivity; try discriminate;
    repeat match goal with
      | H : _ \/ _ |- _ => destruct H
      | H : TInt _ = TInt _ |- _ => injection H as ->
      | H : TUint _ = TUint _ |- _ => injection H as ->
      end;
    subst; try discriminate; try congruence.
Qed.

(** The result of [setValue], when it returns, is a function of the type
    of the field and of the bytes. *)
Lemma setValue_outcome (ext : Extern) (v v' : Value) (key : string) (bytes : list byte)
    (s s1 u u1 : state) (e e' : option error) :
  typ v = typ v' ->
  setValue ext v key bytes s = (s1, Ret e) ->
  setValue ext v' key bytes u = (u1, Ret e') ->
  e = e'.
Proof.
  intros Hty H H'.
  pose proof (setValue_coerces ext v key bytes s) as Hc.
  pose proof (setValue_coerces ext v' key bytes u) as Hc'.
  rewrite H in Hc. rewrite H' in Hc'. cbn [coerces] in Hc, Hc'. rewrite <- Hty in Hc'.
  destruct e as [e|], e' as [e'|].
  - f_equal. eapply coercion_error_functional; [apply Hc|apply Hc'].
  - destruct Hc as [_ He]. destruct Hc' as (_ & _ & x & Hx & _).
    now destruct (coerced_no_error _ _ _ _ _ _ Hx He).
  - destruct Hc' as [_ He]. destruct Hc as (_ & _ & x & Hx & _).
    now destruct (coerced_no_error _ _ _ _ _ _ Hx He).
  - reflexivity.
Qed.

(** Without [json], the result of [retrieve], when it returns, is a
    function of the type of the field: memory has no say. *)
Lemma retrieve_outcome (ext : Extern) (p : Parser) (v v' : Value) (tag : tagData)
    (s s1 u u1 : state) (e e' : option error) :
  JSON tag = false -> typ v = typ v' ->
  retrieve ext p v tag s = (s1, Ret e) ->
  retrieve ext p v' tag u = (u1, Ret e') ->
  e = e'.
Proof.
  intros Hjson Hty H H'.
  destruct (LookupFn p (Name tag)) as [raw|] eqn:Hlook.
  2:{ rewrite retrieve_not_found in H, H' by assumption. congruence. }
  rewrite (retrieve_found ext p v tag raw s Hlook) in H.
  rewrite (retrieve_found ext p v' tag raw u Hlook) in H'.
  destruct (if Base64 tag then _ else _) as [bytes|c]; [|congruence].
  rewrite Hjson in H, H'.
  apply bind_inv in H as (s2 & w & Hw & H).
  apply bind_inv in H' as (u2 & w' & Hw' & H').
  apply coercion_target_typ in Hw, Hw'.
  eapply setValue_outcome; [|exact H|exact H']. congruence.
Qed.

Lemma parse_field_outcome (ext : Extern) (p : Parser)
    (recur : rtype -> Value -> M (bool * option error))
    (config config' : Value) (i i' : nat) (f : StructField) (tagFound : bool)
    (s s1 u u1 : state) (r r' : bool * option error) :
  JSON (fst (parseTag f (Tag p))) = false ->
  (forall st, struct_below (Typ f) = Some st ->
     forall v v' a a1 b b1 q q',
       recur st v a = (a1, Ret q) -> recur st v' b = (b1, Ret q') ->
       q = q' /\ exists made, calls a1 = calls a ++ made /\ calls b1 = calls b ++ made) ->
  parse_field ext p recur config i f tagFound s = (s1, Ret r) ->
  parse_field ext p recur config' i' f tagFound u = (u1, Ret r') ->
  r = r' /\ exists made, calls s1 = calls s ++ made /\ calls u1 = calls u ++ made.
Proof.
  intros Hjson Hrec. rewrite !parse_field_eq.
  destruct (parseTag f (Tag p)) as [tag [e|]] eqn:Htag.
  { intros H H'. apply ret_inv in H as [-> ->]. apply ret_inv in H' as [-> ->].
    split; [reflexivity|]. exists []. now rewrite !app_nil_r. }
  cbn [fst] in Hjson.
  intros H H'.
  apply bind_inv in H as (s2 & [tf2 e2] & H2 & H).
  apply bind_inv in H' as (u2 & [tf2' e2'] & H2' & H').
  assert (Hstage : (tf2, e2) = (tf2', e2') /\
                   exists made, calls s2 = calls s ++ made /\ calls u2 = calls u ++ made).
  { destruct (Tagged tag).
    - apply bind_inv in H2 as (s3 & e3 & Hr & H2). apply ret_inv in H2 as [-> H2].
      apply bind_inv in H2' as (u3 & e3' & Hr' & H2'). apply ret_inv in H2' as [-> H2'].
      injection H2 as -> ->. injection H2' as -> ->.
      rewrite (retrieve_outcome ext p (Field config i f) (Field config' i' f) tag
                 _ _ _ _ _ _ Hjson eq_refl Hr Hr').
      split; [reflexivity|]. exists [Name tag].
      pose proof (retrieve_calls ext p (Field config i f) tag s) as Hc.
      pose proof (retrieve_calls ext p (Field config' i' f) tag u) as Hc'.
      rewrite Hr in Hc. rewrite Hr' in Hc'. now split.
    - apply ret_inv in H2 as [-> ->]. apply ret_inv in H2' as [-> ->].
      split; [reflexivity|]. exists []. now rewrite !app_nil_r. }
  destruct Hstage as [Heq (made1 & Hm & Hm')]. injection Heq as <- <-.
  destruct e2 as [e2|].
  { apply ret_inv in H as [-> ->]. apply ret_inv in H' as [-> ->].
    split; [reflexivity|]. now exists made1. }
  destruct (struct_below (Typ f)) as [st|] eqn:Hst.
  2:{ apply ret_inv in H as [-> ->]. apply ret_inv in H' as [-> ->].
      split; [reflexivity|]. now exists made1. }
  unfold descend in H, H'.
  apply bind_inv in H as (s3 & w & He & H). apply bind_inv in H as (s4 & q & Hq & H).
  apply bind_inv in H' as (u3 & w' & He' & H'). apply bind_inv in H' as (u4 & q' & Hq' & H').
  pose proof (keeps_eq _ _ _ _ (keeps_enter_struct f _) He) as Hk.
  pose proof (keeps_eq _ _ _ _ (keeps_enter_struct f _) He') as Hk'.
  destruct (Hrec st eq_refl _ _ _ _ _ _ _ _ Hq Hq') as [<- (made2 & Hn & Hn')].
  assert (Hcalls : exists made, calls s4 = calls s ++ made /\ calls u4 = calls u ++ made).
  { exists (made1 ++ made2). rewrite Hn, Hn', Hk, Hk', Hm, Hm'. now rewrite !app_assoc. }
  destruct (Tagged tag && fst q);
    apply ret_inv in H as [-> ->]; apply ret_inv in H' as [-> ->]; now split.
Qed.

Lemma parse_fields_outcome (ext : Extern) (p : Parser)
    (recur : rtype -> Value -> M (bool * option error)) (config config' : Value)
    (fs : list StructField) :
  Forall (fun f =>
            JSON (fst (parseTag f (Tag p))) = false /\
            forall st, struct_below (Typ f) = Some st ->
              forall v v' a a1 b b1 q q',
                recur st v a = (a1, Ret q) -> recur st v' b = (b1, Ret q') ->
                q = q' /\
                exists made, calls a1 = calls a ++ made /\ calls b1 = calls b ++ made) fs ->
  forall i i' tagFound s s1 u u1 r r',
    parse_fields ext p recur config fs i tagFound s = (s1, Ret r) ->
    parse_fields ext p recur config' fs i' tagFound u = (u1, Ret r') ->
    r = r' /\ exists made, calls s1 = calls s ++ made /\ calls u1 = calls u ++ made.
Proof.
  induction 1 as [|f fs [Hjson Hrec] _ IH]; intros i i' tagFound s s1 u u1 r r' H H';
    cbn [parse_fields] in H, H'.
  - apply ret_inv in H as [-> ->]. apply ret_inv in H' as [-> ->].
    split; [reflexivity|]. exists []. now rewrite !app_nil_r.
  - apply bind_inv in H as (s2 & [tf2 e2] & H2 & H).
    apply bind_inv in H' as (u2 & [tf2' e2'] & H2' & H').
    destruct (parse_field_outcome ext p recur config config' i i' f tagFound
                s s2 u u2 _ _ Hjson Hrec H2 H2') as [Heq (made1 & Hm & Hm')].
    injection Heq as <- <-.
    destruct e2 as [e2|].
    { apply ret_inv in H as [-> ->]. apply ret_inv in H' as [-> ->].
      split; [reflexivity|]. now exists made1. }
    destruct (IH _ _ _ _ _ _ _ _ _ H H') as [-> (made2 & Hn & Hn')].
    split; [reflexivity|]. exists (made1 ++ made2).
    rewrite Hn, Hn', Hm, Hm'. now rewrite !app_assoc.
Qed.

(** Without [json], what [parse] returns and the names it looks up are a
    function of the type of the struct: the values memory holds have no
    say. *)
Lemma parse_outcome (ext : Extern) (p : Parser) (t : rtype) :
  json_free (Tag p) t = true ->
  forall v v' s s1 u u1 r r',
    parse ext p t v s = (s1, Ret r) -> parse ext p t v' u = (u1, Ret r') ->
    r = r' /\ exists made, calls s1 = calls s ++ made /\ calls u1 = calls u ++ made.
Proof.
  induction t as [t Ht|fs IH] using rtype_struct_ind; intros Hfree v v' s s1 u u1 r r' H H'.
  - destruct t; try discriminate H. now destruct (Ht fields).
  - rewrite parse_struct in H, H'.
    eapply parse_fields_outcome; [|exact H|exact H'].
    apply forallb_reached in Hfree.
    rewrite Forall_forall in IH, Hfree. apply Forall_forall. intros f Hin.
    destruct (Hfree f Hin) as [Hj Hbelow]. split; [now apply negb_true_iff in Hj|].
    intros st Hst. apply (IH f Hin st Hst). now apply Hbelow.
Qed.

(** X18: with no annotation declaring [json], the result of [Get] and the
    names it looks up do not depend on the values the record holds: two
    runs on records of the same type, anywhere in memory, that both return
    return the same error (or both nil) after the same lookups. *)
Theorem Get_outcome_memory_independent (ext : Extern) (p : Parser)
    (fs : list StructField) (x x' : value) (s s1 u u1 : state) (e e' : option error) :
  json_free (Tag p) (TStruct fs) = true ->
  Get ext p (Some (TPtr (TStruct fs), x)) s = (s1, Ret e) ->
  Get ext p (Some (TPtr (TStruct fs), x')) u = (u1, Ret e') ->
  e = e' /\ exists made, calls s1 = calls s ++ made /\ calls u1 = calls u ++ made.
Proof.
  intros Hfree H H'. unfold Get in H, H'.
  destruct x as [| | | | |[pl|]| | |]; try discriminate H.
  destruct x' as [| | | | |[pl'|]| | |]; try discriminate H'.
  apply bind_inv in H as (s2 & r & Hp & H). apply ret_inv in H as [-> ->].
  apply bind_inv in H' as (u2 & r' & Hp' & H'). apply ret_inv in H' as [-> ->].
  destruct (parse_outcome ext p (TStruct fs) Hfree _ _ _ _ _ _ _ _ Hp Hp') as [-> Hcalls].
  now split.
Qed.

(* ===================================================================== *)
(** ** Runs on records that are equal up to addresses *)
(* ===================================================================== *)

Lemma similar_mono (rho rho' : list (nat * nat)) :
  incl rho rho' -> forall x y, similar rho x y -> similar rho' x y.
Proof.
  intros Hincl x.
  assert (Hlist : forall xs ys,
            Forall (fun x => forall y, similar rho x y -> similar rho' x y) xs ->
            Forall2 (similar rho) xs ys -> Forall2 (similar rho') xs ys).
  { intros xs ys IH Hall. revert IH.
    induction Hall as [|x0 y0 xs ys Hx _ IHall]; intros IH; constructor;
      inversion IH; subst; auto. }
  induction x as [b|z|z|f|s|p|xs IH|xs IH|tok] using value_ind'; intros y Hxy;
    inversion Hxy as [| | | | | |l1 l2 path Hin|xs' ys Hall|xs' ys Hall|]; subst;
    try constructor; auto.
Qed.

Lemma same_Value_mono (rho rho' : list (nat * nat)) (v1 v2 : Value) :
  incl rho rho' -> same_Value rho v1 v2 -> same_Value rho' v1 v2.
Proof. intros Hincl (Ht & Hin & Hrest). split; [assumption|]. split; [now apply Hincl|assumption]. Qed.

Lemma similar_Zero (rho : list (nat * nat)) (t : rtype) : similar rho (Zero t) (Zero t).
Proof.
  induction t as [|w|w| | | |e _|e _|fs IH|k] using rtype_ind'; cbn [Zero];
    try (constructor; fail); [now do 2 constructor|].
  constructor.
  induction IH as [|f fs Hf _ IHfs]; constructor; [|exact IHfs]. now destruct f.
Qed.

Lemma Forall2_similar_lookup (rho : list (nat * nat)) (xs ys : list value) (i : nat) :
  Forall2 (similar rho) xs ys -> option_similar rho (xs !! i) (ys !! i).
Proof.
  intros H. destruct (xs !! i) as [xi|] eqn:Hxi.
  - destruct (Forall2_lookup_l _ _ _ _ _ H Hxi) as (yi & -> & Hi). exact Hi.
  - rewrite (lookup_ge_None_2 ys i); [exact I|].
    apply lookup_ge_None_1 in Hxi. now rewrite <- (Forall2_length _ _ _ H).
Qed.

Lemma similar_get_at (rho : list (nat * nat)) (path : list nat) :
  forall x y, similar rho x y -> option_similar rho (get_at x path) (get_at y path).
Proof.
  induction path as [|i path IH]; intros x y H; cbn [get_at].
  - exact H.
  - inversion H as [| | | | | | |xs ys Hall|xs ys Hall|]; subst; try exact I.
    pose proof (Forall2_similar_lookup rho xs ys i Hall) as Hi.
    destruct (xs !! i) as [xi|], (ys !! i) as [yi|]; try contradiction; [|exact I].
    now apply IH.
Qed.

Lemma similar_set_at (rho : list (nat * nat)) (path : list nat) (new1 new2 : value) :
  similar rho new1 new2 ->
  forall x y, similar rho x y ->
    option_similar rho (set_at x path new1) (set_at y path new2).
Proof.
  intros Hnew. induction path as [|i path IH]; intros x y H; cbn [set_at].
  - exact Hnew.
  - inversion H as [| | | | | | |xs ys Hall|xs ys Hall|]; subst; try exact I.
    pose proof (Forall2_similar_lookup rho xs ys i Hall) as Hi.
    destruct (xs !! i) as [xi|], (ys !! i) as [yi|]; try contradiction; [|exact I].
    specialize (IH xi yi Hi).
    destruct (set_at xi path new1) as [xi'|], (set_at yi path new2) as [yi'|];
      try contradiction; [|exact I].
    cbn. constructor. now apply Forall2_insert.
Qed.

Lemma alike_heap_get (rho : list (nat * nat)) (h1 h2 : list value) (pl1 pl2 : place) :
  alike rho h1 h2 -> In (fst pl1, fst pl2) rho -> snd pl1 = snd pl2 ->
  option_similar rho (heap_get h1 pl1) (heap_get h2 pl2).
Proof.
  intros (_ & _ & Hobj) Hin Hpath. unfold heap_get.
  destruct (Hobj _ _ Hin) as (x1 & x2 & -> & -> & Hx). rewrite Hpath.
  now apply similar_get_at.
Qed.

Lemma alike_heap_set (rho : list (nat * nat)) (h1 h2 : list value) (pl1 pl2 : place)
    (new1 new2 : value) :
  alike rho h1 h2 -> In (fst pl1, fst pl2) rho -> snd pl1 = snd pl2 ->
  similar rho new1 new2 ->
  match heap_set h1 pl1 new1, heap_set h2 pl2 new2 with
  | Some h1', Some h2' => alike rho h1' h2'
  | None, None => True
  | _, _ => False
  end.
Proof.
  intros (Hfun & Hinj & Hobj) Hin Hpath Hnew. unfold heap_set.
  destruct (Hobj _ _ Hin) as (x1 & x2 & Hx1 & Hx2 & Hx). rewrite Hx1, Hx2, Hpath.
  pose proof (similar_set_at rho (snd pl2) new1 new2 Hnew x1 x2 Hx) as Hset.
  destruct (set_at x1 (snd pl2) new1) as [x1'|], (set_at x2 (snd pl2) new2) as [x2'|];
    try contradiction; [|exact I].
  cbn in Hset. split; [assumption|]. split; [assumption|].
  intros l1 l2 Hl. destruct (decide (l1 = fst pl1)) as [->|Hne].
  - rewrite (Hfun _ _ _ Hl Hin).
    rewrite !list_lookup_insert_eq by (eapply lookup_lt_Some; eauto). eauto.
  - assert (l2 <> fst pl2) by (intros ->; apply Hne; eapply Hinj; eauto).
    rewrite !list_lookup_insert_ne by congruence. now apply Hobj.
Qed.

Lemma alike_alloc (rho : list (nat * nat)) (h1 h2 : list value) (x1 x2 : value) :
  alike rho h1 h2 -> similar rho x1 x2 ->
  alike ((length h1, length h2) :: rho) (h1 ++ [x1]) (h2 ++ [x2]).
Proof.
  intros (Hfun & Hinj & Hobj) Hx.
  assert (Hold : forall l1 l2, In (l1, l2) rho -> l1 < length h1 /\ l2 < length h2).
  { intros l1 l2 Hl. destruct (Hobj _ _ Hl) as (y1 & y2 & Hy1 & Hy2 & _).
    split; eapply lookup_lt_Some; eauto. }
  assert (Hincl : incl rho ((length h1, length h2) :: rho)) by (intros pr; now right).
  split; [|split].
  - intros l1 l2 l2' [[= <- <-]|Hl] [[= <-]|Hl']; trivial.
    + apply Hold in Hl'. lia.
    + apply Hold in Hl. lia.
    + eapply Hfun; eauto.
  - intros l1 l1' l2 [[= <- <-]|Hl] [[= <- ]|Hl']; trivial.
    + apply Hold in Hl'. lia.
    + apply Hold in Hl. lia.
    + eapply Hinj; eauto.
  - intros l1 l2 [[= <- <-]|Hl].
    + exists x1, x2. rewrite !lookup_app_r, !Nat.sub_diag by lia.
      splits; try reflexivity. now apply similar_mono with (rho := rho).
    + destruct (Hobj _ _ Hl) as (y1 & y2 & Hy1 & Hy2 & Hy).
      exists y1, y2. rewrite (lookup_app_l_Some _ _ _ _ Hy1), (lookup_app_l_Some _ _ _ _ Hy2).
      splits; try reflexivity. now apply similar_mono with (rho := rho).
Qed.

(** *** Calls that go the same way *)

Lemma in_step_ret {A} (R : list (nat * nat) -> A -> A -> Prop) (rho : list (nat * nat))
    (a1 a2 : A) :
  R rho a1 a2 -> in_step R rho (ret a1) (ret a2).
Proof.
  intros Ha s1 s2 Hal. exists rho, []. cbn. rewrite !app_nil_r.
  splits; try assumption; try reflexivity. apply incl_refl.
Qed.

Lemma in_step_panic {A} (R : list (nat * nat) -> A -> A -> Prop) (rho : list (nat * nat))
    (msg : string) :
  in_step R rho (panic msg) (panic msg).
Proof.
  intros s1 s2 Hal. exists rho, []. cbn. rewrite !app_nil_r.
  splits; try assumption; try reflexivity. apply incl_refl.
Qed.

Lemma in_step_fault {A} (R : list (nat * nat) -> A -> A -> Prop) (rho : list (nat * nat)) :
  in_step R rho fault fault.
Proof.
  intros s1 s2 Hal. exists rho, []. cbn. rewrite !app_nil_r.
  splits; try assumption; try reflexivity. apply incl_refl.
Qed.

Lemma in_step_bind {A B} (R : list (nat * nat) -> A -> A -> Prop)
    (R' : list (nat * nat) -> B -> B -> Prop) (rho : list (nat * nat))
    (m1 m2 : M A) (k1 k2 : A -> M B) :
  in_step R rho m1 m2 ->
  (forall rho' a1 a2, incl rho rho' -> R rho' a1 a2 -> in_step R' rho' (k1 a1) (k2 a2)) ->
  in_step R' rho (bind m1 k1) (bind m2 k2).
Proof.
  intros Hm Hk s1 s2 Hal.
  destruct (Hm s1 s2 Hal) as (rho1 & made1 & Hincl & Hal1 & Hc1 & Hc2 & Hout).
  unfold bind.
  destruct (m1 s1) as [s1' [a1|msg1|]], (m2 s2) as [s2' [a2|msg2|]];
    cbn [fst snd] in *; try contradiction.
  - destruct (Hk rho1 a1 a2 Hincl Hout s1' s2' Hal1)
      as (rho2 & made2 & Hincl2 & Hal2 & Hd1 & Hd2 & Hout2).
    exists rho2, (made1 ++ made2). rewrite Hd1, Hd2, Hc1, Hc2, !app_assoc.
    splits; try assumption; try reflexivity. eapply incl_tran; eauto.
  - exists rho1, made1. now splits.
  - exists rho1, made1. now splits.
Qed.

Lemma in_step_load (rho : list (nat * nat)) (v1 v2 : Value) :
  same_Value rho v1 v2 -> in_step similar rho (load v1) (load v2).
Proof.
  intros (_ & Hin & Hpath & _) s1 s2 Hal. exists rho, []. rewrite !app_nil_r.
  pose proof (alike_heap_get rho _ _ _ _ Hal Hin Hpath) as H. unfold load.
  destruct (heap_get (heap s1) (ref v1)), (heap_get (heap s2) (ref v2));
    cbn in *; try contradiction; splits; try assumption; try reflexivity;
    apply incl_refl.
Qed.

Lemma in_step_store (rho : list (nat * nat)) (v1 v2 : Value) (x1 x2 : value) :
  same_Value rho v1 v2 -> similar rho x1 x2 ->
  in_step same_result rho (store v1 x1) (store v2 x2).
Proof.
  intros (_ & Hin & Hpath & _) Hx s1 s2 Hal. exists rho, []. rewrite !app_nil_r.
  pose proof (alike_heap_set rho _ _ _ _ x1 x2 Hal Hin Hpath Hx) as H. unfold store.
  destruct (heap_set (heap s1) (ref v1) x1), (heap_set (heap s2) (ref v2) x2);
    cbn in *; try contradiction; splits; try assumption; try reflexivity;
    apply incl_refl.
Qed.

Lemma flagRO_same (rho : list (nat * nat)) (v1 v2 : Value) :
  same_Value rho v1 v2 -> flagRO v1 = flagRO v2.
Proof. intros (_ & _ & _ & H1 & H2). unfold flagRO. now rewrite H1, H2. Qed.

Lemma in_step_mustBeAssignable (rho : list (nat * nat)) (v1 v2 : Value) :
  same_Value rho v1 v2 ->
  in_step same_result rho (mustBeAssignable v1) (mustBeAssignable v2).
Proof.
  intros Hv. unfold mustBeAssignable. rewrite (flagRO_same _ _ _ Hv).
  destruct (flagRO v2); [apply in_step_panic|now apply in_step_ret].
Qed.

Lemma in_step_IsNil (rho : list (nat * nat)) (v1 v2 : Value) :
  same_Value rho v1 v2 -> in_step same_result rho (IsNil v1) (IsNil v2).
Proof.
  intros Hv. unfold IsNil. eapply in_step_bind; [now apply in_step_load|].
  intros rho' x1 x2 _ Hx.
  inversion Hx; subst; try apply in_step_fault; now apply in_step_ret.
Qed.

Lemma in_step_Elem (rho : list (nat * nat)) (v1 v2 : Value) :
  same_Value rho v1 v2 -> in_step same_Value rho (Elem v1) (Elem v2).
Proof.
  intros Hv. unfold Elem. eapply in_step_bind; [now apply in_step_load|].
  intros rho' x1 x2 _ Hx. destruct Hv as (Ht & _ & _ & Hs & He). rewrite Ht, Hs, He.
  destruct (typ v2); inversion Hx; subst;
    try apply in_step_fault; try apply in_step_panic.
  apply in_step_ret. now splits.
Qed.

Lemma in_step_New (rho : list (nat * nat)) (t : rtype) :
  in_step similar rho (New t) (New t).
Proof.
  intros s1 s2 Hal. exists ((length (heap s1), length (heap s2)) :: rho), [].
  rewrite !app_nil_r. cbn. splits; try reflexivity.
  - intros pr. now right.
  - apply alike_alloc; [assumption|apply similar_Zero].
  - constructor. now left.
Qed.

Lemma in_step_Set (rho : list (nat * nat)) (v1 v2 : Value) (x1 x2 : value) :
  same_Value rho v1 v2 -> similar rho x1 x2 ->
  in_step same_result rho (Set_ v1 x1) (Set_ v2 x2).
Proof.
  intros Hv Hx. unfold Set_. eapply in_step_bind; [now apply in_step_mustBeAssignable|].
  intros rho' _ _ Hincl _. apply in_step_store.
  - now apply same_Value_mono with (rho := rho).
  - now apply similar_mono with (rho := rho).
Qed.

Lemma in_step_Interface (rho : list (nat * nat)) (v1 v2 : Value) :
  same_Value rho v1 v2 -> in_step same_interface rho (Interface_ v1) (Interface_ v2).
Proof.
  intros Hv. unfold Interface_. rewrite (flagRO_same _ _ _ Hv).
  destruct (flagRO v2); [apply in_step_panic|].
  eapply in_step_bind; [now apply in_step_load|].
  intros rho' x1 x2 _ Hx. apply in_step_ret. split; [apply Hv|exact Hx].
Qed.

Lemma in_step_AddrInterface (rho : list (nat * nat)) (v1 v2 : Value) :
  same_Value rho v1 v2 ->
  in_step same_interface rho (AddrInterface v1) (AddrInterface v2).
Proof.
  intros Hv. unfold AddrInterface. rewrite (flagRO_same _ _ _ Hv).
  destruct (flagRO v2); [apply in_step_panic|].
  apply in_step_ret. destruct Hv as (Ht & Hin & Hpath & _).
  split; cbn [fst snd]; [now rewrite Ht|].
  destruct (ref v1) as [l1 path1], (ref v2) as [l2 path2]. cbn in *. subst path2.
  now constructor.
Qed.

Lemma in_step_Unmarshal (ext : Extern) (rho : list (nat * nat)) (data : list byte)
    (i1 i2 : rtype * value) :
  json_respects ext -> same_interface rho i1 i2 ->
  in_step same_result rho (Unmarshal ext data i1) (Unmarshal ext data i2).
Proof.
  intros Hjson [Ht Hx] s1 s2 Hal. destruct i1 as [t x1], i2 as [t2 x2]. cbn in Ht, Hx.
  subst t2. destruct (Hjson data t x1 x2 rho _ _ Hal Hx) as (Herr & rho' & Hincl & Hal').
  exists rho', []. rewrite !app_nil_r. unfold Unmarshal.
  destruct (json_Unmarshal ext data (t, x1) (heap s1)) as [h1 e1].
  destruct (json_Unmarshal ext data (t, x2) (heap s2)) as [h2 e2].
  cbn in *. now splits.
Qed.

Lemma in_step_call_LookupFn (rho : list (nat * nat)) (p : Parser) (key : string) :
  in_step same_result rho (call_LookupFn p key) (call_LookupFn p key).
Proof.
  intros s1 s2 Hal. exists rho, [key]. cbn. splits; try assumption; try reflexivity.
  apply incl_refl.
Qed.

Ltac lift Hincl H :=
  first [apply (same_Value_mono _ _ _ _ Hincl) in H
        |apply (similar_mono _ _ Hincl) in H].

Lemma in_step_OverflowInt (rho : list (nat * nat)) (v1 v2 : Value) (x : Z) :
  same_Value rho v1 v2 -> in_step same_result rho (OverflowInt v1 x) (OverflowInt v2 x).
Proof.
  intros (Ht & _). unfold OverflowInt. rewrite Ht.
  destruct (kind (typ v2)); try apply in_step_panic;
    (destruct (kind_bits _); [now apply in_step_ret|apply in_step_fault]).
Qed.

Lemma in_step_OverflowUint (rho : list (nat * nat)) (v1 v2 : Value) (x : Z) :
  same_Value rho v1 v2 -> in_step same_result rho (OverflowUint v1 x) (OverflowUint v2 x).
Proof.
  intros (Ht & _). unfold OverflowUint. rewrite Ht.
  destruct (kind (typ v2)); try apply in_step_panic;
    (destruct (kind_bits _); [now apply in_step_ret|apply in_step_fault]).
Qed.

Lemma in_step_OverflowFloat (ext : Extern) (rho : list (nat * nat)) (v1 v2 : Value)
    (x : spec_float) :
  same_Value rho v1 v2 ->
  in_step same_result rho (OverflowFloat ext v1 x) (OverflowFloat ext v2 x).
Proof.
  intros (Ht & _). unfold OverflowFloat. rewrite Ht.
  destruct (kind (typ v2)); try apply in_step_panic; now apply in_step_ret.
Qed.

(** A setter of [reflect]: the check of the flags, then a store or a panic
    picked by the type. *)
Ltac in_step_setter Hv :=
  eapply in_step_bind; [now apply in_step_mustBeAssignable|];
  let rho' := fresh "rho" in
  let Hincl := fresh "Hincl" in
  intros rho' ? ? Hincl _; lift Hincl Hv;
  let Ht := fresh "Ht" in
  pose proof (proj1 Hv) as Ht; rewrite Ht.

Lemma in_step_SetInt (rho : list (nat * nat)) (v1 v2 : Value) (x : Z) :
  same_Value rho v1 v2 -> in_step same_result rho (SetInt v1 x) (SetInt v2 x).
Proof.
  intros Hv. unfold SetInt. in_step_setter Hv.
  destruct (kind (typ v2)); try apply in_step_panic;
    (destruct (kind_bits _); [|apply in_step_fault]);
    (apply in_step_store; [assumption|constructor]).
Qed.

Lemma in_step_SetUint (rho : list (nat * nat)) (v1 v2 : Value) (x : Z) :
  same_Value rho v1 v2 -> in_step same_result rho (SetUint v1 x) (SetUint v2 x).
Proof.
  intros Hv. unfold SetUint. in_step_setter Hv.
  destruct (kind (typ v2)); try apply in_step_panic;
    (destruct (kind_bits _); [|apply in_step_fault]);
    (apply in_step_store; [assumption|constructor]).
Qed.

Lemma in_step_SetFloat (ext : Extern) (rho : list (nat * nat)) (v1 v2 : Value)
    (x : spec_float) :
  same_Value rho v1 v2 -> in_step same_result rho (SetFloat ext v1 x) (SetFloat ext v2 x).
Proof.
  intros Hv. unfold SetFloat. in_step_setter Hv.
  destruct (kind (typ v2)); try apply in_step_panic;
    (apply in_step_store; [assumption|constructor]).
Qed.

Lemma in_step_SetBool (rho : list (nat * nat)) (v1 v2 : Value) (x : bool) :
  same_Value rho v1 v2 -> in_step same_result rho (SetBool v1 x) (SetBool v2 x).
Proof.
  intros Hv. unfold SetBool. in_step_setter Hv.
  destruct (kind (typ v2)); try apply in_step_panic;
    (apply in_step_store; [assumption|constructor]).
Qed.

Lemma in_step_SetString (rho : list (nat * nat)) (v1 v2 : Value) (x : string) :
  same_Value rho v1 v2 -> in_step same_result rho (SetString v1 x) (SetString v2 x).
Proof.
  intros Hv. unfold SetString. in_step_setter Hv.
  destruct (kind (typ v2)); try apply in_step_panic;
    (apply in_step_store; [assumption|constructor]).
Qed.

Lemma similar_bytes (rho : list (nat * nat)) (x : list byte) :
  similar rho (VSlice (List.map value_of_byte x)) (VSlice (List.map value_of_byte x)).
Proof.
  constructor. induction x as [|b x IH]; constructor; [constructor|exact IH].
Qed.

Lemma in_step_SetBytes (rho : list (nat * nat)) (v1 v2 : Value) (x : list byte) :
  same_Value rho v1 v2 -> in_step same_result rho (SetBytes v1 x) (SetBytes v2 x).
Proof.
  intros Hv. unfold SetBytes. in_step_setter Hv.
  destruct (typ v2) as [| | | | | | |e| |]; try apply in_step_panic.
  destruct e as [|w|w| | | | | | |]; try apply in_step_panic.
  destruct w; try apply in_step_panic.
  apply in_step_store; [assumption|apply similar_bytes].
Qed.

(** After a setter, [nil]. *)
Ltac then_nil :=
  let rho' := fresh "rho" in
  intros rho' ? ? _ _; now apply in_step_ret.

Lemma in_step_setValue (ext : Extern) (rho : list (nat * nat)) (v1 v2 : Value)
    (key : string) (bytes : list byte) :
  same_Value rho v1 v2 ->
  in_step same_result rho (setValue ext v1 key bytes) (setValue ext v2 key bytes).
Proof.
  intros Hv. pose proof (proj1 Hv) as Ht.
  assert (Hint : forall k, in_step same_result rho
                   (setValueToInt v1 k key (string_of_list_byte bytes))
                   (setValueToInt v2 k key (string_of_list_byte bytes))).
  { intros k. unfold setValueToInt.
    destruct (strconv.ParseInt _) as [z|e]; [|now apply in_step_ret].
    eapply in_step_bind; [now apply in_step_OverflowInt|].
    intros rho1 o1 o2 Hincl1 []. destruct o1; [now apply in_step_ret|].
    eapply in_step_bind; [|then_nil]. apply in_step_SetInt.
    now apply same_Value_mono with (rho := rho). }
  assert (Huint : forall k, in_step same_result rho
                    (setValueToUint v1 k key (string_of_list_byte bytes))
                    (setValueToUint v2 k key (string_of_list_byte bytes))).
  { intros k. unfold setValueToUint.
    destruct (strconv.ParseUint _) as [z|e]; [|now apply in_step_ret].
    eapply in_step_bind; [now apply in_step_OverflowUint|].
    intros rho1 o1 o2 Hincl1 []. destruct o1; [now apply in_step_ret|].
    eapply in_step_bind; [|then_nil]. apply in_step_SetUint.
    now apply same_Value_mono with (rho := rho). }
  assert (Hfloat : forall k, in_step same_result rho
                     (setValueToFloat ext v1 k key (string_of_list_byte bytes))
                     (setValueToFloat ext v2 k key (string_of_list_byte bytes))).
  { intros k. unfold setValueToFloat.
    destruct (strconv_ParseFloat ext _) as [z|e]; [|now apply in_step_ret].
    eapply in_step_bind; [now apply in_step_OverflowFloat|].
    intros rho1 o1 o2 Hincl1 []. destruct o1; [now apply in_step_ret|].
    eapply in_step_bind; [|then_nil]. apply in_step_SetFloat.
    now apply same_Value_mono with (rho := rho). }
  assert (Hbool : forall k, in_step same_result rho
                    (setValueToBool v1 k key (string_of_list_byte bytes))
                    (setValueToBool v2 k key (string_of_list_byte bytes))).
  { intros k. unfold setValueToBool.
    destruct (strconv.ParseBool _) as [z|e]; [|now apply in_step_ret].
    eapply in_step_bind; [|then_nil]. now apply in_step_SetBool. }
  unfold setValue. cbv zeta. rewrite Ht.
  destruct (typ v2) as [|w|w| | | |e|e|fs|k] eqn:Hty; cbn [kind];
    try (now apply in_step_ret); auto.
  - destruct w; apply Hint.
  - destruct w; apply Huint.
  - eapply in_step_bind; [|then_nil]. now apply in_step_SetString.
  - destruct e as [|w|w| | | | | | |]; try (now apply in_step_ret).
    destruct w; try (now apply in_step_ret).
    eapply in_step_bind; [|then_nil]. now apply in_step_SetBytes.
  - destruct k; now apply in_step_ret.
Qed.

(** Lines 64-66 of [parse] and 116-118 of [retrieve]: a nil pointer is
    pointed to a new object. *)
Lemma in_step_allocate (rho : list (nat * nat)) (v1 v2 : Value) (elem : rtype)
    (nil : bool) :
  same_Value rho v1 v2 ->
  in_step same_result rho
    (if nil then (fresh <- New elem ;; Set_ v1 fresh) else ret tt)
    (if nil then (fresh <- New elem ;; Set_ v2 fresh) else ret tt).
Proof.
  intros Hv. destruct nil; [|now apply in_step_ret].
  eapply in_step_bind; [apply in_step_New|].
  intros rho2 x1 x2 Hincl2 Hx. lift Hincl2 Hv. now apply in_step_Set.
Qed.

Lemma in_step_decodeJSON (ext : Extern) (rho : list (nat * nat)) (v1 v2 : Value)
    (tag : tagData) (value : string) (bytes : list byte) :
  json_respects ext -> same_Value rho v1 v2 ->
  in_step same_result rho (decodeJSON ext v1 tag value bytes)
    (decodeJSON ext v2 tag value bytes).
Proof.
  intros Hjson Hv. pose proof (proj1 Hv) as Ht. unfold decodeJSON. rewrite Ht.
  eapply in_step_bind with (R := same_interface).
  - destruct (typ v2) as [| | | | | |elem| | |]; try now apply in_step_AddrInterface.
    eapply in_step_bind; [now apply in_step_IsNil|].
    intros rho1 n1 n2 Hincl1 []. lift Hincl1 Hv.
    eapply in_step_bind; [now apply in_step_allocate|].
    intros rho2 ? ? Hincl2 _. lift Hincl2 Hv. now apply in_step_Interface.
  - intros rho1 i1 i2 Hincl1 Hi.
    eapply in_step_bind; [now apply in_step_Unmarshal|].
    intros rho2 e1 e2 _ []. destruct e1; now apply in_step_ret.
Qed.

Lemma in_step_retrieve (ext : Extern) (rho : list (nat * nat)) (p : Parser)
    (v1 v2 : Value) (tag : tagData) :
  json_respects ext -> same_Value rho v1 v2 ->
  in_step same_result rho (retrieve ext p v1 tag) (retrieve ext p v2 tag).
Proof.
  intros Hjson Hv. unfold retrieve.
  eapply in_step_bind; [apply in_step_call_LookupFn|].
  intros rho1 found ? Hincl1 []. lift Hincl1 Hv.
  destruct found as [value|]; [|destruct (negb _); now apply in_step_ret].
  destruct (if Base64 tag then _ else _) as [bytes|err]; [|now apply in_step_ret].
  destruct (JSON tag); [now apply in_step_decodeJSON|].
  pose proof (proj1 Hv) as Ht. rewrite Ht.
  eapply in_step_bind with (R := same_Value); [|intros; now apply in_step_setValue].
  destruct (typ v2) as [| | | | | |elem| | |]; try now apply in_step_ret.
  eapply in_step_bind; [apply in_step_New|].
  intros rho2 x1 x2 Hincl2 Hx. lift Hincl2 Hv.
  eapply in_step_bind; [now apply in_step_Set|].
  intros rho3 ? ? Hincl3 _. lift Hincl3 Hv. now apply in_step_Elem.
Qed.

Lemma in_step_enter_struct (rho : list (nat * nat)) (field : StructField)
    (v1 v2 : Value) :
  same_Value rho v1 v2 ->
  in_step same_Value rho (enter_struct field v1) (enter_struct field v2).
Proof.
  intros Hv. unfold enter_struct.
  destruct (Typ field) as [| | | | | |elem| | |]; try now apply in_step_ret.
  eapply in_step_bind; [now apply in_step_IsNil|].
  intros rho1 n1 n2 Hincl1 []. lift Hincl1 Hv.
  eapply in_step_bind; [now apply in_step_allocate|].
  intros rho2 ? ? Hincl2 _. lift Hincl2 Hv. now apply in_step_Elem.
Qed.

Lemma same_Value_Field (rho : list (nat * nat)) (v1 v2 : Value) (i : nat)
    (f : StructField) :
  same_Value rho v1 v2 -> same_Value rho (Field v1 i f) (Field v2 i f).
Proof.
  intros (Ht & Hin & Hpath & Hs & He). unfold Field, same_Value. cbn.
  rewrite Hpath, Hs. now splits.
Qed.

Lemma in_step_parse_field (ext : Extern) (rho : list (nat * nat)) (p : Parser)
    (recur : rtype -> Value -> M (bool * option error))
    (config1 config2 : Value) (i : nat) (f : StructField) (tagFound : bool) :
  json_respects ext ->
  (forall st, struct_below (Typ f) = Some st ->
     forall rho' v1 v2, same_Value rho' v1 v2 ->
       in_step same_result rho' (recur st v1) (recur st v2)) ->
  same_Value rho config1 config2 ->
  in_step same_result rho
    (parse_field ext p recur config1 i f tagFound)
    (parse_field ext p recur config2 i f tagFound).
Proof.
  intros Hjson Hrec Hc. rewrite !parse_field_eq.
  pose proof (same_Value_Field rho _ _ i f Hc) as Hv.
  destruct (parseTag f (Tag p)) as [tag [e|]]; [now apply in_step_ret|].
  eapply in_step_bind with (R := same_result).
  - destruct (Tagged tag); [|now apply in_step_ret].
    eapply in_step_bind; [now apply in_step_retrieve|].
    intros rho1 e1 ? _ []. now apply in_step_ret.
  - intros rho1 [tf [e|]] ? Hincl1 []; [now apply in_step_ret|]. lift Hincl1 Hv.
    destruct (struct_below (Typ f)) as [st|] eqn:Hst; [|now apply in_step_ret].
    unfold descend.
    eapply in_step_bind; [now apply in_step_enter_struct|].
    intros rho2 w1 w2 _ Hw.
    eapply in_step_bind; [now apply (Hrec st eq_refl)|].
    intros rho3 r ? _ []. destruct (Tagged tag && fst r); now apply in_step_ret.
Qed.

Lemma in_step_parse_fields (ext : Extern) (p : Parser)
    (recur : rtype -> Value -> M (bool * option error)) (fs : list StructField) :
  json_respects ext ->
  Forall (fun f => forall st, struct_below (Typ f) = Some st ->
            forall rho' v1 v2, same_Value rho' v1 v2 ->
              in_step same_result rho' (recur st v1) (recur st v2)) fs ->
  forall rho config1 config2 i tagFound,
    same_Value rho config1 config2 ->
    in_step same_result rho
      (parse_fields ext p recur config1 fs i tagFound)
      (parse_fields ext p recur config2 fs i tagFound).
Proof.
  intros Hjson Hfs. induction Hfs as [|f fs Hf _ IH]; intros rho c1 c2 i tf Hc;
    cbn [parse_fields].
  - now apply in_step_ret.
  - eapply in_step_bind; [now apply in_step_parse_field|].
    intros rho1 [tf1 [e|]] ? Hincl1 []; [now apply in_step_ret|].
    apply IH. now apply same_Value_mono with (rho := rho).
Qed.

(** Two traversals of structs that are equal up to addresses go the same
    way. *)
Lemma in_step_parse (ext : Extern) (p : Parser) (t : rtype) :
  json_respects ext ->
  forall rho v1 v2, same_Value rho v1 v2 ->
    in_step same_result rho (parse ext p t v1) (parse ext p t v2).
Proof.
  intros Hjson. induction t as [t Ht|fs IH] using rtype_struct_ind; intros rho v1 v2 Hv.
  - destruct t; try apply in_step_panic. now destruct (Ht fields).
  - rewrite !parse_struct. now apply in_step_parse_fields.
Qed.

Lemma in_step_Get (ext : Extern) (p : Parser) (t : rtype) (x1 x2 : value)
    (rho : list (nat * nat)) :
  json_respects ext -> similar rho x1 x2 ->
  in_step same_result rho (Get ext p (Some (t, x1))) (Get ext p (Some (t, x2))).
Proof.
  intros Hjson Hx. unfold Get.
  destruct t as [| | | | | |e| | |]; try now apply in_step_ret.
  destruct e as [| | | | | | | |fs|]; try now apply in_step_ret.
  inversion Hx as [| | | | | |l1 l2 path Hin| | |]; subst;
    try apply in_step_fault; [apply in_step_panic|].
  eapply in_step_bind.
  - apply in_step_parse; [assumption|]. unfold same_Value. cbn. now splits.
  - intros rho1 r ? _ []. now apply in_step_ret.
Qed.

(** C10: [Get] is deterministic.  Two runs with the same parser, on
    records that are equal up to the addresses of their objects, anywhere
    in two memories ([alike]: the objects the records reach are paired one
    to one and hold similar values), end the same way: they return the same
    error or both nil (or stop in the same panic), after the same lookups,
    and they leave memories that are again equal up to addresses under a
    pairing that extends the first, so the two records are equal up to
    addresses afterwards.  The JSON decoder is taken not to depend on
    addresses. *)
Theorem C10_Get_deterministic (ext : Extern) (p : Parser) (t : rtype) (x1 x2 : value)
    (rho : list (nat * nat)) (s1 s2 : state) :
  json_respects ext ->
  alike rho (heap s1) (heap s2) ->
  similar rho x1 x2 ->
  exists rho' made s1' s2' r,
    Get ext p (Some (t, x1)) s1 = (s1', r) /\
    Get ext p (Some (t, x2)) s2 = (s2', r) /\
    calls s1' = calls s1 ++ made /\ calls s2' = calls s2 ++ made /\
    incl rho rho' /\ alike rho' (heap s1') (heap s2').
Proof.
  intros Hjson Hal Hx.
  destruct (in_step_Get ext p t x1 x2 rho Hjson Hx s1 s2 Hal)
    as (rho' & made & Hincl & Hal' & Hc1 & Hc2 & Hout).
  destruct (Get ext p (Some (t, x1)) s1) as [s1' r1].
  destruct (Get ext p (Some (t, x2)) s2) as [s2' r2].
  cbn [fst snd] in *.
  exists rho', made, s1', s2', r1.
  assert (r2 = r1) as ->.
  { destruct r1, r2; try contradiction; congruence. }
  now splits.
Qed.

(* ===================================================================== *)
(** ** The names looked up *)
(* ===================================================================== *)

Lemma Split_no_commas (s : string) :
  List.Forall (fun tok => strings.has_comma tok = false) (strings.Split s).
Proof.
  induction s as [|c s IH]; cbn [strings.Split].
  - now constructor.
  - destruct (Ascii.eqb c ",") eqn:Hc.
    + constructor; [reflexivity|exact IH].
    + destruct (strings.Split s) as [|tok toks].
      * constructor; [|constructor]. cbn. now rewrite Hc.
      * inversion IH; subst. constructor; [|assumption]. cbn. now rewrite Hc.
Qed.

(** The name of an annotation that parses is not empty and holds no
    comma. *)
Lemma parseTag_Name (f : StructField) (key : string) (tag : tagData) :
  parseTag f key = (tag, None) -> Tagged tag = true ->
  Name tag <> "" /\ strings.has_comma (Name tag) = false.
Proof.
  unfold parseTag. destruct (Lookup (reflect.Tag f) key) as [tags|].
  2:{ intros [= <-]. discriminate. }
  destruct (String.length _ =? 0)%nat eqn:Hlen; [discriminate|].
  rewrite parseTag_options_spec. destruct (find _ _); [discriminate|].
  intros [= <-] _. cbn [Name]. split.
  - intros Hempty. rewrite Hempty in Hlen. discriminate Hlen.
  - pose proof (Split_no_commas tags) as H.
    destruct (strings.Split tags) as [|tok toks]; [reflexivity|].
    now inversion H.
Qed.

Lemma declared_names_wellformed (key : string) (t : rtype) :
  List.Forall (fun name => name <> "" /\ strings.has_comma name = false)
    (declared_names key t).
Proof.
  induction t as [t Ht|fs IH] using rtype_struct_ind.
  - destruct t; try constructor. now destruct (Ht fields).
  - induction IH as [|f fs Hf _ IHfs]; [constructor|].
    rewrite declared_names_cons. apply List.Forall_app. split; [|apply List.Forall_app; split].
    + unfold own_name. destruct (parseTag f key) as [tag [e|]] eqn:Htag; [constructor|].
      destruct (Tagged tag) eqn:Ht; [|constructor].
      constructor; [|constructor]. eapply parseTag_Name; eassumption.
    + unfold names_below. destruct (struct_below (Typ f)) as [st|] eqn:Hst; [|constructor].
      now apply Hf.
    + exact IHfs.
Qed.

(** X19: the lookup function is only ever asked for names that are not
    empty and hold no comma: the first token of an annotation that parsed. *)
Theorem Get_looks_up_proper_names (ext : Extern) (p : Parser)
    (config : option (rtype * value)) (s : state) :
  exists made,
    calls (fst (Get ext p config s)) = calls s ++ made /\
    List.Forall (fun name => name <> "" /\ strings.has_comma name = false) made.
Proof.
  destruct (Get_calls ext p config s) as (made & rest & Hc & Hn & _).
  exists made. split; [assumption|].
  assert (H : List.Forall (fun name => name <> "" /\ strings.has_comma name = false)
                (config_names (Tag p) config)).
  { unfold config_names. destruct config as [[t x]|]; [|constructor].
    destruct t; try constructor. apply declared_names_wellformed. }
  rewrite Hn in H. now apply List.Forall_app in H.
Qed.

(* ===================================================================== *)
(** ** The claims on examples *)
(* ===================================================================== *)

(** C1 does not hold as stated: a record without annotations whose field
    [P] is a nil pointer to a struct.  [Get] succeeds, and [P] is no longer
    nil: it points to a new object. *)
Lemma C1_nil_pointer_is_replaced :
  untagged "env" (TStruct config_nil_pointer) = true /\
  Get doubles (mapToParser []) (pointer_to config_nil_pointer 0)
    (mkState [VStruct [VPtr None]] []) =
  (mkState [VStruct [VPtr (Some (1, []))]; VStruct []] [], Ret None).
Proof. split; reflexivity. Qed.

(** C1, as the code has it, on that record. *)
Lemma C1_untagged_record_witness :
  exists s' types',
    Get doubles (mapToParser []) (pointer_to config_nil_pointer 0)
      (mkState [VStruct [VPtr None]] []) = (s', Ret None) /\
    calls s' = [] /\
    only_fills [TStruct config_nil_pointer] 1 [VStruct [VPtr None]] (heap s') /\
    well_typed ([TStruct config_nil_pointer] ++ types') (heap s') /\
    kept_but_for [VStruct [VPtr None]] (heap s') (TStruct config_nil_pointer) (0, []) /\
    filled (heap s') (TStruct config_nil_pointer) (0, []) /\
    fresh_zero ([TStruct config_nil_pointer] ++ types') 1 (heap s').
Proof.
  apply (C1_untagged_record doubles (mapToParser []) config_nil_pointer (0, [])
           (mkState [VStruct [VPtr None]] []) [TStruct config_nil_pointer]).
  - reflexivity.
  - reflexivity.
  - repeat constructor.
  - reflexivity.
Defined.

(** C2 on the code: a field [VarA *int] that already points to an int 5
    (object 1), and VAR_A set.  The resolution does not write through the
    pointer: it allocates object 2 and points the field there; object 1
    keeps its 5.  When the text does not parse, the field is left pointing
    to a new zero. *)
Theorem C2_scalar_pointer_is_reallocated :
  Get doubles (mapToParser [("VAR_A", "7")]) (pointer_to config_int_pointer 0)
    (mkState [VStruct [VPtr (Some (1, []))]; VInt 5] []) =
  (mkState [VStruct [VPtr (Some (2, []))]; VInt 5; VInt 7] ["VAR_A"], Ret None) /\
  Get doubles (mapToParser [("VAR_A", "seven")]) (pointer_to config_int_pointer 0)
    (mkState [VStruct [VPtr (Some (1, []))]; VInt 5] []) =
  (mkState [VStruct [VPtr (Some (2, []))]; VInt 5; VInt 0] ["VAR_A"],
   Ret (Some (ErrCannotParseEnv (NumErr strconv.ErrSyntax) Int "VAR_A" "seven"))).
Proof. split; reflexivity. Qed.



(** C4 on the two annotations of the package documentation,
    [B64_JSON,base64,json] and [B64_JSON,json,base64]. *)
Lemma C4_modifier_order_witness :
  parseTag (env_field "FromB64JSON" TString "B64_JSON,base64,json") "env" =
    (tagData_of "B64_JSON" ["base64"; "json"], None) /\
  parseTag (env_field "FromB64JSONAlso" TString "B64_JSON,json,base64") "env" =
    parseTag (env_field "FromB64JSON" TString "B64_JSON,base64,json") "env".
Proof.
  pose proof (C4_modifier_order doubles (mapToParser []) "B64_JSON"
                ["base64"; "json"] ["json"; "base64"]
                (env_field "FromB64JSON" TString "B64_JSON,base64,json")
                (env_field "FromB64JSONAlso" TString "B64_JSON,json,base64")) as H.
  destruct H as (H1 & H2 & _).
  - discriminate.
  - reflexivity.
  - repeat constructor.
  - apply perm_swap.
  - reflexivity.
  - reflexivity.
  - split; assumption.
Defined.

(** C5 on TestIntOverflow: 500 into an int8 field. *)
Lemma C5_parse_then_overflow_witness :
  setValue doubles (mkValue (TInt W8) (0, [0]) false false) "VAR_A"
    (list_byte_of_string "500") (mkState [VStruct [VInt 0]] []) =
  (mkState [VStruct [VInt 0]] [], Ret (Some (ErrOverflow Int8 "VAR_A" "500"))).
Proof.
  pose proof (C5_parse_then_overflow doubles (mkValue (TInt W8) (0, [0]) false false)
                "VAR_A" "500" (mkState [VStruct [VInt 0]] []) (VInt 0)
                eq_refl eq_refl) as H.
  cbv zeta in H. destruct H as (_ & _ & _ & H & _). exact (H eq_refl).
Defined.

(** C6 does not hold as stated: two fields annotated with the same name.
    The lookup function is called twice with that name. *)
Lemma C6_same_name_is_looked_up_twice :
  Get doubles (mapToParser [("X", "v")]) (pointer_to config_same_name 0)
    (mkState [VStruct [VString ""; VString ""]] []) =
  (mkState [VStruct [VString "v"; VString "v"]] ["X"; "X"], Ret None).
Proof. reflexivity. Qed.



(** C9 does not hold as stated for a pointer field: the kind of the field
    of TestIntPointer is [Ptr], outside the coercible kinds, and the
    resolution succeeds. *)
Lemma C9_pointer_field_is_set :
  kind (TPtr (TInt W0)) = Ptr /\
  coercible (TPtr (TInt W0)) = false /\
  JSON (tagData_of "VAR_A" []) = false /\
  retrieve doubles (mapToParser [("VAR_A", "500")])
    (mkValue (TPtr (TInt W0)) (0, [0]) false false) (tagData_of "VAR_A" [])
    (mkState [VStruct [VPtr None]] []) =
  (mkState [VStruct [VPtr (Some (1, []))]; VInt 500] ["VAR_A"], Ret None).
Proof. repeat split; reflexivity. Qed.

(** C9, as the code has it, on TestErrCannotSetKindForInterface. *)
Lemma C9_cannot_set_kind_witness :
  retrieve doubles (mapToParser [("VAR_A", "false")])
    (mkValue (TOpaque OInterface) (0, [0]) false false) (tagData_of "VAR_A" [])
    (mkState [VStruct [VOpaque 0]] []) =
  (mkState [VStruct [VOpaque 0]] ["VAR_A"], Ret (Some (ErrCannotSetKind Interface))).
Proof.
  pose proof (C9_cannot_set_kind doubles (mapToParser [("VAR_A", "false")])
                (mkValue (TOpaque OInterface) (0, [0]) false false)
                (tagData_of "VAR_A" []) "false" (list_byte_of_string "false")
                (mkState [VStruct [VOpaque 0]] []) eq_refl eq_refl eq_refl) as H.
  destruct H as (_ & H & _). apply H; [discriminate|reflexivity].
Defined.

(** The stand-in for the JSON decoder looks at the shape of the interface
    value only and leaves memory as it is. *)
Lemma json_respects_doubles : json_respects doubles.
Proof.
  intros data t x1 x2 rho h1 h2 Hal Hx. cbn [doubles json_Unmarshal]. unfold json_double.
  assert (Hrho : exists rho', incl rho rho' /\ alike rho' h1 h2)
    by (exists rho; split; [apply incl_refl|assumption]).
  destruct (String.eqb _ _); [|now split].
  destruct t as [| | | | | |e| | |]; try now split.
  destruct e; try now split.
  inversion Hx; subst; now split.
Qed.

(** C10 on TestIntPointer: the record is object 0 of one memory and object
    1 of another; the new int is object 1 of the first and object 2 of the
    second. *)
Lemma C10_Get_deterministic_witness :
  exists rho' made s1' s2' r,
    Get doubles (mapToParser [("VAR_A", "500")])
      (Some (TPtr (TStruct config_int_pointer), VPtr (Some (0, []))))
      (mkState [VStruct [VPtr None]] []) = (s1', r) /\
    Get doubles (mapToParser [("VAR_A", "500")])
      (Some (TPtr (TStruct config_int_pointer), VPtr (Some (1, []))))
      (mkState [VInt 5; VStruct [VPtr None]] ["OTHER"]) = (s2', r) /\
    calls s1' = [] ++ made /\ calls s2' = ["OTHER"] ++ made /\
    incl [(0, 1)] rho' /\ alike rho' (heap s1') (heap s2').
Proof.
  apply (C10_Get_deterministic doubles (mapToParser [("VAR_A", "500")])
           (TPtr (TStruct config_int_pointer)) (VPtr (Some (0, []))) (VPtr (Some (1, [])))
           [(0, 1)] (mkState [VStruct [VPtr None]] [])
           (mkState [VInt 5; VStruct [VPtr None]] ["OTHER"])).
  - exact json_respects_doubles.
  - split; [|split].
    + intros l1 l2 l2' [[= <- <-]|[]] [[= <-]|[]]. reflexivity.
    + intros l1 l1' l2 [[= <- <-]|[]] [[= <-]|[]]. reflexivity.
    + intros l1 l2 [[= <- <-]|[]]. do 2 eexists. split; [reflexivity|].
      split; [reflexivity|]. repeat constructor.
  - constructor. now left.
Defined.

(* ===================================================================== *)
(** ** Examples of the further properties *)
(* ===================================================================== *)

(** The stand-in for the JSON decoder leaves memory as it is. *)
Lemma json_typed_doubles : json_typed doubles.
Proof.
  intros data t pl types h Hh Hpl. exists []. rewrite app_nil_r.
  cbn [doubles json_Unmarshal]. unfold json_double.
  destruct (String.eqb _ _); [|exact Hh]. now destruct t.
Qed.

(** TestStringRequiredButMissing *)
Lemma Get_var_not_found_sound_witness :
  LookupFn (mapToParser []) "VAR_A" = None /\
  (exists pre, ["VAR_A"] = [] ++ pre ++ ["VAR_A"]) /\
  exists f tag,
    In f (config_fields (pointer_to config_string 0)) /\
    parseTag f "env" = (tag, None) /\
    Tagged tag = true /\ Name tag = "VAR_A" /\ Optional tag = false.
Proof.
  exact (Get_var_not_found_sound doubles (mapToParser []) (pointer_to config_string 0)
           (mkState [VStruct [VString ""]] []) (mkState [VStruct [VString ""]] ["VAR_A"])
           "VAR_A" eq_refl).
Defined.

(** TestBase64Invalid *)
Lemma Get_decode_failure_sound_witness :
  LookupFn (mapToParser [("VAR_A", "i-am-not-base64")]) "VAR_A" = Some "i-am-not-base64" /\
  (exists pre, ["VAR_A"] = [] ++ pre ++ ["VAR_A"]) /\
  exists f tag,
    In f (config_fields (pointer_to config_base64 0)) /\
    parseTag f "env" = (tag, None) /\
    Tagged tag = true /\ Name tag = "VAR_A" /\
    (("base64" = "base64" /\ Base64 tag = true /\
      base64_DecodeString doubles "i-am-not-base64" = inr (LibError "illegal base64 data")) \/
     ("base64" = "json" /\ JSON tag = true /\
      exists bytes iface h,
        decoded doubles tag "i-am-not-base64" = inl bytes /\
        snd (json_Unmarshal doubles bytes iface h) = Some (LibError "illegal base64 data"))).
Proof.
  exact (Get_decode_failure_sound doubles (mapToParser [("VAR_A", "i-am-not-base64")])
           (pointer_to config_base64 0)
           (mkState [VStruct [VString ""]] []) (mkState [VStruct [VString ""]] ["VAR_A"])
           (LibError "illegal base64 data") "VAR_A" "i-am-not-base64" "base64" eq_refl).
Defined.

(** TestBoolCannotParseEnv *)
Lemma Get_coercion_error_sound_witness :
  exists f tag raw bytes,
    In f (config_fields (pointer_to config_bool 0)) /\
    parseTag f "env" = (tag, None) /\
    Tagged tag = true /\ JSON tag = false /\
    LookupFn (mapToParser [("VAR_A", "not-a-bool")]) (Name tag) = Some raw /\
    decoded doubles tag raw = inl bytes /\
    coercion_error doubles (coercion_target (Typ f)) (Name tag) (string_of_list_byte bytes)
      (ErrCannotParseEnv (NumErr strconv.ErrSyntax) Bool "VAR_A" "not-a-bool") /\
    exists pre, ["VAR_A"] = [] ++ pre ++ [Name tag].
Proof.
  exact (Get_coercion_error_sound doubles (mapToParser [("VAR_A", "not-a-bool")])
           (pointer_to config_bool 0)
           (mkState [VStruct [VBool false]] []) (mkState [VStruct [VBool false]] ["VAR_A"])
           (ErrCannotParseEnv (NumErr strconv.ErrSyntax) Bool "VAR_A" "not-a-bool") eq_refl).
Defined.

(** TestNestedStructWithConfigTags *)
Lemma Get_nested_tags_sound_witness :
  exists f tag st,
    In f (config_fields (pointer_to config_nested_tags 0)) /\
    reflect.Name f = "Nested" /\
    parseTag f "env" = (tag, None) /\ Tagged tag = true /\ Name tag = "NESTED" /\
    struct_below (Typ f) = Some st /\ directly_tagged "env" st = true.
Proof.
  exact (Get_nested_tags_sound doubles (mapToParser [("NESTED", "{}")])
           (pointer_to config_nested_tags 0)
           (mkState [VStruct [VStruct [VInt 0]]] [])
           (mkState [VStruct [VStruct [VInt 0]]] ["NESTED"; "VAR_C"])
           "Nested" "NESTED" eq_refl).
Defined.

(** TestBadOption *)
Lemma Get_tag_error_sound_witness :
  exists f,
    In f (config_fields (pointer_to config_bad_option 0)) /\
    Lookup (reflect.Tag f) "env" = Some "VAR_A,not-a-valid-option" /\
    In "not-a-valid-option" (tl (strings.Split "VAR_A,not-a-valid-option")) /\
    modifier "not-a-valid-option" = false.
Proof.
  exact (Get_tag_error_sound doubles (mapToParser [])
           (pointer_to config_bad_option 0)
           (mkState [VStruct [VString ""]] []) (mkState [VStruct [VString ""]] [])
           (ErrInvalidTagOption "VAR_A,not-a-valid-option" "not-a-valid-option") eq_refl).
Defined.

(** TestTwoStrings *)
Lemma Get_success_complete_witness :
  Forall (resolved doubles (mapToParser [("VAR_A", "VAL_A"); ("VAR_B", "VAL_B")]))
    (config_fields (pointer_to config_two_strings 0)).
Proof.
  exact (Get_success_complete doubles
           (mapToParser [("VAR_A", "VAL_A"); ("VAR_B", "VAL_B")])
           (pointer_to config_two_strings 0)
           (mkState [VStruct [VString ""; VString ""]] [])
           (mkState [VStruct [VString "VAL_A"; VString "VAL_B"]] ["VAR_A"; "VAR_B"])
           eq_refl).
Defined.

(** TestInt *)
Lemma Get_never_panics_witness :
  exists s' err types',
    Get doubles (mapToParser [("VAR_A", "500")]) (pointer_to config_int 0)
      (mkState [VStruct [VInt 0]] []) = (s', Ret err) /\
    well_typed ([TStruct config_int] ++ types') (heap s').
Proof.
  apply (Get_never_panics doubles (mapToParser [("VAR_A", "500")]) config_int (0, [])
           (mkState [VStruct [VInt 0]] []) [TStruct config_int]).
  - exact json_typed_doubles.
  - reflexivity.
  - repeat constructor; discriminate.
  - reflexivity.
Defined.

(** [VarB], without annotation, keeps its value. *)
Lemma Get_touches_annotated_only_witness :
  exists s' err,
    Get doubles (mapToParser [("VAR_A", "VAL_A")]) (pointer_to config_mixed 0)
      (mkState [VStruct [VString ""; VString "default"]] []) = (s', Ret err) /\
    only_touches "env" [TStruct config_mixed] 1
      [VStruct [VString ""; VString "default"]] (heap s').
Proof.
  apply (Get_touches_annotated_only doubles (mapToParser [("VAR_A", "VAL_A")])
           config_mixed (0, []) (mkState [VStruct [VString ""; VString "default"]] [])
           [TStruct config_mixed]).
  - reflexivity.
  - reflexivity.
  - repeat constructor; discriminate.
  - reflexivity.
Defined.

(** TestString: the field takes [VAL_A] as it is. *)
Lemma retrieve_verbatim_witness :
  exists h',
    retrieve doubles (mapToParser [("VAR_A", "VAL_A")])
      (mkValue TString (0, [0]) false false) (tagData_of "VAR_A" [])
      (mkState [VStruct [VString ""]] []) = (mkState h' ["VAR_A"], Ret None) /\
    heap_set [VStruct [VString ""]] (0, [0]) (VString "VAL_A") = Some h'.
Proof.
  apply (retrieve_verbatim doubles (mapToParser [("VAR_A", "VAL_A")])
           (mkValue TString (0, [0]) false false) (tagData_of "VAR_A" [])
           "VAL_A" (VString "") (mkState [VStruct [VString ""]] []));
    try reflexivity.
  now left.
Defined.

(** TestBase64Int: the resolution of [VAR_A,base64] for [MDkxNQ==] is the
    resolution of [VAR_A] for [0915]. *)
Lemma retrieve_base64_then_coerce_witness :
  retrieve doubles64 (mapToParser [("VAR_A", "MDkxNQ==")])
    (mkValue (TInt W0) (0, [0]) false false) (tagData_of "VAR_A" ["base64"])
    (mkState [VStruct [VInt 0]] []) =
  retrieve doubles64 (mapToParser [("VAR_A", "0915")])
    (mkValue (TInt W0) (0, [0]) false false) (mkTagData true "VAR_A" false false false)
    (mkState [VStruct [VInt 0]] []).
Proof.
  apply (retrieve_base64_then_coerce doubles64 (mapToParser [("VAR_A", "MDkxNQ==")])
           (mapToParser [("VAR_A", "0915")]) (mkValue (TInt W0) (0, [0]) false false)
           (tagData_of "VAR_A" ["base64"]) "MDkxNQ==" (list_byte_of_string "0915")
           (mkState [VStruct [VInt 0]] []));
    reflexivity.
Defined.

(** A field [varA string `env:"VAR_A"`] with VAR_A set *)
Lemma retrieve_unexported_panics_witness :
  exists msg,
    retrieve doubles (mapToParser [("VAR_A", "VAL_A")])
      (Field (mkValue (TStruct [field_unexported]) (0, []) false false) 0 field_unexported)
      (tagData_of "VAR_A" []) (mkState [VStruct [VString ""]] []) =
    (called "VAR_A" (mkState [VStruct [VString ""]] []), Panic msg).
Proof.
  apply (retrieve_unexported_panics doubles (mapToParser [("VAR_A", "VAL_A")])
           (mkValue (TStruct [field_unexported]) (0, []) false false) 0 field_unexported
           (tagData_of "VAR_A" []) "VAL_A" (list_byte_of_string "VAL_A") (VString "VAL_A")
           (mkState [VStruct [VString ""]] []));
    try reflexivity.
  exact (coerced_string doubles (list_byte_of_string "VAL_A")).
Defined.

(** TestIntPointer, the field already pointing to an int *)
Lemma retrieve_pointer_allocates_witness :
  exists h1 s' err,
    heap_set ([VStruct [VPtr (Some (1, []))]; VInt 5] ++ [Zero (TInt W0)]) (0, [0])
      (VPtr (Some (2, []))) = Some h1 /\
    retrieve doubles (mapToParser [("VAR_A", "7")])
      (mkValue (TPtr (TInt W0)) (0, [0]) false false) (tagData_of "VAR_A" [])
      (mkState [VStruct [VPtr (Some (1, []))]; VInt 5] []) = (s', Ret err) /\
    calls s' = [] ++ ["VAR_A"] /\
    match err with
    | None =>
        exists x, coerced doubles (list_byte_of_string "7") (TInt W0) x /\
                  heap_set h1 (2, []) x = Some (heap s')
    | Some e =>
        coercion_error doubles (TInt W0) "VAR_A"
          (string_of_list_byte (list_byte_of_string "7")) e /\ heap s' = h1
    end.
Proof.
  apply (retrieve_pointer_allocates doubles (mapToParser [("VAR_A", "7")])
           (mkValue (TPtr (TInt W0)) (0, [0]) false false) (tagData_of "VAR_A" [])
           (TInt W0) "7" (list_byte_of_string "7") (VPtr (Some (1, [])))
           (mkState [VStruct [VPtr (Some (1, []))]; VInt 5] []));
    reflexivity.
Defined.

(** TestNestedStructPointerAsJSON, the field already pointing to a
    struct *)
Lemma retrieve_json_pointer_witness :
  exists h1 pl,
    (h1 = [VStruct [VPtr (Some (1, []))]; VStruct []] /\ pl = (1, [])) /\
    retrieve doubles (mapToParser [("NESTED", "{}")])
      (mkValue (TPtr (TStruct [])) (0, [0]) false false)
      (tagData_of "NESTED" ["json"])
      (mkState [VStruct [VPtr (Some (1, []))]; VStruct []] []) =
    (mkState (fst (json_Unmarshal doubles (list_byte_of_string "{}")
                     (TPtr (TStruct []), VPtr (Some pl)) h1))
       ([] ++ ["NESTED"]),
     Ret (match snd (json_Unmarshal doubles (list_byte_of_string "{}")
                       (TPtr (TStruct []), VPtr (Some pl)) h1) with
          | Some c => Some (ErrDecodeFailure c "NESTED" "{}" "json")
          | None => None
          end)).
Proof.
  apply (retrieve_json_pointer doubles (mapToParser [("NESTED", "{}")])
           (mkValue (TPtr (TStruct [])) (0, [0]) false false)
           (tagData_of "NESTED" ["json"]) (TStruct []) "{}" (list_byte_of_string "{}")
           (Some (1, [])) (mkState [VStruct [VPtr (Some (1, []))]; VStruct []] []));
    reflexivity.
Defined.

(** TestTwoStrings *)
Lemma Get_populates_witness :
  exists ys k,
    heap_set [VStruct [VString ""; VString ""]] (0, []) (VStruct ys) =
      Some [VStruct [VString "VAL_A"; VString "VAL_B"]] /\
    length ys = 2 /\
    (forall i, 2 <= i -> ys !! i = [VString ""; VString ""] !! i) /\
    (@None error = None -> k = 2) /\
    (forall i f x y,
       config_two_strings !! i = Some f -> [VString ""; VString ""] !! i = Some x ->
       ys !! i = Some y ->
       if (i <? k)%nat
       then populated doubles (mapToParser [("VAR_A", "VAL_A"); ("VAR_B", "VAL_B")]) f x y
       else y = x).
Proof.
  exact (Get_populates doubles (mapToParser [("VAR_A", "VAL_A"); ("VAR_B", "VAL_B")])
           config_two_strings (0, []) [VString ""; VString ""]
           (mkState [VStruct [VString ""; VString ""]] [])
           (mkState [VStruct [VString "VAL_A"; VString "VAL_B"]] ["VAR_A"; "VAR_B"])
           None eq_refl eq_refl eq_refl).
Defined.

(** TestTwoStrings, run twice *)
Lemma Get_idempotent_witness :
  exists s2,
    Get doubles (mapToParser [("VAR_A", "VAL_A"); ("VAR_B", "VAL_B")])
      (pointer_to config_two_strings 0)
      (mkState [VStruct [VString "VAL_A"; VString "VAL_B"]] ["VAR_A"; "VAR_B"]) =
    (s2, Ret None) /\
    heap s2 = [VStruct [VString "VAL_A"; VString "VAL_B"]].
Proof.
  apply (Get_idempotent doubles (mapToParser [("VAR_A", "VAL_A"); ("VAR_B", "VAL_B")])
           config_two_strings (0, []) (mkState [VStruct [VString ""; VString ""]] [])
           (mkState [VStruct [VString "VAL_A"; VString "VAL_B"]] ["VAR_A"; "VAR_B"])
           [TStruct config_two_strings]).
  - reflexivity.
  - reflexivity.
  - repeat constructor; discriminate.
  - reflexivity.
  - reflexivity.
Defined.

(** TestInt, on a record holding 0 and on one holding 7 *)
Lemma Get_outcome_memory_independent_witness :
  @None error = None /\
  exists made, ["VAR_A"] = [] ++ made /\ ["x"; "VAR_A"] = ["x"] ++ made.
Proof.
  exact (Get_outcome_memory_independent doubles (mapToParser [("VAR_A", "500")])
           config_int (VPtr (Some (0, []))) (VPtr (Some (1, [])))
           (mkState [VStruct [VInt 0]] []) (mkState [VStruct [VInt 500]] ["VAR_A"])
           (mkState [VInt 3; VStruct [VInt 7]] ["x"])
           (mkState [VInt 3; VStruct [VInt 500]] ["x"; "VAR_A"])
           None None eq_refl eq_refl eq_refl).
Defined.
